(** * PulseGrid analytics engine: a shallow embedding and its properties

    The JavaScript sources [js/engine.js] (descriptive statistics,
    Holt-Winters forecaster, Pearson correlation, anomaly detector),
    [js/embed.js] (escaping of the embed code; the causal-inference
    module: Granger test, OLS, Gaussian elimination, causal matrix),
    [js/pipeline.js] (interpolation of the gaps; the recession predictor
    with its composite risk scorer) and [server/cache.js] (the in-memory
    cache with expiry) are embedded as Rocq functions over IEEE-754
    binary64 numbers, which is what a JavaScript [Number] is.  Rocq's
    primitive [float] is that very format, so every definition below
    evaluates on concrete inputs exactly as the program does.

    Conventions of the embedding
    - a [Number] is a [float]; [null] is [None] of an [option];
    - array lengths, loop counters and lags are [nat] (they are exact
      integers in the program as well);
    - a year is an integer ([Z]); the program's arithmetic on years is
      Number arithmetic on their conversions ([JS.of_Z]), except for the
      years of a forecast ([lastYear + h]), which are kept as integers;
    - an object used as a dictionary keyed by year is the list of its
      bindings in the order ECMAScript enumerates them: the keys that
      are array indices (0 to 2^32 - 2) first, in ascending order, then
      the other keys in the order of their creation;
    - [Array.prototype.sort] with a comparison function is a stable
      insertion sort driven by the sign of the comparison function;
    - strings produced for display ([toFixed], template literals) and DOM
      updates are left out: the numeric value before formatting is kept;
    - the clock read by the cache ([Date.now()]) is an argument of its
      operations, and a [Map] is the list of its bindings in insertion
      order. *)

From Stdlib Require Import Ascii String.
From Stdlib Require Import Floats ZArith List Bool Lia.
From Stdlib Require Import Sorting.Sorted Sorting.Permutation.
Import ListNotations.

Set Warnings "-inexact-float".

(* ================================================================== *)
(** * Part I: the embedding                                            *)
(* ================================================================== *)

(** ** JavaScript numbers and the [Math] functions the engine calls *)

Module JS.

Definition number := float.

(** The Number of an integer (array length, loop counter, year): the
    nearest binary64 number, ties to even, which is the integer itself
    up to 2^53 in magnitude. *)
Definition of_Z (z : Z) : float := SF2Prim (binary_normalize prec emax z 0 false).

Definition of_nat (n : nat) : float := of_Z (Z.of_nat n).

(** [isFinite(v)] on a Number. *)
Definition isFinite (v : float) : bool := is_finite v.

(** The mathematical floor of a finite double, as an integer. *)
Definition floorZ (x : float) : option Z :=
  match Prim2SF x with
  | S754_zero _ => Some 0%Z
  | S754_finite s m e =>
      let v := if s then Z.neg m else Z.pos m in
      Some (if (0 <=? e)%Z then v * 2 ^ e else Z.shiftr v (- e))%Z
  | _ => None
  end.

(** [Math.floor]. *)
Definition Math_floor (x : float) : float :=
  match Prim2SF x with
  | S754_finite s m e =>
      if (0 <=? e)%Z then x
      else match floorZ x with
           | Some 0%Z => if s then neg_zero else zero
           | Some z => of_Z z
           | None => x
           end
  | _ => x
  end.

(** [Math.round]: the nearest integer, ties towards plus infinity;
    NaN, infinities, zeros and integers are returned unchanged. *)
Definition Math_round (x : float) : float :=
  match Prim2SF x with
  | S754_finite s m e =>
      if (0 <=? e)%Z then x
      else
        let v := if s then Z.neg m else Z.pos m in
        let k := (- e)%Z in
        let r := Z.shiftr (v + 2 ^ (k - 1)) k in
        if (r =? 0)%Z then (if s then neg_zero else zero) else of_Z r
  | _ => x
  end.

Definition Math_abs (x : float) : float := abs x.

(** [Math.sqrt]: the correctly rounded square root. *)
Definition Math_sqrt (x : float) : float := PrimFloat.sqrt x.

(** [Math.pow(x, 2)]: the correctly rounded square. *)
Definition Math_pow2 (x : float) : float := (x * x)%float.

(** [Math.min] of two Numbers. *)
Definition Math_min (a b : float) : float :=
  if is_nan a || is_nan b then nan
  else if (b <? a)%float then b
  else if (a <? b)%float then a
  else if get_sign a then a else b.

(** [Math.max] of two Numbers. *)
Definition Math_max (a b : float) : float :=
  if is_nan a || is_nan b then nan
  else if (a <? b)%float then b
  else if (b <? a)%float then a
  else if get_sign a then b else a.

(** The value [undefined] read from an array out of range takes part in
    arithmetic as NaN. *)
Definition undefined_num : float := nan.

(** [a[i]] for an array of Numbers. *)
Definition at_ (l : list float) (i : nat) : float := nth i l undefined_num.

(** [comparefn(x, y) > 0], the test that makes [sort] place [y] first;
    a NaN result counts as zero. *)
Definition gt0 (v : float) : bool := (0 <? v)%float.

(** [Array.prototype.sort(comparefn)], stable. *)
Fixpoint sort_insert {A} (cmp : A -> A -> float) (x : A) (l : list A) : list A :=
  match l with
  | [] => [x]
  | y :: l' => if gt0 (cmp x y) then y :: sort_insert cmp x l' else x :: l
  end.

Definition sort {A} (cmp : A -> A -> float) (l : list A) : list A :=
  fold_right (sort_insert cmp) [] l.

(** In-place update [a[i] = v] of an existing slot. *)
Fixpoint set_nth {A} (i : nat) (v : A) (l : list A) : list A :=
  match l, i with
  | [], _ => []
  | _ :: l', O => v :: l'
  | x :: l', S i' => x :: set_nth i' v l'
  end.

(** [lo, lo+1, ..., hi-1], the index range of a counting loop. *)
Definition range (lo hi : nat) : list nat := seq lo (hi - lo).

End JS.

(** ** The data model shared by the modules *)

(** A point of a time series: [{year, value}], the value possibly
    [null]. *)
Record TimePoint := mkPoint { year : Z; value : option float }.

Definition TimeSeries := list TimePoint.

(** [d.value !== null && isFinite(d.value)]. *)
Definition validValue (v : option float) : bool :=
  match v with
  | Some x => JS.isFinite x
  | None => false
  end.

(** An object keyed by year: its bindings in enumeration order. A year
    from 0 to 2^32 - 2 is an array index; [Object.values] and
    [Object.entries] list the array indices first, in ascending order,
    then the other keys in the order in which they were created. *)
Module Obj.

Definition isIndex (k : Z) : bool := (0 <=? k)%Z && (k <? 4294967295)%Z.

(** A key [k] that is created while [k'] is present is listed before
    it: an array index precedes a larger one and every other key. *)
Definition before (k k' : Z) : bool :=
  isIndex k && (negb (isIndex k') || (k <? k')%Z).

(** [o[k] = v]: an existing key keeps its place, a new one takes the
    place that the enumeration order gives it. *)
Fixpoint set {V} (k : Z) (v : V) (o : list (Z * V)) : list (Z * V) :=
  match o with
  | [] => [(k, v)]
  | (k', v') :: o' =>
      if (k =? k')%Z then (k, v) :: o'
      else if before k k' then (k, v) :: o
      else (k', v') :: set k v o'
  end.

Fixpoint get {V} (k : Z) (o : list (Z * V)) : option V :=
  match o with
  | [] => None
  | (k', v') :: o' => if (k =? k')%Z then Some v' else get k o'
  end.

(** [Object.values(o)] and [Object.entries(o)]. *)
Definition values {V} (o : list (Z * V)) : list V := map snd o.
Definition entries {V} (o : list (Z * V)) : list (Z * V) := o.

End Obj.

(** ** Engine module: statistics, forecaster, correlation, anomalies *)

Module Engine.
Import JS.

(** The finite values of a series:
    [series.map(d => d.value).filter(v => v !== null && isFinite(v))]. *)
Fixpoint finiteValues (series : TimeSeries) : list float :=
  match series with
  | [] => []
  | d :: rest =>
      match value d with
      | Some v => if isFinite v then v :: finiteValues rest else finiteValues rest
      | None => finiteValues rest
      end
  end.

(** The points with a finite value:
    [series.filter(d => d.value !== null && isFinite(d.value))]. *)
Definition validPoints (series : TimeSeries) : TimeSeries :=
  filter (fun d => validValue (value d)) series.

(** The value of a point known to carry one. *)
Definition num (d : TimePoint) : float :=
  match value d with Some v => v | None => undefined_num end.

(** [growth.map((v, i) => ({ year: i, value: v }))]. *)
Definition indexed (vs : list float) : TimeSeries :=
  map (fun p => mkPoint (Z.of_nat (fst p)) (Some (snd p)))
      (combine (seq 0 (length vs)) vs).

Record Stats := mkStats {
  mean : float; std : float; min : float; max : float;
  median : float; n : nat; variance : float
}.

Definition zeroStats : Stats := mkStats 0 0 0 0 0 0 0.

(** [reduce((a, b) => a + b, 0)]. *)
Definition sum (vs : list float) : float :=
  fold_left (fun a b => (a + b)%float) vs 0%float.

(** [PG.calcStats(series)]. *)
Definition calcStats (series : TimeSeries) : Stats :=
  match series with
  | [] => zeroStats
  | _ =>
      let vals := finiteValues series in
      let n := length vals in
      if n =? 0 then zeroStats
      else
        let mean := (sum vals / of_nat n)%float in
        let divisor := if 1 <? n then n - 1 else 1 in
        let variance :=
          (fold_left (fun a b => a + Math_pow2 (b - mean)) vals 0
           / of_nat divisor)%float in
        let std := Math_sqrt variance in
        let sorted := sort (fun a b => (a - b)%float) vals in
        let median :=
          if n mod 2 =? 0
          then ((at_ sorted (n / 2 - 1) + at_ sorted (n / 2)) / 2)%float
          else at_ sorted (n / 2) in
        mkStats mean std (at_ sorted 0) (at_ sorted (n - 1)) median n variance
  end.

(** The loop of [calcVolatility]: one growth figure per step whose
    prior value is not zero. *)
Fixpoint growthRates (vals : list float) : list float :=
  match vals with
  | prev :: ((cur :: _) as rest) =>
      if negb (prev =? 0)%float
      then ((cur - prev) / Math_abs prev * 100)%float :: growthRates rest
      else growthRates rest
  | _ => []
  end.

(** [PG.calcVolatility(series)]. *)
Definition calcVolatility (series : TimeSeries) : option float :=
  match series with
  | [] => None
  | _ =>
      let vals := finiteValues series in
      if length vals <? 2 then None
      else Some (std (calcStats (indexed (growthRates vals))))
  end.

(** *** Holt-Winters double exponential smoothing *)

Record HWOptions := mkHW { alpha : float; beta : float; horizon : nat; ci : float }.

Definition defaultHW : HWOptions := mkHW 0.3 0.1 5 95.

Record Accuracy := mkAccuracy { mape : float; rmse : float; acc_n : nat }.

Record Forecast := mkForecast {
  historical : TimeSeries;
  smoothed : list (Z * float);
  forecast : list (Z * float);
  upperCI : list (Z * float);
  lowerCI : list (Z * float);
  params : HWOptions;
  accuracy : Accuracy
}.

(** The smoothing loop: level, trend, and the arrays [smoothed] and
    [errors] in push order. *)
Record hwState := mkHWState {
  level : float; trend : float; hw_smoothed : list float; hw_errors : list float
}.

Definition hwStep (o : HWOptions) (st : hwState) (obs : float) : hwState :=
  let prevL := level st in
  let prevT := trend st in
  let level' := (alpha o * obs + (1 - alpha o) * (prevL + prevT))%float in
  let trend' := (beta o * (level' - prevL) + (1 - beta o) * prevT)%float in
  let fitted := (prevL + prevT)%float in
  mkHWState level' trend' (hw_smoothed st ++ [fitted]) (hw_errors st ++ [(obs - fitted)%float]).

(** [errors.filter((_, i) => data[i] !== 0)]: the index seen by the
    filter is the position in [errors]. *)
Definition mapeKept (errors data : list float) : list float :=
  map snd
      (filter (fun p => negb (at_ data (fst p) =? 0)%float)
              (combine (seq 0 (length errors)) errors)).

(** [.map((e, i) => Math.abs(e / data[i]) * 100)]: the index seen by
    the map is the position in the filtered array. *)
Definition mapeTerms (kept data : list float) : list float :=
  map (fun p => (Math_abs (snd p / at_ data (fst p)) * 100)%float)
      (combine (seq 0 (length kept)) kept).

(** The [mape] constant of [holtwinters], before [toFixed(2)]. *)
Definition mapeOf (errors data : list float) (n : nat) : float :=
  (sum (mapeTerms (mapeKept errors data) data) / of_nat n)%float.

(** The [rmse] constant, before [toFixed(4)]. *)
Definition rmseOf (errors : list float) (n : nat) : float :=
  Math_sqrt (sum (map (fun e => e * e)%float errors) / of_nat n).

(** [PG.holtwinters(series, options)]; the increment of the model
    counter and the DOM update that follow it are not part of the
    returned value. *)
Definition holtwinters (series : TimeSeries) (o : HWOptions) : option Forecast :=
  match series with
  | [] => None
  | _ =>
      let vals := validPoints series in
      let n := length vals in
      if n <? 3 then None
      else
        let data := map num vals in
        let st0 := mkHWState (at_ data 0) (at_ data 1 - at_ data 0)%float [] [] in
        let st := fold_left (hwStep o) data st0 in
        let lastYear := year (nth (n - 1) vals (mkPoint 0 None)) in
        let forecast :=
          map (fun h => ((lastYear + Z.of_nat h)%Z,
                         (level st + of_nat h * trend st)%float))
              (range 1 (S (horizon o))) in
        let s := calcStats (indexed (hw_errors st)) in
        let z := if (ci o =? 99)%float then 2.576%float
                 else if (ci o =? 90)%float then 1.645%float else 1.960%float in
        let se := (std s * Math_sqrt (1 + 0.1 * of_nat (horizon o)))%float in
        let upper := map (fun f => (fst f, (snd f + z * se)%float)) forecast in
        let lower := map (fun f => (fst f, (snd f - z * se)%float)) forecast in
        Some (mkForecast vals
                (map (fun p => (year (snd p), at_ (hw_smoothed st) (fst p)))
                     (combine (seq 0 n) vals))
                forecast upper lower o
                (mkAccuracy (mapeOf (hw_errors st) data n) (rmseOf (hw_errors st) n) n))
  end.

(** *** Pearson correlation *)

(** The [byYear] object of [pearson] after the pass over [a]: every
    point whose value is not [null] (re)creates the entry of its year. *)
Definition pearsonByYearA (a : TimeSeries) : list (Z * (float * option float)) :=
  fold_left
    (fun o d =>
       match value d with
       | Some v => Obj.set (year d) (v, None) o
       | None => o
       end)
    a [].

(** ... and after the pass over [b]: a value that is not [null] is
    recorded on the entry of its year, when there is one. *)
Definition pearsonByYear (a b : TimeSeries) : list (Z * (float * option float)) :=
  fold_left
    (fun o d =>
       match value d with
       | Some v =>
           match Obj.get (year d) o with
           | Some e => Obj.set (year d) (fst e, Some v) o
           | None => o
           end
       | None => o
       end)
    b (pearsonByYearA a).

(** [Object.values(byYear).filter(p => p.b !== undefined)]. *)
Fixpoint definedPairs (vs : list (float * option float)) : list (float * float) :=
  match vs with
  | [] => []
  | (x, Some y) :: rest => (x, y) :: definedPairs rest
  | (_, None) :: rest => definedPairs rest
  end.

Definition pearsonPairs (a b : TimeSeries) : list (float * float) :=
  definedPairs (Obj.values (pearsonByYear a b)).

(** The accumulators [num], [dx], [dy] of the summation loop. *)
Definition pearsonSums (xs ys : list float) (mx my : float) (n : nat)
  : float * float * float :=
  fold_left
    (fun acc i =>
       let '(num, dx, dy) := acc in
       let ex := (at_ xs i - mx)%float in
       let ey := (at_ ys i - my)%float in
       ((num + ex * ey)%float, (dx + ex * ex)%float, (dy + ey * ey)%float))
    (range 0 n) (0%float, 0%float, 0%float).

(** The correlation of the aligned pairs. *)
Definition pearsonOfPairs (pairs : list (float * float)) : option float :=
  if length pairs <? 3 then None
  else
    let xs := map fst pairs in
    let ys := map snd pairs in
    let n := length pairs in
    let mx := (sum xs / of_nat n)%float in
    let my := (sum ys / of_nat n)%float in
    let '(num, dx, dy) := pearsonSums xs ys mx my n in
    let denom := Math_sqrt (dx * dy) in
    Some (if (denom =? 0)%float then 0%float
          else (Math_round (num / denom * 1000) / 1000)%float).

(** [PG.pearson(a, b)]. *)
Definition pearson (a b : TimeSeries) : option float :=
  pearsonOfPairs (pearsonPairs a b).

(** *** Correlation matrix *)

Record Dataset := mkDataset { label : string; data : TimeSeries }.

Definition cmatrix := list (list (option float)).

Definition cell (M : cmatrix) (i j : nat) : option float :=
  nth j (nth i M []) None.

Definition setCell (M : cmatrix) (i j : nat) (v : option float) : cmatrix :=
  set_nth i (set_nth j v (nth i M [])) M.

Definition dataAt (datasets : list Dataset) (i : nat) : TimeSeries :=
  data (nth i datasets (mkDataset EmptyString [])).

Definition labelAt (labels : list string) (i : nat) : string :=
  nth i labels "undefined"%string.

(** The first pair of loops: the diagonal and both triangles. *)
Definition fillMatrix (datasets : list Dataset) : cmatrix :=
  let k := length datasets in
  fold_left
    (fun M i =>
       fold_left
         (fun M' j =>
            let r := pearson (dataAt datasets i) (dataAt datasets j) in
            setCell (setCell M' i j r) j i r)
         (range (S i) k) (setCell M i i (Some 1%float)))
    (range 0 k) (repeat (repeat None k) k).

Record Insight := mkInsight {
  first_label : string;
  second_label : string;
  strength : string;
  positive : bool;
  color : string;
  r : float
}.

(** The body of the insight loops for one cell above the diagonal. *)
Definition insightOf (labels : list string) (M : cmatrix) (i j : nat) : option Insight :=
  match cell M i j with
  | None => None
  | Some r =>
      let abs := Math_abs r in
      let sc :=
        if (0.85 <=? abs)%float then ("very strong", "#00D4FF")
        else if (0.65 <=? abs)%float then ("strong", "#67E8F9")
        else if (0.45 <=? abs)%float then ("moderate", "#A78BFA")
        else ("weak", "#6B7280") in
      if (0.45 <=? abs)%float
      then Some (mkInsight (labelAt labels i) (labelAt labels j) (fst sc)
                           (0 <? r)%float (snd sc) r)
      else None
  end%string.

(** [insights] as pushed by the loops, before sorting. *)
Definition rawInsights (labels : list string) (M : cmatrix) (k : nat) : list Insight :=
  fold_left
    (fun acc i =>
       fold_left
         (fun acc' j =>
            match insightOf labels M i j with
            | Some ins => acc' ++ [ins]
            | None => acc'
            end)
         (range (S i) k) acc)
    (range 0 k) [].

(** The comparison function of the insight sort. *)
Definition byAbsDesc (a b : Insight) : float :=
  (Math_abs (r b) - Math_abs (r a))%float.

Record MatrixResult := mkMatrixResult {
  labels : list string;
  cmat : cmatrix;
  insights : list Insight
}.

(** [PG.pearsonMatrix(datasets)]. *)
Definition pearsonMatrix (datasets : list Dataset) : MatrixResult :=
  let k := length datasets in
  let labels := map label datasets in
  let M := fillMatrix datasets in
  mkMatrixResult labels M (firstn 5 (sort byAbsDesc (rawInsights labels M k))).

(** *** Anomaly detection *)

Record AnomalyOptions := mkAnomalyOptions { method : string; threshold : float }.

Definition defaultAnomaly : AnomalyOptions := mkAnomalyOptions "both" 2.5.

Record Anomaly := mkAnomaly {
  point : TimePoint;
  z : float;               (* shown through [toFixed(2)] *)
  isZ : bool;
  isIQR : bool
}.

Record AnomalyStats := mkAnomalyStats {
  a_mean : float; a_std : float; q1 : float; q3 : float;
  iqr : float; iqrLow : float; iqrHigh : float
}.

Record AnomalyResult := mkAnomalyResult {
  anomalies : list Anomaly;
  normal : TimeSeries;
  stats : option AnomalyStats
}.

(** [sorted[Math.floor(x)]]. *)
Definition atFloor (sorted : list float) (x : float) : float :=
  match floorZ x with
  | Some i => if (0 <=? i)%Z then at_ sorted (Z.to_nat i) else undefined_num
  | None => undefined_num
  end.

(** The verdict on one point: its z-score and the two flags. *)
Definition zScore (mean std v : float) : float :=
  if (0 <? std)%float then Math_abs ((v - mean) / std) else 0%float.

Definition flagged (o : AnomalyOptions) (isZ isIQR : bool) : bool :=
  if (method o =? "zscore")%string then isZ
  else if (method o =? "iqr")%string then isIQR
  else isZ || isIQR.

(** [PG.detectAnomalies(series, options)]. *)
Definition detectAnomalies (series : TimeSeries) (o : AnomalyOptions) : AnomalyResult :=
  let vals := validPoints series in
  let n := length vals in
  if n <? 4 then mkAnomalyResult [] vals None
  else
    let numbers := map num vals in
    let s := calcStats vals in
    let sorted := sort (fun a b => (a - b)%float) numbers in
    let q1 := atFloor sorted (of_nat n * 0.25) in
    let q3 := atFloor sorted (of_nat n * 0.75) in
    let iqr := (q3 - q1)%float in
    let iqrLow := (q1 - 1.5 * iqr)%float in
    let iqrHigh := (q3 + 1.5 * iqr)%float in
    let verdict d :=
      let z := zScore (mean s) (std s) (num d) in
      let isZ := (threshold o <=? z)%float in
      let isIQR := (num d <? iqrLow)%float || (iqrHigh <? num d)%float in
      (z, isZ, isIQR) in
    let res :=
      fold_left
        (fun acc d =>
           let '(z, isZ, isIQR) := verdict d in
           if flagged o isZ isIQR
           then (fst acc ++ [mkAnomaly d z isZ isIQR], snd acc)
           else (fst acc, snd acc ++ [d]))
        vals ([], []) in
    mkAnomalyResult (fst res) (snd res)
      (Some (mkAnomalyStats (mean s) (std s) q1 q3 iqr iqrLow iqrHigh)).

(** *** Change between the first and the last valid point *)

Record Change := mkChange { change_abs : option float; change_pct : option float }.

(** [PG.calcChange(series)]: the fields [abs] and [pct]. *)
Definition calcChange (series : TimeSeries) : Change :=
  match series with
  | [] => mkChange None None
  | _ =>
      let vals := validPoints series in
      if length vals <? 2 then mkChange None None
      else
        let first := num (nth 0 vals (mkPoint 0 None)) in
        let last := num (nth (length vals - 1) vals (mkPoint 0 None)) in
        mkChange (Some (last - first)%float)
                 (if negb (first =? 0)%float
                  then Some ((last - first) / Math_abs first * 100)%float
                  else None)
  end.

End Engine.

(** ** Embeddable widgets: escaping of the generated code

    A string is the sequence of its bytes; the four characters that are
    replaced are ASCII, so a byte of a longer UTF-8 sequence is never
    one of them. *)

Module Embed.

(** [s.replace(/c/g, by)] for a pattern of one character. *)
Fixpoint replaceAll (c : ascii) (by_ : string) (s : string) : string :=
  match s with
  | EmptyString => EmptyString
  | String a rest =>
      if Ascii.eqb a c then by_ ++ replaceAll c by_ rest
      else String a (replaceAll c by_ rest)
  end.

(** The double quote character. *)
Definition dquote : ascii := Ascii.ascii_of_nat 34.

(** [escapeHtml(str)]: four replacements, one after the other. *)
Definition escapeHtml (str : string) : string :=
  replaceAll dquote "&quot;"
    (replaceAll ">" "&gt;"
       (replaceAll "<" "&lt;"
          (replaceAll "&" "&amp;" str))).

End Embed.

(** ** Causal-inference module: linear algebra kernel *)

Module Causal.
Import JS.

Definition matrix := list (list float).

Definition row (M : matrix) (i : nat) : list float := nth i M [].
Definition entry (M : matrix) (i j : nat) : float := at_ (row M i) j.

(** The partial-pivot search of one column: the first row at or below
    [col] whose entry in column [col] has the largest magnitude. *)
Definition pivotRow (M : matrix) (n col : nat) : nat :=
  fold_left
    (fun maxRow r =>
       if (Math_abs (entry M maxRow col) <? Math_abs (entry M r col))%float
       then r else maxRow)
    (range (S col) n) col.

(** [[M[col], M[maxRow]] = [M[maxRow], M[col]]]. *)
Definition swapRows (M : matrix) (i j : nat) : matrix :=
  let ri := row M i in
  let rj := row M j in
  set_nth j ri (set_nth i rj M).

(** The inner loop [for j = col..n: M[row][j] -= factor * M[col][j]]. *)
Definition eliminateRow (n col : nat) (factor : float) (pivot target : list float)
  : list float :=
  fold_left
    (fun t j => set_nth j (at_ t j - factor * at_ pivot j)%float t)
    (range col (S n)) target.

(** Elimination below the pivot of column [col]. *)
Definition eliminateBelow (M : matrix) (n col : nat) : matrix :=
  fold_left
    (fun M' r =>
       let factor := (entry M' r col / entry M' col col)%float in
       set_nth r (eliminateRow n col factor (row M' col) (row M' r)) M')
    (range (S col) n) M.

(** One iteration of the column loop; [None] is the [return null] taken
    when the pivot magnitude is below [1e-12]. *)
Definition eliminateColumn (n : nat) (M : matrix) (col : nat) : option matrix :=
  let M1 := swapRows M col (pivotRow M n col) in
  if (Math_abs (entry M1 col col) <? 1e-12)%float then None
  else Some (eliminateBelow M1 n col).

(** The column loop run over the columns [cols], stopping at the first
    singular pivot. *)
Fixpoint forward (n : nat) (cols : list nat) (M : matrix) : option matrix :=
  match cols with
  | [] => Some M
  | col :: rest =>
      match eliminateColumn n M col with
      | None => None
      | Some M' => forward n rest M'
      end
  end.

(** Back substitution, from the last row up; [x] holds the components
    already computed, [x[j]] being meaningful for [j > i]. *)
Definition backRow (M : matrix) (n : nat) (x : list float) (i : nat) : list float :=
  let xi0 := entry M i n in
  let xi1 :=
    fold_left (fun acc j => (acc - entry M i j * at_ x j)%float)
              (range (S i) n) xi0 in
  set_nth i (xi1 / entry M i i)%float x.

Definition backSubstitute (M : matrix) (n : nat) : list float :=
  fold_left (backRow M n) (rev (range 0 n)) (repeat undefined_num n).

(** [M = A.map((row, i) => [...row, b[i]])]. *)
Definition augment (A : matrix) (b : list float) : matrix :=
  map (fun p => snd p ++ [at_ b (fst p)]) (combine (seq 0 (length A)) A).

(** [solveLinearSystem(A, b)]. *)
Definition solveLinearSystem (A : matrix) (b : list float) : option (list float) :=
  let n := length A in
  match forward n (range 0 n) (augment A b) with
  | None => None
  | Some M => Some (backSubstitute M n)
  end.

(** *** Ordinary least squares through the normal equations *)

(** [M[i][j] = v] on a matrix. *)
Definition setEntry (M : matrix) (i j : nat) (v : float) : matrix :=
  set_nth i (set_nth j v (row M i)) M.

(** The Gram matrix [X'X]: the lower triangle is computed and mirrored. *)
Definition gram (X : matrix) (n k : nat) : matrix :=
  fold_left
    (fun G i =>
       fold_left
         (fun G' j =>
            let s := fold_left
                       (fun s t => (s + entry X t i * entry X t j)%float)
                       (range 0 n) 0%float in
            setEntry (setEntry G' i j s) j i s)
         (range 0 (S i)) G)
    (range 0 k) (repeat (repeat 0%float k) k).

(** The vector [X'y]. *)
Definition moment (X : matrix) (y : list float) (n k : nat) : list float :=
  fold_left
    (fun v i =>
       fold_left
         (fun v' t => set_nth i (at_ v' i + entry X t i * at_ y t)%float v')
         (range 0 n) v)
    (range 0 k) (repeat 0%float k).

(** [RSS = sum (y - X beta)^2]. *)
Definition rssOf (X : matrix) (y beta : list float) (n k : nat) : float :=
  fold_left
    (fun rss t =>
       let pred := fold_left
                     (fun p j => (p + entry X t j * at_ beta j)%float)
                     (range 0 k) 0%float in
       let residual := (at_ y t - pred)%float in
       (rss + residual * residual)%float)
    (range 0 n) 0%float.

(** [computeOLSResiduals(X, y)]: the residual sum of squares of the
    least-squares fit, [None] when there are too few rows or the normal
    equations are singular. *)
Definition computeOLSResiduals (X : matrix) (y : list float) : option float :=
  let n := length X in
  let k := length (row X 0) in
  if n <=? k then None
  else
    match solveLinearSystem (gram X n k) (moment X y n k) with
    | None => None
    | Some beta => Some (rssOf X y beta n k)
    end.

(** *** The p-value of an F statistic

    [Math.log] and [Math.exp] are approximated by the host as it sees
    fit, so they are parameters of what follows. *)

Section PValue.

Variable Math_log Math_exp : float -> float.

(** [lnGamma(z)], Lanczos approximation. *)
Definition lnGamma (z : float) : float :=
  let c := [76.18009172947146; -86.50532032941677; 24.01409824083091;
            -1.231739572450155; 1.208650973866179e-3; -5.395239384953e-6]%float in
  let x := z in
  let tmp0 := (x + 5.5)%float in
  let tmp := (tmp0 - (x + 0.5) * Math_log tmp0)%float in
  let ser :=
    fst (fold_left
           (fun sy cj =>
              let y' := (snd sy + 1)%float in
              ((fst sy + cj / y')%float, y'))
           c (1.000000000190015%float, z)) in
  (- tmp + Math_log (2.5066282746310005 * ser / x))%float.

(** [if (Math.abs(v) < 1e-30) v = 1e-30]. *)
Definition clamp (v : float) : float :=
  if (Math_abs v <? 1e-30)%float then 1e-30%float else v.

(** The state of Lentz's iteration: [c], [d] and [result]. *)
Record lentz := mkLentz { lc : float; ld : float; lresult : float }.

(** One pass of the loop body for the counter [m]; the boolean is the
    [break] test [Math.abs(delta - 1) < 1e-8]. *)
Definition lentzStep (a b x : float) (st : lentz) (m : nat) : lentz * bool :=
  let m := of_nat m in
  (* even step *)
  let numerator := (m * (b - m) * x / ((a + 2 * m - 1) * (a + 2 * m)))%float in
  let d := (1 / clamp (1 + numerator * ld st))%float in
  let c := clamp (1 + numerator / lc st)%float in
  let result := (lresult st * (d * c))%float in
  (* odd step *)
  let numerator := (- (a + m) * (a + b + m) * x / ((a + 2 * m) * (a + 2 * m + 1)))%float in
  let d := (1 / clamp (1 + numerator * d))%float in
  let c := clamp (1 + numerator / c)%float in
  let delta := (d * c)%float in
  let result := (result * delta)%float in
  (mkLentz c d result, (Math_abs (delta - 1) <? 1e-8)%float).

Fixpoint lentzLoop (a b x : float) (ms : list nat) (st : lentz) : lentz :=
  match ms with
  | [] => st
  | m :: ms' =>
      let '(st', stop) := lentzStep a b x st m in
      if stop then st' else lentzLoop a b x ms' st'
  end.

(** [betaIncomplete(a, b, x)]. *)
Definition betaIncomplete (a b x : float) : float :=
  if (x <? 0)%float || (1 <? x)%float then (if (x <? 0)%float then 0 else 1)%float
  else if (x =? 0)%float || (x =? 1)%float then x
  else
    let lbeta := (lnGamma a + lnGamma b - lnGamma (a + b))%float in
    let front := (Math_exp (Math_log x * a + Math_log (1 - x) * b - lbeta) / a)%float in
    let d := (1 / clamp (1 - (a + b) * x / (a + 1)))%float in
    let st := lentzLoop a b x (range 1 201) (mkLentz 1 d d) in
    (1 - front * lresult st)%float.

(** [fToPValue(f, d1, d2)]. *)
Definition fToPValue (f d1 d2 : float) : float :=
  if (f <=? 0)%float || (d1 <=? 0)%float || (d2 <=? 0)%float then 1%float
  else
    let x := (d2 / (d2 + d1 * f))%float in
    betaIncomplete (d2 / 2) (d1 / 2) x.

(** *** The Granger test *)

(** A year on which both series carry a finite value. *)
Record AlignedPoint := mkAligned { ayear : Z; ax : float; ay : float }.

(** The [byYear] object after the two [forEach] passes: [x] always set,
    [y] set when the effect series has a finite value on that year. *)
Definition byYearX (xSeries : TimeSeries) : list (Z * (float * option float)) :=
  fold_left
    (fun o d =>
       match value d with
       | Some v => if isFinite v then Obj.set (year d) (v, None) o else o
       | None => o
       end)
    xSeries [].

Definition byYearXY (xSeries ySeries : TimeSeries) : list (Z * (float * option float)) :=
  fold_left
    (fun o d =>
       match value d with
       | Some v =>
           if isFinite v then
             match Obj.get (year d) o with
             | Some e => Obj.set (year d) (fst e, Some v) o
             | None => o
             end
           else o
       | None => o
       end)
    ySeries (byYearX xSeries).

(** [aligned]: the entries with both fields, sorted by year. *)
Definition alignXY (xSeries ySeries : TimeSeries) : list AlignedPoint :=
  let es := filter (fun e => match snd (snd e) with Some _ => true | None => false end)
                   (Obj.entries (byYearXY xSeries ySeries)) in
  let sorted := sort (fun p q => (of_Z (fst p) - of_Z (fst q))%float) es in
  map (fun e => mkAligned (fst e) (fst (snd e))
                          (match snd (snd e) with Some y => y | None => undefined_num end))
      sorted.

(** One entry of [results]. *)
Record LagResult := mkLag {
  lag : nat;
  fStatistic : float;
  pValue : float;          (* rounded to four decimals *)
  significant : bool;      (* decided on the p-value before rounding *)
  rssRestricted : float;
  rssUnrestricted : float;
  observations : nat
}.

Definition alignedAt (aligned : list AlignedPoint) (i : nat) : AlignedPoint :=
  nth i aligned (mkAligned 0 undefined_num undefined_num).

(** The design matrices of lag [L]. *)
Definition restrictedRows (aligned : list AlignedPoint) (n L : nat) : matrix :=
  map (fun t => 1%float :: map (fun l => ay (alignedAt aligned (t - l))) (range 1 (S L)))
      (range L n).

Definition unrestrictedRows (aligned : list AlignedPoint) (n L : nat) : matrix :=
  map (fun t =>
         1%float :: map (fun l => ay (alignedAt aligned (t - l))) (range 1 (S L))
                 ++ map (fun l => ax (alignedAt aligned (t - l))) (range 1 (S L)))
      (range L n).

(** The p-value of lag [L] before rounding, given both residual sums. *)
Definition lagF (rssR rssU : float) (L : nat) (dfDen : Z) : float :=
  ((rssR - rssU) / of_nat L / (rssU / of_Z dfDen))%float.

Definition lagP (rssR rssU : float) (L : nat) (dfDen : Z) : float :=
  fToPValue (lagF rssR rssU L dfDen) (of_nat L) (of_Z dfDen).

(** The body of the lag loop: [None] stands for each [continue]. *)
Definition lagBody (aligned : list AlignedPoint) (n L : nat) : option LagResult :=
  let effectiveN := n - L in
  if effectiveN <? L * 2 + 2 then None
  else
    let yVals := map ay (skipn L aligned) in
    let rssR := computeOLSResiduals (restrictedRows aligned n L) yVals in
    let rssU := computeOLSResiduals (unrestrictedRows aligned n L) yVals in
    match rssR, rssU with
    | Some rssR, Some rssU =>
        if (rssU <=? 0)%float then None
        else
          let dfDen := (Z.of_nat effectiveN - 2 * Z.of_nat L - 1)%Z in
          if (dfDen <=? 0)%Z then None
          else
            let fStat := lagF rssR rssU L dfDen in
            let p := lagP rssR rssU L dfDen in
            Some (mkLag L
                        (Math_round (fStat * 1000) / 1000)%float
                        (Math_round (p * 10000) / 10000)%float
                        (p <? 0.05)%float
                        rssR rssU effectiveN)
    | _, _ => None
    end.

(** The lag loop: [results] after the lags [lags] were visited. *)
Definition lagLoop (aligned : list AlignedPoint) (n : nat) (lags : list nat)
  : list LagResult :=
  fold_left
    (fun results L =>
       match lagBody aligned n L with
       | Some r => results ++ [r]
       | None => results
       end)
    lags [].

(** [results.reduce((a, b) => a.pValue < b.pValue ? a : b)]. *)
Definition pickBest (first : LagResult) (others : list LagResult) : LagResult :=
  fold_left (fun a b => if (pValue a <? pValue b)%float then a else b) others first.

Record GrangerResult := mkGranger {
  results : list LagResult;
  bestLag : nat;
  bestF : float;
  bestP : float;
  causal : bool
}.

(** [PG.grangerTest(xSeries, ySeries, maxLag)]. *)
Definition grangerTest (xSeries ySeries : TimeSeries) (maxLag : nat)
  : option GrangerResult :=
  let aligned := alignXY xSeries ySeries in
  if length aligned <? maxLag * 3 + 2 then None
  else
    let n := length aligned in
    match lagLoop aligned n (range 1 (S maxLag)) with
    | [] => None
    | r0 :: rest =>
        let best := pickBest r0 rest in
        Some (mkGranger (r0 :: rest) (lag best) (fStatistic best) (pValue best)
                        (significant best))
    end.

(** *** The matrix of pairwise Granger tests *)

(** A dataset as [fetchMultiIndicator] builds it. *)
Record IndicatorDataset := mkIndicatorDataset {
  ds_indicator : string;
  ds_label : string;
  ds_data : TimeSeries
}.

(** [d.label || d.indicator]: an empty label is falsy. *)
Definition labelOf (d : IndicatorDataset) : string :=
  match ds_label d with
  | EmptyString => ds_indicator d
  | l => l
  end.

(** A cell of the matrix; the diagonal cell has no [lag] field. *)
Record CausalCell := mkCausalCell {
  cc_causal : bool;
  cc_pValue : float;
  cc_fStat : float;
  cc_lag : option nat
}.

Definition selfCell : CausalCell := mkCausalCell false 1 0 None.

Record CausalPair := mkCausalPair {
  cp_from : string;
  cp_to : string;
  cp_fStat : float;
  cp_pValue : float;
  cp_lag : nat
}.

Definition causalCells := list (list (option CausalCell)).

Definition causalCell (M : causalCells) (i j : nat) : option CausalCell :=
  nth j (nth i M []) None.

Definition setCausalCell (M : causalCells) (i j : nat) (v : option CausalCell)
  : causalCells :=
  set_nth i (set_nth j v (nth i M [])) M.

Definition causalDataAt (datasets : list IndicatorDataset) (i : nat) : TimeSeries :=
  ds_data (nth i datasets (mkIndicatorDataset EmptyString EmptyString [])).

Definition cellOfResult (g : GrangerResult) : CausalCell :=
  mkCausalCell (causal g) (bestP g) (bestF g) (Some (bestLag g)).

Definition pairOfResult (labels : list string) (i j : nat) (g : GrangerResult)
  : CausalPair :=
  mkCausalPair (nth i labels "undefined"%string) (nth j labels "undefined"%string)
               (bestF g) (bestP g) (bestLag g).

(** The body of the inner loop for the cell [(i, j)]. *)
Definition causalStep (datasets : list IndicatorDataset) (labels : list string)
  (maxLag i : nat) (st : causalCells * list CausalPair) (j : nat)
  : causalCells * list CausalPair :=
  if i =? j then st
  else
    match grangerTest (causalDataAt datasets i) (causalDataAt datasets j) maxLag with
    | Some result =>
        (setCausalCell (fst st) i j (Some (cellOfResult result)),
         if causal result then snd st ++ [pairOfResult labels i j result] else snd st)
    | None => st
    end.

(** The two loops: [matrix] and [causalPairs] in push order. *)
Definition causalFill (datasets : list IndicatorDataset) (labels : list string)
  (maxLag : nat) : causalCells * list CausalPair :=
  let k := length datasets in
  fold_left
    (fun st i =>
       fold_left (causalStep datasets labels maxLag i) (range 0 k)
                 (setCausalCell (fst st) i i (Some selfCell), snd st))
    (range 0 k) (repeat (repeat None k) k, []).

(** An insight: the parts of its text, its colour and its flag. *)
Record CausalInsight := mkCausalInsight {
  ci_pair : CausalPair;
  ci_color : string;
  ci_significant : bool
}.

Definition insightOfPair (p : CausalPair) : CausalInsight :=
  mkCausalInsight p
    (if (cp_pValue p <? 0.01)%float then "#00D4FF"
     else if (cp_pValue p <? 0.05)%float then "#A78BFA" else "#F59E0B")%string
    true.

Record CausalMatrix := mkCausalMatrix {
  cm_labels : list string;
  cm_matrix : causalCells;
  causalPairs : list CausalPair;
  cm_insights : list CausalInsight
}.

(** [PG.causalMatrix(datasets, maxLag)]. [sort] works in place, so the
    [causalPairs] that are returned are the sorted ones. *)
Definition causalMatrix (datasets : list IndicatorDataset) (maxLag : nat)
  : CausalMatrix :=
  let labels := map labelOf datasets in
  let filled := causalFill datasets labels maxLag in
  let sorted := sort (fun a b => (cp_pValue a - cp_pValue b)%float) (snd filled) in
  mkCausalMatrix labels (fst filled) sorted (map insightOfPair (firstn 8 sorted)).

End PValue.

End Causal.

(** ** Pipeline module: linear interpolation of the gaps *)

Module Pipeline.
Import JS.

Definition pointAt (arr : TimeSeries) (i : nat) : TimePoint :=
  nth i arr (mkPoint 0 None).

(** [arr[j].value !== null]. *)
Definition hasValue (arr : TimeSeries) (j : nat) : bool :=
  match value (pointAt arr j) with
  | Some _ => true
  | None => false
  end.

(** The backward search [for (j = i - 1; j >= 0; j--)]. *)
Definition findPrev (arr : TimeSeries) (i : nat) : option nat :=
  find (hasValue arr) (rev (range 0 i)).

(** The forward search [for (j = i + 1; j < n; j++)]. *)
Definition findNext (arr : TimeSeries) (n i : nat) : option nat :=
  find (hasValue arr) (range (S i) n).

(** [arr[i].value = v]. *)
Definition setValue (arr : TimeSeries) (i : nat) (v : float) : TimeSeries :=
  set_nth i (mkPoint (year (pointAt arr i)) (Some v)) arr.

Definition yearOf (arr : TimeSeries) (i : nat) : float := of_Z (year (pointAt arr i)).
Definition valueOf (arr : TimeSeries) (i : nat) : float := Engine.num (pointAt arr i).

(** The body of the loop for the index [i]; the searches run over the
    array as updated so far. *)
Definition interpolateStep (n : nat) (arr : TimeSeries) (i : nat) : TimeSeries :=
  match value (pointAt arr i) with
  | Some _ => arr
  | None =>
      match findPrev arr i, findNext arr n i with
      | Some prev, Some next =>
          let span := (yearOf arr next - yearOf arr prev)%float in
          let diff := (valueOf arr next - valueOf arr prev)%float in
          setValue arr i
            (valueOf arr prev + diff * ((yearOf arr i - yearOf arr prev) / span))%float
      | Some prev, None => setValue arr i (valueOf arr prev)
      | None, Some next => setValue arr i (valueOf arr next)
      | None, None => arr
      end
  end.

(** [PG.interpolate(series)]. *)
Definition interpolate (series : TimeSeries) : TimeSeries :=
  let n := length series in
  fold_left (interpolateStep n) (range 0 n) series.

End Pipeline.

(** ** Recession predictor: the composite risk scorer *)

Module Recession.
Import JS.

(** A leading indicator: its World Bank code, display name, weight and
    signal function [(value, prior value or null) -> signal]. *)
Record Indicator := mkIndicator {
  code : string;
  name : string;
  weight : float;
  signal : float -> option float -> float
}.

Definition RECESSION_INDICATORS : list Indicator :=
  [ mkIndicator "NY.GDP.MKTP.KD.ZG" "GDP Growth" 0.30
      (fun v _ => if (v <? 0)%float then 1 else if (v <? 1)%float then 0.5 else 0)%float;
    mkIndicator "SL.UEM.TOTL.ZS" "Unemployment" 0.20
      (fun v prev =>
         match prev with
         | None => 0
         | Some prev =>
             let delta := v - prev in
             if (2 <? delta) then 1 else if (0.5 <? delta) then 0.6
             else if (0 <? delta) then 0.3 else 0
         end)%float;
    mkIndicator "FP.CPI.TOTL.ZG" "Inflation" 0.15
      (fun v _ => if (15 <? v) then 1 else if (10 <? v) then 0.7
                  else if (5 <? v) then 0.3 else if (v <? 0) then 0.5 else 0)%float;
    mkIndicator "NE.EXP.GNFS.ZS" "Exports (% GDP)" 0.15
      (fun v prev =>
         match prev with
         | None => 0
         | Some prev =>
             let delta := v - prev in
             if (delta <? -5) then 0.8 else if (delta <? -2) then 0.4 else 0
         end)%float;
    mkIndicator "BX.KLT.DINV.WD.GD.ZS" "FDI Inflows" 0.10
      (fun v prev =>
         match prev with
         | None => 0
         | Some prev =>
             let delta := v - prev in
             if (delta <? -2) then 0.8 else if (delta <? -0.5) then 0.4 else 0
         end)%float;
    mkIndicator "GC.DOD.TOTL.GD.ZS" "Govt Debt (% GDP)" 0.10
      (fun v _ => if (100 <? v) then 0.8 else if (80 <? v) then 0.5
                  else if (60 <? v) then 0.2 else 0)%float ]%string.

(** The values of one year, keyed by indicator code. *)
Definition YearValues := list (string * float).

Fixpoint setCode (c : string) (v : float) (o : YearValues) : YearValues :=
  match o with
  | [] => [(c, v)]
  | (c', v') :: o' => if (c =? c')%string then (c, v) :: o' else (c', v') :: setCode c v o'
  end.

Fixpoint getCode (c : string) (o : YearValues) : option float :=
  match o with
  | [] => None
  | (c', v') :: o' => if (c =? c')%string then Some v' else getCode c o'
  end.

(** [yearData] after the fetched series were merged: every finite value
    is filed under its year and the code of its indicator. *)
Definition mergeSeries (yearData : list (Z * YearValues)) (ind : Indicator)
  (data : TimeSeries) : list (Z * YearValues) :=
  fold_left
    (fun yd d =>
       match value d with
       | Some v =>
           if isFinite v then
             let cur := match Obj.get (year d) yd with Some o => o | None => [] end in
             Obj.set (year d) (setCode (code ind) v cur) yd
           else yd
       | None => yd
       end)
    data yearData.

Definition buildYearData (fetched : list TimeSeries) : list (Z * YearValues) :=
  fold_left (fun yd p => mergeSeries yd (fst p) (snd p))
            (combine RECESSION_INDICATORS fetched) [].

(** [prevYearData ? (prevYearData[ind.code] || null) : null]: a missing
    entry and a falsy Number (zero or NaN) both end up as [null]. *)
Definition prevValue (prevYearData : option YearValues) (c : string) : option float :=
  match prevYearData with
  | None => None
  | Some prev =>
      match getCode c prev with
      | None => None
      | Some v => if (v =? 0)%float || is_nan v then None else Some v
      end
  end.

Record SignalRow := mkSignalRow {
  s_name : string;
  s_value : float;
  s_signal : float;
  s_weight : float;
  contribution : float;
  status : string
}.

(** The accumulators of the inner [forEach]. *)
Record acc := mkAcc { totalWeight : float; compositeSignal : float; signals : list SignalRow }.

Definition indicatorStep (yd : YearValues) (prevYearData : option YearValues)
  (a : acc) (ind : Indicator) : acc :=
  match getCode (code ind) yd with
  | None => a
  | Some val =>
      let prevVal := prevValue prevYearData (code ind) in
      let sig := signal ind val prevVal in
      mkAcc (totalWeight a + weight ind)%float
            (compositeSignal a + sig * weight ind)%float
            (signals a ++
             [mkSignalRow (name ind) val sig (weight ind) (sig * weight ind)%float
                (if (0.7 <=? sig)%float then "danger"
                 else if (0.3 <=? sig)%float then "warning" else "safe")%string])
  end.

Definition accumulate (yd : YearValues) (prevYearData : option YearValues) : acc :=
  fold_left (indicatorStep yd prevYearData) RECESSION_INDICATORS (mkAcc 0 0 []).

(** The [probability] constant of one year. *)
Definition probabilityOf (a : acc) : float :=
  if (0 <? totalWeight a)%float
  then Math_min 1 (compositeSignal a / totalWeight a)%float
  else 0%float.

Definition riskLevelOf (probability : float) : string :=
  (if (0.6 <=? probability)%float then "high"
   else if (0.35 <=? probability)%float then "elevated"
   else if (0.15 <=? probability)%float then "moderate"
   else "low")%string.

(** One entry of the timeline; the stored [probability] is the
    percentage [Math.round(probability * 100)]. *)
Record YearEntry := mkYearEntry {
  y_year : Z;
  y_probability : float;
  y_signals : list SignalRow;
  riskLevel : string
}.

Definition yearEntry (yr : Z) (yd : YearValues) (prevYearData : option YearValues)
  : YearEntry :=
  let a := accumulate yd prevYearData in
  let probability := probabilityOf a in
  mkYearEntry yr (Math_round (probability * 100)) (signals a) (riskLevelOf probability).

(** The [years.forEach] loop; [prevYearData] is the data of the year
    visited just before. *)
Fixpoint timelineFrom (prevYearData : option YearValues) (years : list Z)
  (yearData : list (Z * YearValues)) : list YearEntry :=
  match years with
  | [] => []
  | yr :: rest =>
      let yd := match Obj.get yr yearData with Some o => o | None => [] end in
      yearEntry yr yd prevYearData :: timelineFrom (Some yd) rest yearData
  end.

Definition sortedYears (yearData : list (Z * YearValues)) : list Z :=
  sort (fun a b => (of_Z a - of_Z b)%float) (map fst yearData).

Record Assessment := mkAssessment {
  latestYear : Z;
  probability : float;
  a_riskLevel : string;
  a_signals : list SignalRow;
  alert : option string;
  timeline : list YearEntry;
  trend : float;
  projected12m : float
}.

Definition entryAt (t : list YearEntry) (i : nat) : YearEntry :=
  nth i t (mkYearEntry 0 undefined_num [] "undefined").

(** [PG.predictRecession] once the six series were fetched; [None] is
    the [Insufficient data] answer. *)
Definition predictRecession (fetched : list TimeSeries) : option Assessment :=
  let yearData := buildYearData fetched in
  let years := sortedYears yearData in
  if length years <? 3 then None
  else
    let timeline := timelineFrom None years yearData in
    let len := length timeline in
    let latest := entryAt timeline (len - 1) in
    let trend :=
      if 3 <=? len
      then (y_probability (entryAt timeline (len - 1))
            - y_probability (entryAt timeline (len - 3)))%float
      else 0%float in
    let alert :=
      if (60 <=? y_probability latest)%float then Some "critical"%string
      else if (35 <=? y_probability latest)%float then Some "warning"%string
      else if (15 <? trend)%float then Some "watch"%string
      else None in
    let recentTrend :=
      if 5 <=? len
      then ((y_probability (entryAt timeline (len - 1))
             - y_probability (entryAt timeline (len - 5))) / 5)%float
      else 0%float in
    let projected :=
      Math_max 0 (Math_min 100 (Math_round (y_probability latest + recentTrend))) in
    Some (mkAssessment (y_year latest) (y_probability latest) (riskLevel latest)
                       (y_signals latest) alert timeline trend projected).

End Recession.

(** ** Server: the in-memory cache with expiry

    The time read from [Date.now()] is an argument of each operation;
    times and lifetimes are whole numbers of milliseconds. *)

Module ServerCache.

(** An entry [{ value, expires }]. *)
Record Entry (V : Type) := mkEntry { e_value : V; expires : Z }.

Arguments mkEntry {V} _ _.
Arguments e_value {V} _.
Arguments expires {V} _.

(** The [Map] behind the cache: its bindings in insertion order. *)
Definition Store (V : Type) := list (string * Entry V).

(** [Map.prototype.get]. *)
Fixpoint mapGet {V} (key : string) (st : Store V) : option (Entry V) :=
  match st with
  | [] => None
  | (k, e) :: rest => if (key =? k)%string then Some e else mapGet key rest
  end.

(** [Map.prototype.set]: an existing key keeps its place. *)
Fixpoint mapSet {V} (key : string) (e : Entry V) (st : Store V) : Store V :=
  match st with
  | [] => [(key, e)]
  | (k, e') :: rest =>
      if (key =? k)%string then (k, e) :: rest else (k, e') :: mapSet key e rest
  end.

(** [Map.prototype.delete]. *)
Fixpoint mapDelete {V} (key : string) (st : Store V) : Store V :=
  match st with
  | [] => []
  | (k, e) :: rest =>
      if (key =? k)%string then rest else (k, e) :: mapDelete key rest
  end.

(** [get(key)] at the time [now]: the answer ([None] for [null]) and
    the store it leaves. *)
Definition get {V} (now : Z) (key : string) (st : Store V) : option V * Store V :=
  match mapGet key st with
  | None => (None, st)
  | Some entry =>
      if (expires entry <? now)%Z then (None, mapDelete key st)
      else (Some (e_value entry), st)
  end.

(** [_evict()] at the time [now]. *)
Definition evict {V} (now : Z) (st : Store V) : Store V :=
  filter (fun b => negb (expires (snd b) <? now)%Z) st.

(** [set(key, value, ttlMs)]: the clock is read at [now] for the expiry
    and again at [later] if the eviction runs. *)
Definition set {V} (now later : Z) (key : string) (value : V) (ttlMs : Z)
  (st : Store V) : Store V :=
  let st' := mapSet key (mkEntry value (now + ttlMs)%Z) st in
  if length st' mod 100 =? 0 then evict later st' else st'.

(** The default lifetime: one hour. *)
Definition defaultTtl : Z := 3600000.

(** [size()]. *)
Definition size {V} (st : Store V) : nat := length st.

End ServerCache.

(** ** Reference definitions, written from the specification's words *)

Module Spec.
Import JS.

(** Standard deviation as section 4.1 words it: non-finite values are
    filtered out; the variance has the sample denominator [n - 1] when
    [n > 1] and falls back to 1 otherwise; an empty input gives 0. *)
Definition sampleStd (vs : list float) : float :=
  let fs := filter isFinite vs in
  let n := length fs in
  match fs with
  | [] => 0%float
  | _ =>
      let mean := (fold_left (fun a b => a + b) fs 0 / of_nat n)%float in
      let sq := fold_left (fun a b => a + (b - mean) * (b - mean))%float fs 0%float in
      Math_sqrt (sq / of_nat (if 1 <? n then n - 1 else 1))
  end.

(** MAPE as section 4.3 words it: the mean of [|residual / actual| * 100]
    over the fitted-versus-actual pairs whose actual is not zero. *)
Definition mape (errors data : list float) : float :=
  let kept := filter (fun p => negb (snd p =? 0)%float) (combine errors data) in
  (fold_left (fun a p => a + Math_abs (fst p / snd p) * 100) kept 0
   / of_nat (length kept))%float.

End Spec.

(** ** Notions the properties are stated with *)

(** *** The order of binary64 numbers, through integer keys

    A number that is not NaN is keyed by a triple of integers whose
    lexicographic order is the order of the numbers. *)

Module FloatKey.

Definition key (f : spec_float) : Z * Z * Z :=
  match f with
  | S754_zero _ => (0, 0, 0)
  | S754_infinity true => (-2, 0, 0)
  | S754_infinity false => (2, 0, 0)
  | S754_nan => (0, 0, 0)
  | S754_finite true m e => (-1, - e, Z.neg m)
  | S754_finite false m e => (1, e, Z.pos m)
  end%Z.

Definition lexLt (a b : Z * Z * Z) : Prop :=
  let '(a1, a2, a3) := a in
  let '(b1, b2, b3) := b in
  (a1 < b1 \/ (a1 = b1 /\ (a2 < b2 \/ (a2 = b2 /\ a3 < b3))))%Z.

Definition isNaN (f : spec_float) : Prop := f = S754_nan.

Definition positiveSF (f : spec_float) : bool :=
  match f with
  | S754_finite false _ _ | S754_infinity false => true
  | _ => false
  end.

Definition negativeSF (f : spec_float) : bool :=
  match f with
  | S754_finite true _ _ | S754_infinity true => true
  | _ => false
  end.

(** The weight of the round bit after [k] shifts to the right. *)
Definition half (k : nat) : Z :=
  match k with
  | O => 0
  | S j => 2 ^ Z.of_nat j
  end%Z.

(** What a shift record stands for after [k] shifts of [m0]: the
    quotient, the round bit and the sticky bit. *)
Definition shifted (m0 : Z) (k : nat) (s : shr_record) : Prop :=
  (0 <= shr_m s /\
   exists low,
     m0 = shr_m s * 2 ^ Z.of_nat k + (if shr_r s then half k else 0) + low /\
     0 <= low /\ (low < half k \/ low = 0) /\ (shr_s s = true <-> 0 < low) /\
     (k = O -> shr_r s = false))%Z.

(** A number from 2^-511 up to, not including, 2^512: its square
    neither underflows nor overflows. *)
Definition midRange (d : float) : bool :=
  (0x1p-511 <=? d)%float && (d <? 0x1p512)%float.

End FloatKey.

(** *** Sorting *)

(** The comparison function [cmp] decides the strict order [after] on
    the elements of [l] ([after x y]: [x] belongs after [y]). *)
Definition consistentOn {A : Type} (cmp : A -> A -> float) (after : A -> A -> bool)
  (l : list A) : Prop :=
  (forall x y, In x l -> In y l -> JS.gt0 (cmp x y) = after x y) /\
  (forall x y, In x l -> In y l -> after x y = true -> after y x = false) /\
  (forall x y z, In x l -> In y l -> In z l ->
                 after x y = false -> after y z = false -> after x z = false).

(** *** Objects keyed by year, and the two alignment passes

    [pearson] and [grangerTest] align their arguments with the same two
    passes over an object keyed by year; they differ in the values they
    keep ([keep]): every value that is not [null] for the former, the
    finite ones for the latter. *)

(** The keys of an object are in strictly increasing order. *)
Definition keysSorted {V : Type} (o : list (Z * V)) : Prop :=
  StronglySorted Z.lt (map fst o).

(** [k] is enumerated before [k']: they differ, and when [k'] is an
    array index [k] is a smaller one. *)
Definition keyPrecedes (k k' : Z) : Prop :=
  k <> k' /\ (Obj.isIndex k' = true -> Obj.isIndex k = true /\ (k < k')%Z).

(** The keys of an object are distinct and in enumeration order. *)
Definition keysOrdered {V : Type} (o : list (Z * V)) : Prop :=
  StronglySorted keyPrecedes (map fst o).

(** Every year of a series is an array index. *)
Definition indexYears (s : TimeSeries) : Prop :=
  forall d, In d s -> Obj.isIndex (year d) = true.

(** The last kept value filed under year [k]. *)
Definition lastKept (keep : float -> bool) (k : Z) (s : TimeSeries) : option float :=
  fold_left
    (fun acc d =>
       match value d with
       | Some v => if keep v then (if (year d =? k)%Z then Some v else acc) else acc
       | None => acc
       end)
    s None.

Definition firstPass (keep : float -> bool) (a : TimeSeries)
  : list (Z * (float * option float)) :=
  fold_left
    (fun o d =>
       match value d with
       | Some v => if keep v then Obj.set (year d) (v, None) o else o
       | None => o
       end)
    a [].

Definition secondPass (keep : float -> bool)
  (o0 : list (Z * (float * option float))) (b : TimeSeries)
  : list (Z * (float * option float)) :=
  fold_left
    (fun o d =>
       match value d with
       | Some v =>
           if keep v then
             match Obj.get (year d) o with
             | Some e => Obj.set (year d) (fst e, Some v) o
             | None => o
             end
           else o
       | None => o
       end)
    b o0.

(** [pearson] keeps every value that is not [null]. *)
Definition notNull (v : float) : bool := true.

(** The sum of squared deviations from the mean, as the loop of
    [pearson] accumulates it. *)
Definition squaredDeviations (xs : list float) : float :=
  let m := (Engine.sum xs / JS.of_nat (length xs))%float in
  fold_left (fun acc i => (acc + (JS.at_ xs i - m) * (JS.at_ xs i - m))%float)
            (JS.range 0 (length xs)) 0%float.

(** *** The correlation matrix while it is being filled *)

(** A [k] by [k] array of arrays. *)
Definition dims (k : nat) (M : Engine.cmatrix) : Prop :=
  length M = k /\ forall a, a < k -> length (nth a M []) = k.

(** The correlation filed for the cells [(a, b)] and [(b, a)]: that of
    the dataset of lower index with the dataset of higher index. *)
Definition pairR (datasets : list Engine.Dataset) (a b : nat) : option float :=
  Engine.pearson (Engine.dataAt datasets (Nat.min a b))
                 (Engine.dataAt datasets (Nat.max a b)).

(** The content of cell [(a, b)] when the outer loop is at row [i] and
    the inner loop is about to visit column [j]. *)
Definition fillState (datasets : list Engine.Dataset) (i j a b : nat) : option float :=
  if a =? b
  then (if (a <? i) || ((a =? i) && (i <? j)) then Some 1%float else None)
  else if (Nat.min a b <? i) || ((Nat.min a b =? i) && (Nat.max a b <? j))
       then pairR datasets a b else None.

Definition filled (datasets : list Engine.Dataset) (k i j : nat) (M : Engine.cmatrix)
  : Prop :=
  dims k M /\
  forall a b, a < k -> b < k -> Engine.cell M a b = fillState datasets i j a b.

(** *** Regressions *)

(** A regression is singular when the elimination kernel fails on its
    normal equations. *)
Definition singular (X : Causal.matrix) (y : list float) : Prop :=
  Causal.solveLinearSystem
    (Causal.gram X (length X) (length (Causal.row X 0)))
    (Causal.moment X y (length X) (length (Causal.row X 0))) = None.

(** *** The verdict of the anomaly detector on one point

    Read off the summary [stats] that the detector returns. *)

Definition zOf (st : Engine.AnomalyStats) (d : TimePoint) : float :=
  Engine.zScore (Engine.a_mean st) (Engine.a_std st) (Engine.num d).

Definition isZOf (o : Engine.AnomalyOptions) (st : Engine.AnomalyStats) (d : TimePoint)
  : bool :=
  (Engine.threshold o <=? zOf st d)%float.

Definition isIQROf (st : Engine.AnomalyStats) (d : TimePoint) : bool :=
  (Engine.num d <? Engine.iqrLow st)%float || (Engine.iqrHigh st <? Engine.num d)%float.

Definition flagOf (o : Engine.AnomalyOptions) (st : Engine.AnomalyStats) (d : TimePoint)
  : bool :=
  Engine.flagged o (isZOf o st d) (isIQROf st d).

Definition anomalyOf (o : Engine.AnomalyOptions) (st : Engine.AnomalyStats)
  (d : TimePoint) : Engine.Anomaly :=
  Engine.mkAnomaly d (zOf st d) (isZOf o st d) (isIQROf st d).

(** *** The aligned entries of two series

    The entries of a [byYear] object that carry both values, with their
    year. *)

Fixpoint definedEntries (o : list (Z * (float * option float)))
  : list (Z * (float * float)) :=
  match o with
  | [] => []
  | (k, (x, Some y)) :: rest => (k, (x, y)) :: definedEntries rest
  | (_, (_, None)) :: rest => definedEntries rest
  end.

(** The two components of a pair, exchanged. *)
Definition swap {A B} (p : A * B) : B * A := (snd p, fst p).

(** *** Square arrays of arrays *)

Definition square {A : Type} (k : nat) (M : list (list A)) : Prop :=
  length M = k /\ forall a, a < k -> length (nth a M []) = k.

(** The entry [(i, j)] of [X'X]: the sum over the rows of the products
    of the columns [i] and [j], accumulated from the first row on. *)
Definition columnProduct (X : Causal.matrix) (n i j : nat) : float :=
  fold_left (fun s t => (s + Causal.entry X t i * Causal.entry X t j)%float)
            (JS.range 0 n) 0%float.

(** The content of the cell [(a, b)] of [X'X] when the outer loop is at
    row [i] and the inner loop is about to visit column [j]. *)
Definition gramState (X : Causal.matrix) (n i j a b : nat) : float :=
  if (Nat.max a b <? i) || ((Nat.max a b =? i) && (Nat.min a b <? j))
  then columnProduct X n (Nat.max a b) (Nat.min a b) else 0%float.

Definition gramInv (X : Causal.matrix) (n k i j : nat) (G : Causal.matrix) : Prop :=
  square k G /\ forall a b, a < k -> b < k -> Causal.entry G a b = gramState X n i j a b.

(** *** The matrix of Granger tests while it is being filled *)

Section CausalNotions.

Variable Math_log Math_exp : float -> float.

(** The test of the dataset of index [i] as cause of the dataset of
    index [j]. *)
Definition pairTest (datasets : list Causal.IndicatorDataset) (maxLag i j : nat)
  : option Causal.GrangerResult :=
  Causal.grangerTest Math_log Math_exp
    (Causal.causalDataAt datasets i) (Causal.causalDataAt datasets j) maxLag.

(** The cell [(a, b)] once both loops are over. *)
Definition finalCell (datasets : list Causal.IndicatorDataset) (maxLag a b : nat)
  : option Causal.CausalCell :=
  if a =? b then Some Causal.selfCell
  else option_map Causal.cellOfResult (pairTest datasets maxLag a b).

(** The cell [(a, b)] when the outer loop, at row [i], has filed the
    diagonal cell of that row and the inner loop is about to visit
    column [j]. *)
Definition causalState (datasets : list Causal.IndicatorDataset) (maxLag i j a b : nat)
  : option Causal.CausalCell :=
  if (a <? i) || ((a =? i) && ((b =? i) || (b <? j)))
  then finalCell datasets maxLag a b else None.

(** The pair pushed for the cell [(a, b)], if any. *)
Definition pushedFor (datasets : list Causal.IndicatorDataset) (labels : list string)
  (maxLag a b : nat) (p : Causal.CausalPair) : Prop :=
  a <> b /\
  exists g, pairTest datasets maxLag a b = Some g /\ Causal.causal g = true /\
            p = Causal.pairOfResult labels a b g.

Definition causalInv (datasets : list Causal.IndicatorDataset) (labels : list string)
  (maxLag k i j : nat) (st : Causal.causalCells * list Causal.CausalPair) : Prop :=
  square k (fst st) /\
  (forall a b, a < k -> b < k ->
               Causal.causalCell (fst st) a b = causalState datasets maxLag i j a b) /\
  (forall p, In p (snd st)
             <-> exists a b, a < k /\ b < k /\ (a < i \/ (a = i /\ b < j)) /\
                             pushedFor datasets labels maxLag a b p).

End CausalNotions.

(** *** Escaping, one character at a time *)

(** What the four replacements make of one character. *)
Definition escapeChar (c : ascii) : string :=
  if Ascii.eqb c "&" then "&amp;"
  else if Ascii.eqb c "<" then "&lt;"
  else if Ascii.eqb c ">" then "&gt;"
  else if Ascii.eqb c Embed.dquote then "&quot;"
  else String c EmptyString.

Fixpoint escapeEach (s : string) : string :=
  match s with
  | EmptyString => EmptyString
  | String c rest => escapeChar c ++ escapeEach rest
  end.

(** A decoder for the four entities. *)
Fixpoint unescapeHtml (s : string) : string :=
  match s with
  | EmptyString => EmptyString
  | String "&" (String "a" (String "m" (String "p" (String ";" rest)))) =>
      String "&" (unescapeHtml rest)
  | String "&" (String "l" (String "t" (String ";" rest))) =>
      String "<" (unescapeHtml rest)
  | String "&" (String "g" (String "t" (String ";" rest))) =>
      String ">" (unescapeHtml rest)
  | String "&" (String "q" (String "u" (String "o" (String "t" (String ";" rest))))) =>
      String Embed.dquote (unescapeHtml rest)
  | String c rest => String c (unescapeHtml rest)
  end.

(** The four characters that are escaped. *)
Definition special (c : ascii) : bool :=
  Ascii.eqb c "&" || Ascii.eqb c "<" || Ascii.eqb c ">" || Ascii.eqb c Embed.dquote.

(** *** The scores a year can reach

    Each signal function takes its values in a short list; a year is
    scored from the indicators present and the signal of each. *)

Definition signalLevels : list (list float) :=
  [ [1; 0.5; 0]; [0; 1; 0.6; 0.3]; [1; 0.7; 0.3; 0.5; 0];
    [0; 0.8; 0.4]; [0; 0.8; 0.4]; [0.8; 0.5; 0.2; 0] ]%float.

(** All the ways to pick one element in each list. *)
Fixpoint product {A : Type} (ls : list (list A)) : list (list A) :=
  match ls with
  | [] => [[]]
  | l :: rest => flat_map (fun x => map (cons x) (product rest)) l
  end.

(** For each indicator: absent, or present with one of its signals. *)
Definition signalChoices : list (list (option float)) :=
  product (map (fun l => None :: map Some l) signalLevels).

(** The signal of an indicator on the values of a year, if present. *)
Definition choiceOf (yd : Recession.YearValues) (prev : option Recession.YearValues)
  (ind : Recession.Indicator) : option float :=
  option_map (fun v => Recession.signal ind v (Recession.prevValue prev (Recession.code ind)))
             (Recession.getCode (Recession.code ind) yd).

(** The accumulated weight and composite signal, from the signals. *)
Definition scoreFrom (init : float * float) (ch : list (option float * Recession.Indicator))
  : float * float :=
  fold_left
    (fun a p =>
       match fst p with
       | None => a
       | Some s => ((fst a + Recession.weight (snd p))%float,
                    (snd a + s * Recession.weight (snd p))%float)
       end)
    ch init.

Definition probabilityFrom (tc : float * float) : float :=
  if (0 <? fst tc)%float then JS.Math_min 1 (snd tc / fst tc)%float else 0%float.

(** The risk level agrees with a percentage, up to the rounding of the
    percentage. *)
Definition levelAgrees (n : nat) (lvl : string) : bool :=
  if (lvl =? "high")%string then 60 <=? n
  else if (lvl =? "elevated")%string then (35 <=? n) && (n <=? 60)
  else if (lvl =? "moderate")%string then (15 <=? n) && (n <=? 35)
  else (lvl =? "low")%string && (n <=? 15).

(** A whole number of percent, between 0 and 100. *)
Definition percentOf (x : float) : option nat :=
  match JS.floorZ x with
  | Some z =>
      if (0 <=? z)%Z && (z <=? 100)%Z && PrimFloat.Leibniz.eqb x (JS.of_nat (Z.to_nat z))
      then Some (Z.to_nat z) else None
  | None => None
  end.

Definition isPercent (x : float) : bool :=
  match percentOf x with Some _ => true | None => false end.

(** A percentage and a level that agree. *)
Definition percentRow (pct : float) (lvl : string) : bool :=
  match percentOf pct with
  | Some n => levelAgrees n lvl
  | None => false
  end.

(** The projection from the latest percentage and the trend on the
    last five entries. *)
Definition projectionOf (latest recentTrend : float) : float :=
  JS.Math_max 0 (JS.Math_min 100 (JS.Math_round (latest + recentTrend))).

(** *** Points that carry a value *)

Definition carries (d : TimePoint) : bool :=
  match value d with
  | Some _ => true
  | None => false
  end.

(** No two points that carry a value share their year. *)
Definition oneValuePerYear (s : TimeSeries) : Prop :=
  NoDup (map year (filter carries s)).

(** ** A host for [Math.log] and [Math.exp]

    Used to run the Granger test on examples: argument reduction and a
    series, accurate to a few units in the last place. *)

Module Host.

Definition ln2 : float := 0.6931471805599453.

Definition exp (x : float) : float :=
  if is_nan x then nan
  else if (709.782712893384 <? x)%float then infinity
  else if (x <? -745.1332191019412)%float then 0%float
  else
    let k := JS.Math_round (x / ln2) in
    let r := (x - k * 0.693147180369123816490 - k * 1.90821492927058770002e-10)%float in
    let series :=
      fold_right (fun i acc => (1 + r / JS.of_nat i * acc)%float) 1%float (seq 1 22) in
    match JS.floorZ k with
    | Some e => Z.ldexp series e
    | None => series
    end.

Definition log (x : float) : float :=
  if is_nan x || (x <? 0)%float then nan
  else if (x =? 0)%float then neg_infinity
  else if (x =? infinity)%float then infinity
  else
    let '(m, e) := Z.frexp x in
    let '(m, e) := if (m <? 0.7071067811865476)%float
                   then ((2 * m)%float, (e - 1)%Z) else (m, e) in
    let t := ((m - 1) / (m + 1))%float in
    let t2 := (t * t)%float in
    let series :=
      fold_right (fun i acc => (1 / JS.of_nat (2 * i + 1) + t2 * acc)%float)
                 0%float (seq 0 20) in
    (JS.of_Z e * ln2 + 2 * t * series)%float.

End Host.

(** ** Sample inputs *)

(** A series from its years and values. *)
Definition series (l : list (Z * float)) : TimeSeries :=
  map (fun p => mkPoint (fst p) (Some (snd p))) l.

(** The six-point series of the anomaly example, on any years. *)
Definition sixPoints (y0 y1 y2 y3 y4 y5 : Z) : TimeSeries :=
  [ mkPoint y0 (Some 10%float); mkPoint y1 (Some 10%float);
    mkPoint y2 (Some 10%float); mkPoint y3 (Some 10%float);
    mkPoint y4 (Some 10%float); mkPoint y5 (Some 100%float) ].

(** Three equal values. *)
Definition constantSeries : TimeSeries :=
  series [(2000%Z, 5); (2001%Z, 5); (2002%Z, 5)]%float.

(** Three values on a rising curve. *)
Definition risingSeries : TimeSeries :=
  series [(2000%Z, 1); (2001%Z, 2); (2002%Z, 4)]%float.

(** Three finite values whose squared deviations overflow. *)
Definition hugeSeries : TimeSeries :=
  series [(2000%Z, 1e200); (2001%Z, 2e200); (2002%Z, 3e200)]%float.

(** Two valid points, hence a single growth figure. *)
Definition twoPoints : TimeSeries :=
  series [(2000%Z, 1); (2001%Z, 2)]%float.

(** The fetched series of the six indicators when only FDI inflows
    (the fifth) has data: [v0] in 2000, -3 in 2001 and 1 in 2002. *)
Definition fdiOnly (v0 : float) : list TimeSeries :=
  [ []; []; []; [];
    [ mkPoint 2000 (Some v0); mkPoint 2001 (Some (-3)%float); mkPoint 2002 (Some 1%float) ];
    [] ].

(** The risk level of each year of the timeline. *)
Definition riskLevels (fetched : list TimeSeries) : list (Z * float * string) :=
  match Recession.predictRecession fetched with
  | Some a =>
      map (fun e => (Recession.y_year e, Recession.y_probability e, Recession.riskLevel e))
          (Recession.timeline a)
  | None => []
  end.

(** Fourteen years of a driver [X] and of a series [Y] that follows it
    with a lag of one year. *)
Definition driverX : TimeSeries :=
  series [(2000%Z, 1); (2001%Z, 3); (2002%Z, 2); (2003%Z, 5); (2004%Z, 4); (2005%Z, 6); (2006%Z, 2);
          (2007%Z, 7); (2008%Z, 1); (2009%Z, 3); (2010%Z, 8); (2011%Z, 2); (2012%Z, 5); (2013%Z, 9)]%float.

Definition followerY : TimeSeries :=
  series [(2000%Z, 2); (2001%Z, 0.9); (2002%Z, 2.3); (2003%Z, 1.7); (2004%Z, 4.1); (2005%Z, 3.1);
          (2006%Z, 4.9); (2007%Z, 1.5); (2008%Z, 5.7); (2009%Z, 0.7); (2010%Z, 2.5); (2011%Z, 6.3);
          (2012%Z, 1.7); (2013%Z, 4.1)]%float.

(** Three labelled datasets for the correlation matrix. *)
Definition sampleDatasets : list Engine.Dataset :=
  [ Engine.mkDataset "driver" driverX;
    Engine.mkDataset "follower" followerY;
    Engine.mkDataset "rising" risingSeries ].

(** Twelve years of a driver [X] and of a series [Y] that swings
    between -5.4e153 and 6e153. *)
Definition steadyX : TimeSeries :=
  series [(2000%Z, 5); (2001%Z, 7); (2002%Z, 7); (2003%Z, 8); (2004%Z, 13); (2005%Z, 8);
          (2006%Z, 13); (2007%Z, 14); (2008%Z, 14); (2009%Z, 16); (2010%Z, 6); (2011%Z, 4)]%float.

Definition hugeWaveY : TimeSeries :=
  series [(2000%Z, 0); (2001%Z, 3.6e153); (2002%Z, 6e153); (2003%Z, 5.4e153);
          (2004%Z, 2.4e153); (2005%Z, -1.8e153); (2006%Z, -4.8e153); (2007%Z, -5.4e153);
          (2008%Z, -3e153); (2009%Z, 1.2e153); (2010%Z, 4.8e153); (2011%Z, 6e153)]%float.

(** A known value followed by two gaps. *)
Definition trailingGaps : TimeSeries :=
  [ mkPoint 2000 (Some 7%float); mkPoint 2001 None; mkPoint 2002 None ].

(* ================================================================== *)
(** * Part II: properties                                              *)
(* ================================================================== *)

(** ** The order of binary64 numbers

    The comparisons of primitive floats are specified on [spec_float];
    a key into triples of integers, ordered lexicographically, turns
    them into integer arithmetic. *)

Module FloatOrder.
Import FloatKey.

Lemma SFltb_key (f g : spec_float) :
  ~ isNaN f -> ~ isNaN g -> (SFltb f g = true <-> lexLt (key f) (key g)).
Proof.
  unfold isNaN, SFltb, lexLt.
  destruct f as [sf | sf | | sf mf ef], g as [sg | sg | | sg mg eg];
    intros Hf Hg; try congruence;
    repeat match goal with s : bool |- _ => destruct s end;
    cbn [SFcompare key]; try (split; [ discriminate | lia ]);
    try (split; [ lia | reflexivity ]).
  - (* both negative *)
    change (PosDef.Pos.compare_cont Eq mf mg) with (Pos.compare mf mg).
    destruct (Z.compare_spec ef eg) as [He | He | He].
    + subst. destruct (Pos.compare_spec mf mg) as [Hm | Hm | Hm]; cbn [CompOpp];
        split; try discriminate; try reflexivity; lia.
    + split; [ discriminate | lia ].
    + split; [ lia | reflexivity ].
  - (* both positive *)
    change (PosDef.Pos.compare_cont Eq mf mg) with (Pos.compare mf mg).
    destruct (Z.compare_spec ef eg) as [He | He | He].
    + subst. destruct (Pos.compare_spec mf mg) as [Hm | Hm | Hm];
        split; try discriminate; try reflexivity; lia.
    + split; [ lia | reflexivity ].
    + split; [ discriminate | lia ].
Qed.

Lemma SFltb_nan_l (g : spec_float) : SFltb S754_nan g = false.
Proof. reflexivity. Qed.

Lemma SFltb_nan_r (f : spec_float) : SFltb f S754_nan = false.
Proof. destruct f as [ | | | ? ? ?]; reflexivity. Qed.

Lemma SFleb_nan_l (g : spec_float) : SFleb S754_nan g = false.
Proof. reflexivity. Qed.

Lemma SFleb_nan_r (f : spec_float) : SFleb f S754_nan = false.
Proof. destruct f as [ | | | ? ? ?]; reflexivity. Qed.

Lemma SFeqb_refl (f : spec_float) : ~ isNaN f -> SFeqb f f = true.
Proof.
  unfold isNaN, SFeqb. destruct f as [s | s | | s m e]; intros H; try congruence;
    destruct s; cbn [SFcompare]; try reflexivity;
    rewrite Z.compare_refl, Pos.compare_cont_refl; reflexivity.
Qed.

Lemma is_nan_spec (x : float) : is_nan x = true <-> isNaN (Prim2SF x).
Proof.
  unfold is_nan, isNaN. rewrite FloatAxioms.eqb_spec. split.
  - intros H. destruct (Prim2SF x) as [s | s | | s m e] eqn:E; try reflexivity;
      exfalso; rewrite SFeqb_refl in H by (unfold isNaN; congruence); discriminate.
  - intros ->. reflexivity.
Qed.

Lemma not_nan_spec (x : float) : is_nan x = false <-> ~ isNaN (Prim2SF x).
Proof.
  rewrite <- is_nan_spec. destruct (is_nan x); split; congruence.
Qed.

(** A true comparison has no NaN operand. *)
Lemma ltb_not_nan (x y : float) :
  (x <? y)%float = true -> is_nan x = false /\ is_nan y = false.
Proof.
  rewrite FloatAxioms.ltb_spec, !not_nan_spec. unfold isNaN. intros H. split; intros E;
    rewrite E in H; [ rewrite SFltb_nan_l in H | rewrite SFltb_nan_r in H ];
    discriminate.
Qed.

Lemma leb_not_nan (x y : float) :
  (x <=? y)%float = true -> is_nan x = false /\ is_nan y = false.
Proof.
  rewrite FloatAxioms.leb_spec, !not_nan_spec. unfold isNaN. intros H. split; intros E;
    rewrite E in H; [ rewrite SFleb_nan_l in H | rewrite SFleb_nan_r in H ];
    discriminate.
Qed.

Lemma ltb_key (x y : float) :
  is_nan x = false -> is_nan y = false ->
  ((x <? y)%float = true <-> lexLt (key (Prim2SF x)) (key (Prim2SF y))).
Proof.
  intros Hx Hy. rewrite FloatAxioms.ltb_spec. apply SFltb_key; now apply not_nan_spec.
Qed.

Lemma ltb_false_key (x y : float) :
  is_nan x = false -> is_nan y = false ->
  ((x <? y)%float = false <-> ~ lexLt (key (Prim2SF x)) (key (Prim2SF y))).
Proof.
  intros Hx Hy. rewrite <- (ltb_key x y Hx Hy).
  destruct (x <? y)%float; split; congruence.
Qed.

Lemma SFleb_key (f g : spec_float) :
  ~ isNaN f -> ~ isNaN g -> (SFleb f g = true <-> ~ lexLt (key g) (key f)).
Proof.
  unfold isNaN, SFleb, lexLt.
  destruct f as [sf | sf | | sf mf ef], g as [sg | sg | | sg mg eg];
    intros Hf Hg; try congruence;
    repeat match goal with s : bool |- _ => destruct s end;
    cbn [SFcompare key]; try (split; [ discriminate | lia ]);
    try (split; [ lia | reflexivity ]).
  - change (PosDef.Pos.compare_cont Eq mf mg) with (Pos.compare mf mg).
    destruct (Z.compare_spec ef eg) as [He | He | He].
    + subst. destruct (Pos.compare_spec mf mg) as [Hm | Hm | Hm]; cbn [CompOpp];
        split; try discriminate; try reflexivity; lia.
    + split; [ discriminate | lia ].
    + split; [ lia | reflexivity ].
  - change (PosDef.Pos.compare_cont Eq mf mg) with (Pos.compare mf mg).
    destruct (Z.compare_spec ef eg) as [He | He | He].
    + subst. destruct (Pos.compare_spec mf mg) as [Hm | Hm | Hm];
        split; try discriminate; try reflexivity; lia.
    + split; [ lia | reflexivity ].
    + split; [ discriminate | lia ].
Qed.

(** Of two numbers that are not NaN, one is below the other or they
    are in the opposite order. *)
Lemma ltb_false_leb (x y : float) :
  is_nan x = false -> is_nan y = false ->
  (x <? y)%float = false -> (y <=? x)%float = true.
Proof.
  intros Hx Hy H. apply (ltb_false_key x y Hx Hy) in H.
  rewrite FloatAxioms.leb_spec. apply SFleb_key; [ | | exact H ]; now apply not_nan_spec.
Qed.

Lemma ltb_irrefl (x : float) : (x <? x)%float = false.
Proof.
  destruct (x <? x)%float eqn:E; [ | reflexivity ].
  destruct (ltb_not_nan _ _ E) as [Hx _].
  apply (ltb_key x x Hx Hx) in E. unfold lexLt in E.
  destruct (key (Prim2SF x)) as [[a b] c]. lia.
Qed.

Lemma ltb_asym (x y : float) : (x <? y)%float = true -> (y <? x)%float = false.
Proof.
  intros H. destruct (ltb_not_nan _ _ H) as [Hx Hy].
  apply (ltb_key x y Hx Hy) in H. apply (ltb_false_key y x Hy Hx).
  unfold lexLt in *.
  destruct (key (Prim2SF x)) as [[a b] c], (key (Prim2SF y)) as [[a' b'] c']. lia.
Qed.

(** On numbers that are not NaN, "not less than" is transitive. *)
Lemma ltb_false_trans (x y z : float) :
  is_nan x = false -> is_nan y = false -> is_nan z = false ->
  (x <? y)%float = false -> (y <? z)%float = false -> (x <? z)%float = false.
Proof.
  intros Hx Hy Hz Hxy Hyz.
  apply (ltb_false_key x y Hx Hy) in Hxy. apply (ltb_false_key y z Hy Hz) in Hyz.
  apply (ltb_false_key x z Hx Hz). unfold lexLt in *.
  destruct (key (Prim2SF x)) as [[a b] c], (key (Prim2SF y)) as [[a' b'] c'],
    (key (Prim2SF z)) as [[a'' b''] c'']. lia.
Qed.

(** *** The sign of a difference

    The comparison functions of the engine's sorts are differences
    ([a - b], [|b.r| - |a.r|]); their sign is read off the rounding
    functions that specify binary64 subtraction. *)

Local Open Scope Z_scope.

Lemma digits2_pos_bounds (m : positive) :
  2 ^ (Z.pos (digits2_pos m) - 1) <= Z.pos m < 2 ^ Z.pos (digits2_pos m).
Proof.
  induction m as [m IH | m IH | ]; cbn [digits2_pos].
  - rewrite Pos2Z.inj_succ.
    replace (Z.succ (Z.pos (digits2_pos m)) - 1) with (Z.succ (Z.pos (digits2_pos m) - 1)) by lia.
    rewrite !Z.pow_succ_r by lia. lia.
  - rewrite Pos2Z.inj_succ.
    replace (Z.succ (Z.pos (digits2_pos m)) - 1) with (Z.succ (Z.pos (digits2_pos m) - 1)) by lia.
    rewrite !Z.pow_succ_r by lia. lia.
  - cbn. lia.
Qed.

Lemma shr_1_digits (s : shr_record) :
  Zdigits2 (shr_m (shr_1 s)) = Z.max 0 (Zdigits2 (shr_m s) - 1).
Proof.
  destruct s as [m r t]. destruct m as [ | p | p]; try destruct p;
    cbn [shr_1 shr_m Zdigits2 digits2_pos]; lia.
Qed.

Lemma shr_1_nonneg (s : shr_record) : 0 <= shr_m s -> 0 <= shr_m (shr_1 s).
Proof.
  destruct s as [m r t]. destruct m as [ | p | p]; try destruct p;
    cbn [shr_1 shr_m]; lia.
Qed.

Lemma iter_shr_digits (p : positive) (s : shr_record) :
  Zdigits2 (shr_m (SpecFloat.iter_pos shr_1 p s)) = Z.max 0 (Zdigits2 (shr_m s) - Z.pos p) /\
  (0 <= shr_m s -> 0 <= shr_m (SpecFloat.iter_pos shr_1 p s)).
Proof.
  revert s. induction p as [p IH | p IH | ]; intros s; cbn [SpecFloat.iter_pos].
  - destruct (IH (shr_1 s)) as [H1 H1'].
    destruct (IH (SpecFloat.iter_pos shr_1 p (shr_1 s))) as [H2 H2'].
    rewrite H2, H1, shr_1_digits. split; [ lia | ].
    intros H. apply H2', H1', shr_1_nonneg, H.
  - destruct (IH s) as [H1 H1'].
    destruct (IH (SpecFloat.iter_pos shr_1 p s)) as [H2 H2'].
    rewrite H2, H1. split; [ lia | ]. intros H. apply H2', H1', H.
  - split; [ rewrite shr_1_digits; lia | apply shr_1_nonneg ].
Qed.

Lemma digits_pos_pos (z : Z) : 0 <= z -> 0 < Zdigits2 z -> 0 < z.
Proof. destruct z; cbn [Zdigits2]; lia. Qed.

Lemma Zdigits2_pos (z : Z) : 0 < z -> 0 < Zdigits2 z.
Proof. destruct z; cbn [Zdigits2]; lia. Qed.


(** shr_fexp of a positive mantissa at an exponent not below emin keeps it positive. *)
Lemma shr_fexp_pos (m e : Z) (l : location) :
  0 < m -> emin <= e ->
  0 < shr_m (fst (shr_fexp prec emax m e l)) /\ emin <= snd (shr_fexp prec emax m e l).
Proof.
  intros Hm He. unfold shr_fexp, shr.
  assert (Hrec : shr_m (shr_record_of_loc m l) = m)
    by (destruct l as [ | []]; reflexivity).
  destruct (fexp prec emax (Zdigits2 m + e) - e) as [ | n | n] eqn:En; cbn [fst snd].
  - rewrite Hrec. auto.
  - destruct (iter_shr_digits n (shr_record_of_loc m l)) as [Hd Hn].
    rewrite Hrec in Hd, Hn.
    pose proof (Zdigits2_pos m Hm) as HD.
    unfold fexp in En.
    split; [ | lia ].
    apply digits_pos_pos; [ apply Hn; lia | ]. rewrite Hd.
    pose proof (eq_refl : prec = 53) as Hp. lia.
  - rewrite Hrec. auto.
Qed.

Lemma round_nearest_even_pos (m : Z) (l : location) : 0 < m -> 0 < round_nearest_even m l.
Proof.
  intros H. destruct l as [ | []]; cbn [round_nearest_even]; try lia.
  destruct (Z.even m); lia.
Qed.

Lemma binary_round_aux_sign (sx : bool) (m e : Z) (l : location) :
  0 < m -> emin <= e ->
  (if sx then negativeSF else positiveSF) (binary_round_aux prec emax sx m e l) = true.
Proof.
  intros Hm He. unfold binary_round_aux.
  pose proof (shr_fexp_pos m e l Hm He) as [H1 H1'].
  destruct (shr_fexp prec emax m e l) as [mrs' e']. cbn [fst snd] in H1, H1'.
  pose proof (shr_fexp_pos _ e' loc_Exact
                (round_nearest_even_pos _ (loc_of_shr_record mrs') H1) H1') as [H2 _].
  destruct (shr_fexp prec emax _ e' loc_Exact) as [mrs'' e'']. cbn [fst] in H2.
  destruct (shr_m mrs'') as [ | p | p]; try lia.
  destruct (e'' <=? emax - prec); destruct sx; reflexivity.
Qed.

Lemma binary_round_sign (sx : bool) (m : positive) (e : Z) :
  emin <= e ->
  (if sx then negativeSF else positiveSF) (binary_round prec emax sx m e) = true.
Proof.
  intros He. unfold binary_round, shl_align.
  assert (Hf : emin <= fexp prec emax (Z.pos (digits2_pos m) + e))
    by (unfold fexp; lia).
  destruct (fexp prec emax (Z.pos (digits2_pos m) + e) - e) as [ | d | d] eqn:Ed;
    apply binary_round_aux_sign; lia.
Qed.

Lemma binary_normalize_positive (d e : Z) (sz : bool) :
  emin <= e -> positiveSF (binary_normalize prec emax d e sz) = (0 <? d).
Proof.
  intros He. destruct d as [ | p | p]; cbn [binary_normalize].
  - reflexivity.
  - apply (binary_round_sign false p e He).
  - pose proof (binary_round_sign true p e He) as H. cbn beta iota in H.
    destruct (binary_round prec emax true p e) as [ | [] | | [] ? ?]; cbn in *; congruence.
Qed.

Lemma iter_xO_value (m d : positive) :
  Z.pos (Pos.iter xO m d) = Z.pos m * 2 ^ Z.pos d.
Proof.
  induction d as [ | d IH] using Pos.peano_ind.
  - cbn. lia.
  - rewrite Pos.iter_succ, Pos2Z.inj_succ, Z.pow_succ_r by lia.
    rewrite Pos2Z.inj_xO, IH. lia.
Qed.

Lemma shl_align_value (m : positive) (e e' : Z) :
  e' <= e -> Z.pos (fst (shl_align m e e')) = Z.pos m * 2 ^ (e - e').
Proof.
  intros H. unfold shl_align.
  destruct (e' - e) as [ | d | d] eqn:E; cbn [fst]; try lia.
  - replace (e - e') with 0 by lia. lia.
  - rewrite iter_xO_value. replace (e - e') with (Z.pos d) by lia. reflexivity.
Qed.

Lemma bounded_inv (m : positive) (e : Z) :
  bounded prec emax m e = true ->
  emin <= e /\ Z.pos (digits2_pos m) <= prec /\ (emin < e -> Z.pos (digits2_pos m) = prec).
Proof.
  unfold bounded, canonical_mantissa, fexp. intros H.
  apply andb_prop in H. destruct H as [H _]. apply Z.eqb_eq in H. lia.
Qed.

(** The order of canonical magnitudes is the lexicographic order of
    exponent and mantissa. *)
Lemma canonical_lt (mx my : positive) (ex ey : Z) :
  bounded prec emax mx ex = true -> bounded prec emax my ey = true ->
  let ez := Z.min ex ey in
  (Z.pos my * 2 ^ (ey - ez) < Z.pos mx * 2 ^ (ex - ez)
   <-> (ey < ex \/ (ey = ex /\ Z.pos my < Z.pos mx))).
Proof.
  intros Hx Hy ez.
  destruct (bounded_inv _ _ Hx) as (Hex & Hdx & Hnx).
  destruct (bounded_inv _ _ Hy) as (Hey & Hdy & Hny).
  pose proof (digits2_pos_bounds mx) as Bx. pose proof (digits2_pos_bounds my) as By.
  pose proof (eq_refl : prec = 53) as Hp.
  assert (P52 : 2 ^ 52 * 2 = 2 ^ 53) by reflexivity.
  destruct (Z.lt_trichotomy ey ex) as [Hlt | [Heq | Hgt]].
  - subst ez. rewrite Z.min_r by lia. replace (ey - ey) with 0 by lia.
    rewrite Z.pow_0_r.
    assert (Hd : Z.pos (digits2_pos mx) = 53) by lia.
    assert (H2 : 2 ^ 1 <= 2 ^ (ex - ey)) by (apply Z.pow_le_mono_r; lia).
    assert (H3 : 2 ^ Z.pos (digits2_pos my) <= 2 ^ 53) by (apply Z.pow_le_mono_r; lia).
    rewrite Hd in Bx. change (53 - 1) with 52 in Bx. change (2 ^ 1) with 2 in H2.
    split; [ intros _; left; exact Hlt | intros _ ]. nia.
  - subst ey ez. rewrite Z.min_id. replace (ex - ex) with 0 by lia.
    rewrite Z.pow_0_r. lia.
  - subst ez. rewrite Z.min_l by lia. replace (ex - ex) with 0 by lia.
    rewrite Z.pow_0_r.
    assert (Hd : Z.pos (digits2_pos my) = 53) by lia.
    assert (H2 : 2 ^ 1 <= 2 ^ (ey - ex)) by (apply Z.pow_le_mono_r; lia).
    assert (H3 : 2 ^ Z.pos (digits2_pos mx) <= 2 ^ 53) by (apply Z.pow_le_mono_r; lia).
    rewrite Hd in By. change (53 - 1) with 52 in By. change (2 ^ 1) with 2 in H2.
    split; [ intros H; exfalso; nia | intros [H | [H _]]; lia ].
Qed.

Lemma SFltb_zero_positive (f : spec_float) :
  SFltb (S754_zero false) f = positiveSF f.
Proof. destruct f as [ [] | [] | | [] ? ?]; reflexivity. Qed.

(** The sign of a difference: [g - f] is positive exactly when [f < g]. *)
Lemma SFsub_positive (f g : spec_float) :
  valid_binary f = true -> valid_binary g = true ->
  positiveSF (SF64sub g f) = SFltb f g.
Proof.
  intros Vf Vg.
  destruct g as [sg | sg | | sg mg eg], f as [sf | sf | | sf mf ef];
    try (repeat match goal with s : bool |- _ => destruct s end; reflexivity).
  cbn [valid_binary] in Vf, Vg.
  unfold SF64sub, SFsub.
  destruct (bounded_inv _ _ Vf) as (Hef & _). destruct (bounded_inv _ _ Vg) as (Heg & _).
  rewrite binary_normalize_positive by lia.
  rewrite !shl_align_value by lia.
  pose proof (canonical_lt mg mf eg ef Vg Vf) as Hlt. cbn zeta in Hlt.
  pose proof (canonical_lt mf mg ef eg Vf Vg) as Hgt. cbn zeta in Hgt.
  rewrite (Z.min_comm ef eg) in Hgt.
  assert (Pg : 0 < Z.pos mg * 2 ^ (eg - Z.min eg ef)) by (apply Z.mul_pos_pos; [ lia | apply Z.pow_pos_nonneg; lia ]).
  assert (Pf : 0 < Z.pos mf * 2 ^ (ef - Z.min eg ef)) by (apply Z.mul_pos_pos; [ lia | apply Z.pow_pos_nonneg; lia ]).
  unfold SFltb, SFcompare.
  change (PosDef.Pos.compare_cont Eq mf mg) with (Pos.compare mf mg).
  destruct sg, sf; cbn [cond_Zopp].
  - (* both negative *)
    destruct (Z.ltb_spec 0 (- (Z.pos mg * 2 ^ (eg - Z.min eg ef)) - - (Z.pos mf * 2 ^ (ef - Z.min eg ef)))) as [H | H];
      destruct (Z.compare_spec ef eg) as [He | He | He]; try reflexivity; try (exfalso; lia);
      destruct (Pos.compare_spec mf mg) as [Hm | Hm | Hm]; cbn [CompOpp]; try reflexivity; exfalso; lia.
  - destruct (Z.ltb_spec 0 (- (Z.pos mg * 2 ^ (eg - Z.min eg ef)) - Z.pos mf * 2 ^ (ef - Z.min eg ef))) as [H | H];
      [ exfalso; lia | reflexivity ].
  - destruct (Z.ltb_spec 0 (Z.pos mg * 2 ^ (eg - Z.min eg ef) - - (Z.pos mf * 2 ^ (ef - Z.min eg ef)))) as [H | H];
      [ reflexivity | exfalso; lia ].
  - destruct (Z.ltb_spec 0 (Z.pos mg * 2 ^ (eg - Z.min eg ef) - Z.pos mf * 2 ^ (ef - Z.min eg ef))) as [H | H];
      destruct (Z.compare_spec ef eg) as [He | He | He]; try reflexivity; try (exfalso; lia);
      destruct (Pos.compare_spec mf mg) as [Hm | Hm | Hm]; try reflexivity; exfalso; lia.
Qed.

(** On binary64 numbers the sign test of a difference is the comparison
    of its operands. *)
Theorem sub_gt0 (x y : float) : (0 <? y - x)%float = (x <? y)%float.
Proof.
  rewrite !FloatAxioms.ltb_spec, FloatAxioms.sub_spec.
  change (Prim2SF 0%float) with (S754_zero false).
  rewrite SFltb_zero_positive. apply SFsub_positive; apply Prim2SF_valid.
Qed.

Local Close Scope Z_scope.

End FloatOrder.

(** ** Exact results of binary64 operations

    The rounding functions that specify the operations, followed
    through for a square, its square root, a quotient and the
    conversion of an integer. *)

Module FloatExact.
Import FloatKey FloatOrder.
Local Open Scope Z_scope.

(** [iter_pos] is iteration a number of times. *)
Lemma iter_pos_nat {A : Type} (f : A -> A) (p : positive) (x : A) :
  SpecFloat.iter_pos f p x = Nat.iter (Pos.to_nat p) f x.
Proof.
  revert x. induction p as [p IH | p IH | ]; intros x; cbn [SpecFloat.iter_pos].
  - rewrite Pos2Nat.inj_xI. rewrite !IH.
    replace (S (2 * Pos.to_nat p))%nat with (Pos.to_nat p + (Pos.to_nat p + 1))%nat by lia.
    rewrite !Nat.iter_add. reflexivity.
  - rewrite Pos2Nat.inj_xO. rewrite !IH.
    replace (2 * Pos.to_nat p)%nat with (Pos.to_nat p + Pos.to_nat p)%nat by lia.
    rewrite Nat.iter_add. reflexivity.
  - reflexivity.
Qed.

Lemma shifted_0 (m0 : Z) : 0 <= m0 -> shifted m0 0 (Build_shr_record m0 false false).
Proof.
  intros H. split; [ exact H | ]. exists 0. cbn. repeat split; try lia; discriminate.
Qed.

Lemma half_double (k : nat) : k <> O -> 2 * half k = 2 ^ Z.of_nat k.
Proof.
  destruct k as [ | j]; [ congruence | intros _ ]. cbn [half].
  rewrite Nat2Z.inj_succ, Z.pow_succ_r by lia. reflexivity.
Qed.

Lemma shifted_S (m0 : Z) (k : nat) (s : shr_record) :
  shifted m0 k s -> shifted m0 (S k) (shr_1 s).
Proof.
  intros [Hm (low & E & L0 & L1 & Hs & Hr)].
  destruct s as [m r t]. cbn [shr_m shr_r shr_s] in *.
  assert (P : 0 < 2 ^ Z.of_nat k) by (apply Z.pow_pos_nonneg; lia).
  assert (E2 : 2 ^ Z.of_nat (S k) = 2 * 2 ^ Z.of_nat k)
    by (rewrite Nat2Z.inj_succ, Z.pow_succ_r by lia; reflexivity).
  assert (Hlow : 0 <= (if r then half k else 0) + low < 2 ^ Z.of_nat k).
  { destruct k as [ | j].
    - rewrite (Hr eq_refl) in *. cbn [half] in *. cbn. lia.
    - pose proof (half_double (S j) ltac:(discriminate)) as Hd.
      assert (0 < half (S j)) by (cbn [half]; apply Z.pow_pos_nonneg; lia).
      destruct r; lia. }
  assert (Hsticky : (r || t = true) <-> 0 < (if r then half k else 0) + low).
  { destruct r; cbn [orb].
    - split; [ intros _ | reflexivity ].
      destruct k as [ | j]; [ specialize (Hr eq_refl); discriminate | ].
      assert (0 < half (S j)) by (cbn [half]; apply Z.pow_pos_nonneg; lia). lia.
    - rewrite Hs. lia. }
  destruct m as [ | p | p]; [ | | lia ].
  - cbn [shr_1]. split; [ cbn; lia | ].
    exists ((if r then half k else 0) + low). cbn [shr_m shr_r shr_s half].
    split; [ lia | split; [ lia | split; [ lia | split; [ exact Hsticky | discriminate ] ] ] ].
  - destruct p as [p | p | ]; cbn [shr_1]; (split; [ cbn; lia | ]);
      exists ((if r then half k else 0) + low); cbn [shr_m shr_r shr_s half];
      (split; [ | split; [ lia | split; [ lia | split; [ exact Hsticky | discriminate ] ] ] ]).
    + rewrite E, E2. rewrite Pos2Z.inj_xI. lia.
    + rewrite E, E2. rewrite Pos2Z.inj_xO. lia.
    + rewrite E, E2. lia.
Qed.

Lemma shifted_iter (m0 : Z) (k : nat) :
  0 <= m0 -> shifted m0 k (Nat.iter k shr_1 (Build_shr_record m0 false false)).
Proof.
  intros H. induction k as [ | k IH]; [ apply shifted_0, H | ].
  cbn [Nat.iter]. apply shifted_S, IH.
Qed.

(** Rounding to nearest after [k >= 1] shifts moves the number by at
    most half a unit of the last place kept. *)
Lemma shifted_round (m0 : Z) (k : nat) (s : shr_record) :
  shifted m0 k s -> k <> O ->
  let p := round_nearest_even (shr_m s) (loc_of_shr_record s) in
  shr_m s <= p <= shr_m s + 1 /\
  2 * Z.abs (p * 2 ^ Z.of_nat k - m0) <= 2 ^ Z.of_nat k.
Proof.
  intros [Hm (low & E & L0 & L1 & Hs & Hr)] Hk p.
  pose proof (half_double k Hk) as Hd.
  destruct s as [m r t]. cbn [shr_m shr_r shr_s] in *. subst p.
  assert (Ht : t = false -> low = 0).
  { intros ->. destruct (Z.eq_dec low 0); [ assumption | ].
    assert (0 < low) by lia. apply Hs in H. discriminate. }
  assert (Ht' : t = true -> 0 < low) by (intros ->; apply Hs; reflexivity).
  destruct r, t; cbn [loc_of_shr_record round_nearest_even];
    try specialize (Ht eq_refl); try specialize (Ht' eq_refl).
  - split; [ lia | ]. rewrite E. nia.
  - destruct (Z.even m); (split; [ lia | ]); rewrite E; nia.
  - split; [ lia | ]. rewrite E. nia.
  - split; [ lia | ]. rewrite E. nia.
Qed.


Lemma digits_of_range (x : Z) (d : Z) :
  0 < d -> 2 ^ (d - 1) <= x < 2 ^ d -> Zdigits2 x = d.
Proof.
  intros Hd [Hlo Hhi].
  assert (Hx : 0 < x) by (pose proof (Z.pow_pos_nonneg 2 (d - 1)); lia).
  destruct x as [ | p | p]; try lia. cbn [Zdigits2].
  pose proof (digits2_pos_bounds p) as [Blo Bhi].
  set (c := Z.pos (digits2_pos p)) in *.
  destruct (Z.lt_trichotomy c d) as [H | [H | H]]; [ exfalso | exact H | exfalso ].
  - assert (2 ^ c <= 2 ^ (d - 1)) by (apply Z.pow_le_mono_r; lia). lia.
  - assert (2 ^ d <= 2 ^ (c - 1)) by (apply Z.pow_le_mono_r; lia). lia.
Qed.

Lemma digits_range (x : Z) : 0 < x -> 2 ^ (Zdigits2 x - 1) <= x < 2 ^ Zdigits2 x.
Proof.
  destruct x as [ | p | p]; try lia. intros _. apply digits2_pos_bounds.
Qed.

(** Rounding an exact mantissa of more than 53 digits, away from the
    ends of the exponent range: the result is finite, has 53 digits, and
    differs from the mantissa by at most half a unit of its last
    place. *)
Lemma round_aux_exact (sx : bool) (M ex : Z) :
  0 < M -> 53 < Zdigits2 M -> emin <= ex + (Zdigits2 M - 53) ->
  let n := Zdigits2 M - 53 in
  exists (p : positive) (E : Z),
    binary_round_aux prec emax sx M ex loc_Exact
    = (if E <=? emax - prec then S754_finite sx p E else S754_infinity sx) /\
    Z.pos (digits2_pos p) = 53 /\
    (E = ex + n \/ (E = ex + n + 1 /\ Z.pos p = 2 ^ 52)) /\
    2 * Z.abs (Z.pos p * 2 ^ (E - ex) - M) <= 2 ^ n.
Proof.
  intros HM HD Hex n.
  assert (En0 : n = Zdigits2 M - 53) by reflexivity. clearbody n.
  pose proof (eq_refl : prec = 53) as Hp. pose proof (eq_refl : emax = 1024) as He.
  pose proof (eq_refl : emin = -1074) as Hmin.
  unfold binary_round_aux.
  assert (Hf : fexp prec emax (Zdigits2 M + ex) - ex = n) by (unfold fexp; lia).
  unfold shr_fexp at 1. rewrite Hf. cbn [shr_record_of_loc].
  destruct n as [ | pn | pn] eqn:En; try lia.
  unfold shr. rewrite iter_pos_nat.
  pose proof (shifted_iter M (Pos.to_nat pn) (Z.lt_le_incl _ _ HM)) as Hsh.
  pose proof (iter_shr_digits pn (Build_shr_record M false false)) as [Hdig _].
  rewrite iter_pos_nat in Hdig. cbn [shr_m] in Hdig.
  set (rec := Nat.iter (Pos.to_nat pn) shr_1 (Build_shr_record M false false)) in *.
  assert (Hk : Pos.to_nat pn <> O) by lia.
  pose proof (shifted_round M _ rec Hsh Hk) as [Hq Hclose]. cbv zeta in Hq, Hclose.
  rewrite positive_nat_Z in Hclose.
  set (P := round_nearest_even (shr_m rec) (loc_of_shr_record rec)) in *.
  assert (Hq53 : Zdigits2 (shr_m rec) = 53).
  { rewrite Hdig. lia. }
  assert (Hqpos : 0 < shr_m rec).
  { pose proof (proj1 Hsh) as Hnn. destruct (shr_m rec); cbn in Hq53; lia. }
  pose proof (digits_range _ Hqpos) as Hqr. rewrite Hq53 in Hqr.
  change (53 - 1) with 52 in Hqr.
  destruct (Z.eq_dec P (2 ^ 53)) as [HP | HP].
  - (* the rounding carries into a 54th digit *)
    rewrite HP. unfold shr_fexp. change (Zdigits2 (2 ^ 53)) with 54.
    assert (Hf2 : fexp prec emax (54 + (ex + Z.pos pn)) - (ex + Z.pos pn) = 1)
      by (unfold fexp; lia).
    rewrite Hf2. change (2 ^ 53) with 9007199254740992.
    cbn [shr shr_record_of_loc SpecFloat.iter_pos shr_1 shr_m].
    exists 4503599627370496%positive, (ex + Z.pos pn + 1). split; [ reflexivity | ].
    split; [ reflexivity | ]. split; [ right; split; reflexivity | ].
    replace (ex + Z.pos pn + 1 - ex) with (Z.pos pn + 1) by lia.
    rewrite Z.pow_add_r by lia. rewrite HP in Hclose.
    change (2 ^ 1) with 2.
    replace (Z.pos 4503599627370496 * (2 ^ Z.pos pn * 2)) with (2 ^ 53 * 2 ^ Z.pos pn)
      by (change (2 ^ 53) with (Z.pos 4503599627370496 * 2); ring).
    exact Hclose.
  - assert (HPr : 2 ^ 52 <= P < 2 ^ 53) by lia.
    assert (HPd : Zdigits2 P = 53) by (apply digits_of_range; [ lia | exact HPr ]).
    unfold shr_fexp. rewrite HPd.
    assert (Hf2 : fexp prec emax (53 + (ex + Z.pos pn)) - (ex + Z.pos pn) = 0)
      by (unfold fexp; lia).
    rewrite Hf2. cbn [shr shr_record_of_loc shr_m].
    destruct P as [ | p | p] eqn:EP; try lia.
    exists p, (ex + Z.pos pn). split; [ reflexivity | ].
    split; [ exact HPd | ]. split; [ left; reflexivity | ].
    replace (ex + Z.pos pn - ex) with (Z.pos pn) by lia. exact Hclose.
Qed.


Lemma loc_of_record_of_loc (q : Z) (l : location) :
  loc_of_shr_record (shr_record_of_loc q l) = l.
Proof. destruct l as [ | []]; reflexivity. Qed.

Lemma shr_m_record_of_loc (q : Z) (l : location) : shr_m (shr_record_of_loc q l) = q.
Proof. destruct l as [ | []]; reflexivity. Qed.

(** Rounding a mantissa of at most 53 digits with a location: no shift
    takes place, and the result is the rounded mantissa at the same
    exponent. *)
Lemma round_aux_narrow (q e : Z) (l : location) (p : positive) :
  0 < q -> Zdigits2 q <= 53 -> emin <= e <= emax - prec ->
  round_nearest_even q l = Z.pos p -> Z.pos (digits2_pos p) = 53 ->
  binary_round_aux prec emax false q e l = S754_finite false p e.
Proof.
  intros Hq Hd He Hr Hp.
  pose proof (eq_refl : prec = 53) as Hprec. pose proof (eq_refl : emin = -1074) as Hmin.
  unfold binary_round_aux, shr_fexp.
  assert (H1 : fexp prec emax (Zdigits2 q + e) - e <= 0) by (unfold fexp; lia).
  assert (S1 : forall r, shr r e (fexp prec emax (Zdigits2 q + e) - e) = (r, e)).
  { intros r. unfold shr. destruct (fexp prec emax (Zdigits2 q + e) - e); try reflexivity. lia. }
  rewrite S1. rewrite loc_of_record_of_loc, shr_m_record_of_loc, Hr.
  cbn [Zdigits2]. rewrite Hp.
  assert (H2 : fexp prec emax (53 + e) - e = 0) by (unfold fexp; lia).
  rewrite H2. cbn [shr shr_record_of_loc shr_m].
  assert (Hle : (e <=? emax - prec) = true) by (apply Z.leb_le; lia).
  rewrite Hle. reflexivity.
Qed.

(** The square root of a number within half a unit in the last place
    of [m * m] is [m]. *)
Lemma sqrt_near_square (m p : positive) (e E : Z) :
  Z.pos (digits2_pos m) = 53 -> Z.pos (digits2_pos p) = 53 ->
  emin <= e <= emax - prec ->
  E - 2 * e = 52 \/ E - 2 * e = 53 ->
  Z.pos m * Z.pos m - Z.pos m < Z.pos p * 2 ^ (E - 2 * e) <= Z.pos m * Z.pos m + Z.pos m ->
  SFsqrt prec emax (S754_finite false p E) = S754_finite false m e.
Proof.
  intros Hm Hp He HE Hnear.
  pose proof (eq_refl : prec = 53) as Hprec. pose proof (eq_refl : emin = -1074) as Hmin.
  pose proof (eq_refl : emax = 1024) as Hmax.
  pose proof (digits2_pos_bounds m) as Bm. rewrite Hm in Bm. change (53 - 1) with 52 in Bm.
  unfold SFsqrt, SFsqrt_core_binary. cbn [Zdigits2]. rewrite Hp.
  assert (He' : Z.min (fexp prec emax (Z.div2 (53 + E + 1))) (Z.div2 E) = e).
  { rewrite !Z.div2_div. unfold fexp. destruct HE as [HE | HE].
    - replace E with (2 * e + 52) by lia.
      replace (53 + (2 * e + 52) + 1) with ((e + 53) * 2) by lia.
      replace (2 * e + 52) with ((e + 26) * 2) by lia.
      rewrite !Z.div_mul by lia. lia.
    - replace E with (2 * e + 53) by lia.
      replace (53 + (2 * e + 53) + 1) with (1 + (e + 53) * 2) by lia.
      replace (2 * e + 53) with (1 + (e + 26) * 2) by lia.
      rewrite !Z.div_add by lia. change (1 / 2) with 0. lia. }
  rewrite He'.
  set (s := E - 2 * e) in *.
  assert (Hs : 0 < s) by lia.
  assert (Hsh : match s with
                | 0 => Z.pos p
                | Z.pos _ => Z.shiftl (Z.pos p) s
                | Z.neg _ => 0
                end = Z.pos p * 2 ^ s).
  { destruct s; try lia. apply Z.shiftl_mul_pow2. lia. }
  rewrite Hsh. set (m' := Z.pos p * 2 ^ s) in *.
  assert (Hm' : 0 <= m') by lia.
  pose proof (Z.sqrtrem_spec m' Hm') as Hsq.
  destruct (Z.sqrtrem m') as [q r]. destruct Hsq as [Hsq Hr].
  assert (Hq0 : 0 <= q) by lia.
  destruct (Z_le_gt_dec (Z.pos m * Z.pos m) m') as [Hge | Hlt].
  - (* the rounded square is not below the square *)
    assert (Hq : q = Z.pos m) by nia. subst q.
    assert (Hrm : r <= Z.pos m) by nia.
    apply round_aux_narrow; try lia.
    + cbn [Zdigits2]. lia.
    + destruct (Z.eqb_spec r 0); [ reflexivity | ].
      destruct (Z.leb_spec r (Z.pos m)); [ reflexivity | lia ].
  - (* it is below *)
    assert (Hq : q = Z.pos m - 1) by nia. subst q.
    assert (Hrm : Z.pos m - 1 < r) by nia.
    assert (Hq1 : 0 < Z.pos m - 1) by lia.
    apply round_aux_narrow; try lia.
    + pose proof (digits_range _ Hq1) as Bq.
      destruct (Z_le_gt_dec (Zdigits2 (Z.pos m - 1)) 53) as [H | H]; [ exact H | exfalso ].
      assert (2 ^ 53 <= 2 ^ (Zdigits2 (Z.pos m - 1) - 1)) by (apply Z.pow_le_mono_r; lia).
      lia.
    + destruct (Z.eqb_spec r 0); [ lia | ].
      destruct (Z.leb_spec r (Z.pos m - 1)); [ lia | ].
      cbn [round_nearest_even]. lia.
Qed.


(** The rounded square of a normal number, away from overflow and
    underflow, has the number as its rounded square root. *)
Lemma SFsqrt_square (m : positive) (e : Z) :
  Z.pos (digits2_pos m) = 53 -> -563 <= e <= 459 ->
  SFsqrt prec emax (SFmul prec emax (S754_finite false m e) (S754_finite false m e))
  = S754_finite false m e.
Proof.
  intros Hm He.
  pose proof (eq_refl : prec = 53) as Hprec. pose proof (eq_refl : emin = -1074) as Hmin.
  pose proof (eq_refl : emax = 1024) as Hmax.
  pose proof (digits2_pos_bounds m) as Bm. rewrite Hm in Bm. change (53 - 1) with 52 in Bm.
  cbn [SFmul xorb]. rewrite Pos2Z.inj_mul.
  set (M := Z.pos m * Z.pos m).
  assert (HM : 2 ^ 104 <= M < 2 ^ 106).
  { change (2 ^ 104) with (2 ^ 52 * 2 ^ 52). change (2 ^ 106) with (2 ^ 53 * 2 ^ 53).
    subst M. nia. }
  assert (HMpos : 0 < M) by lia.
  pose proof (digits_range M HMpos) as BD.
  assert (HD : Zdigits2 M = 105 \/ Zdigits2 M = 106).
  { destruct (Z_le_gt_dec (Zdigits2 M) 104) as [H | H].
    - assert (2 ^ Zdigits2 M <= 2 ^ 104) by (apply Z.pow_le_mono_r; lia). lia.
    - destruct (Z_le_gt_dec 107 (Zdigits2 M)) as [H' | H']; [ | lia ].
      assert (2 ^ 106 <= 2 ^ (Zdigits2 M - 1)) by (apply Z.pow_le_mono_r; lia). lia. }
  destruct (round_aux_exact false M (e + e) HMpos) as (p & E & HR & Hp & HE & Hclose);
    try lia.
  rewrite HR.
  (* a square of 106 digits does not round up to 2^106 *)
  assert (HE' : E - 2 * e = 52 \/ E - 2 * e = 53).
  { destruct HE as [HE | [HE Hp52]]; [ lia | ].
    destruct HD as [HD | HD]; [ lia | exfalso ].
    rewrite HE, Hp52, HD in Hclose.
    replace (e + e + (106 - 53) + 1 - (e + e)) with 54 in Hclose by lia.
    change (2 ^ 52 * 2 ^ 54) with (2 ^ 106) in Hclose.
    assert (M <= (2 ^ 53 - 1) * (2 ^ 53 - 1)) by (subst M; nia).
    change (2 ^ (106 - 53)) with (2 ^ 53) in Hclose. lia. }
  assert (Hle : (E <=? emax - prec) = true) by (apply Z.leb_le; lia).
  rewrite Hle. apply sqrt_near_square; try assumption; try lia.
  replace (E - 2 * e) with (E - (e + e)) by lia. fold M.
  destruct HD as [HD | HD]; rewrite HD in Hclose.
  - change (2 ^ (105 - 53)) with (2 ^ 52) in Hclose. lia.
  - change (2 ^ (106 - 53)) with (2 ^ 53) in Hclose.
    assert (2 ^ 52 < Z.pos m).
    { destruct (Z_le_gt_dec (Z.pos m) (2 ^ 52)) as [H | H]; [ exfalso | lia ].
      assert (M <= 2 ^ 52 * 2 ^ 52) by (subst M; nia).
      change (2 ^ 52 * 2 ^ 52) with (2 ^ 104) in H0.
      assert (2 ^ 105 <= M) by (rewrite HD in BD; exact (proj1 BD)). lia. }
    lia.
Qed.

(** A finite number other than zero divided by itself is 1. *)
Lemma SFdiv_self (s : bool) (m : positive) (e : Z) :
  SFdiv prec emax (S754_finite s m e) (S754_finite s m e) = S754_finite false 4503599627370496 (-52).
Proof.
  cbn [SFdiv]. unfold SFdiv_core_binary. cbn [Zdigits2].
  replace (Z.pos (digits2_pos m) + e - (Z.pos (digits2_pos m) + e)) with 0 by lia.
  replace (e - e) with 0 by lia.
  change (Z.min (fexp prec emax 0) 0) with (-53).
  change (0 - -53) with 53.
  cbn iota.
  rewrite Z.shiftl_mul_pow2 by lia.
  pose proof (Z_div_mod (Z.pos m * 2 ^ 53) (Z.pos m) ltac:(lia)) as Hdm.
  destruct (Z.div_eucl (Z.pos m * 2 ^ 53) (Z.pos m)) as [q r].
  destruct Hdm as [Hq Hr].
  assert (Hq' : q = 2 ^ 53) by nia.
  assert (Hr' : r = 0) by nia. subst q r.
  assert (Hloc : new_location (Z.pos m) 0 = loc_Exact).
  { unfold new_location, new_location_even, new_location_odd.
    destruct (Z.even (Z.pos m)); reflexivity. }
  rewrite Hloc. destruct s; reflexivity.
Qed.

(** *** Conversion of an integer

    [binary_normalize] rounds an integer to a canonical number, so that
    it can be read back from the primitive float built from it. *)

Lemma digits2_iter_xO (m d : positive) :
  Z.pos (digits2_pos (Pos.iter xO m d)) = Z.pos (digits2_pos m) + Z.pos d.
Proof.
  induction d as [ | d IH] using Pos.peano_ind.
  - cbn [Pos.iter digits2_pos]. lia.
  - rewrite Pos.iter_succ. cbn [digits2_pos]. lia.
Qed.

(** A mantissa that is canonical at its exponent is left as it is. *)
Lemma round_aux_canonical (sx : bool) (m : positive) (e : Z) :
  fexp prec emax (Z.pos (digits2_pos m) + e) = e ->
  binary_round_aux prec emax sx (Z.pos m) e loc_Exact
  = if e <=? emax - prec then S754_finite sx m e else S754_infinity sx.
Proof.
  intros Hc. unfold binary_round_aux, shr_fexp. cbn [Zdigits2]. rewrite Hc.
  replace (e - e) with 0 by lia.
  cbn [shr shr_record_of_loc shr_m loc_of_shr_record round_nearest_even Zdigits2].
  rewrite Hc. replace (e - e) with 0 by lia. reflexivity.
Qed.

Lemma binary_round_valid (sx : bool) (m : positive) (e : Z) :
  emin <= e -> valid_binary (binary_round prec emax sx m e) = true.
Proof.
  intros He.
  pose proof (eq_refl : prec = 53) as Hprec. pose proof (eq_refl : emin = -1074) as Hmin.
  pose proof (eq_refl : emax = 1024) as Hmax.
  unfold binary_round, shl_align.
  set (D := Z.pos (digits2_pos m)).
  destruct (fexp prec emax (D + e) - e) as [ | n | d] eqn:En.
  - (* canonical as it stands *)
    rewrite round_aux_canonical by (fold D; lia).
    destruct (Z.leb_spec e (emax - prec)) as [Hle | Hgt]; [ | reflexivity ].
    cbn [valid_binary]. unfold bounded, canonical_mantissa. fold D.
    apply andb_true_intro. split; [ apply Z.eqb_eq; lia | apply Z.leb_le; exact Hle ].
  - (* more than 53 digits: rounded *)
    assert (HD : 53 < D) by (unfold fexp in En; lia).
    destruct (round_aux_exact sx (Z.pos m) e ltac:(lia)) as (p & E & HR & Hp & HE & _);
      [ cbn [Zdigits2]; fold D; lia | cbn [Zdigits2]; fold D; lia | ].
    rewrite HR. cbn [Zdigits2] in HE. fold D in HE.
    destruct (Z.leb_spec E (emax - prec)) as [Hle | Hgt]; [ | reflexivity ].
    cbn [valid_binary]. unfold bounded, canonical_mantissa. rewrite Hp.
    apply andb_true_intro. split; [ apply Z.eqb_eq; unfold fexp; lia | apply Z.leb_le; exact Hle ].
  - (* fewer digits: aligned to the left *)
    set (fe := fexp prec emax (D + e)) in *.
    assert (Hc : fexp prec emax (Z.pos (digits2_pos (Pos.iter xO m d)) + fe) = fe).
    { rewrite digits2_iter_xO. fold D.
      replace (D + Z.pos d + fe) with (D + e) by lia. reflexivity. }
    rewrite round_aux_canonical by exact Hc.
    destruct (Z.leb_spec fe (emax - prec)) as [Hle | Hgt]; [ | reflexivity ].
    cbn [valid_binary]. unfold bounded, canonical_mantissa.
    apply andb_true_intro. split; [ apply Z.eqb_eq; exact Hc | apply Z.leb_le; exact Hle ].
Qed.

Lemma binary_normalize_valid (z e : Z) (sz : bool) :
  emin <= e -> valid_binary (binary_normalize prec emax z e sz) = true.
Proof.
  intros He. destruct z as [ | p | p]; cbn [binary_normalize];
    [ reflexivity | apply binary_round_valid, He | apply binary_round_valid, He ].
Qed.

Local Close Scope Z_scope.

Lemma midRange_inv (d : float) :
  midRange d = true ->
  exists m e, Prim2SF d = S754_finite false m e /\
              Z.pos (digits2_pos m) = 53%Z /\ (-563 <= e <= 459)%Z.
Proof.
  unfold midRange. rewrite andb_true_iff. intros [H1 H2].
  destruct (leb_not_nan _ _ H1) as [_ Hnan].
  apply (ltb_key d 0x1p512 Hnan eq_refl) in H2.
  rewrite FloatAxioms.leb_spec in H1.
  apply not_nan_spec in Hnan.
  apply SFleb_key in H1; [ | discriminate | exact Hnan ].
  change (Prim2SF 0x1p-511) with (S754_finite false 4503599627370496 (-563)) in H1.
  change (Prim2SF 0x1p512) with (S754_finite false 4503599627370496 460) in H2.
  pose proof (Prim2SF_valid d) as V.
  pose proof (eq_refl : emin = (-1074)%Z) as Hmin. pose proof (eq_refl : prec = 53%Z) as Hp.
  unfold isNaN in Hnan.
  destruct (Prim2SF d) as [ [] | [] | | [] m e]; cbn [key] in H1, H2; unfold lexLt in H1, H2;
    try (exfalso; lia); try congruence.
  cbn [valid_binary] in V. destruct (bounded_inv _ _ V) as (Hemin & Hd & Hn).
  assert (He1 : (-563 <= e)%Z) by lia.
  assert (Hm : Z.pos (digits2_pos m) = 53%Z) by (apply Hn; lia).
  exists m, e. split; [ reflexivity | ]. split; [ exact Hm | ]. split; [ exact He1 | ].
  pose proof (digits2_pos_bounds m) as B. rewrite Hm in B. change (53 - 1)%Z with 52%Z in B.
  change (2 ^ 52)%Z with (Z.pos 4503599627370496) in B. lia.
Qed.

(** In that range a number is the square root of its square. *)
Theorem sqrt_square (d : float) : midRange d = true -> PrimFloat.sqrt (d * d) = d.
Proof.
  intros H. destruct (midRange_inv d H) as (m & e & E & Hm & He).
  apply Prim2SF_inj. rewrite FloatAxioms.sqrt_spec, FloatAxioms.mul_spec, E.
  apply SFsqrt_square; assumption.
Qed.

(** ... and, as any finite number other than zero, its own quotient is 1. *)
Theorem div_self (d : float) : midRange d = true -> (d / d)%float = 1%float.
Proof.
  intros H. destruct (midRange_inv d H) as (m & e & E & _ & _).
  apply Prim2SF_inj. rewrite FloatAxioms.div_spec, E. apply SFdiv_self.
Qed.

Lemma midRange_not_zero (d : float) : midRange d = true -> (d =? 0)%float = false.
Proof.
  intros H. destruct (midRange_inv d H) as (m & e & E & _ & _).
  rewrite FloatAxioms.eqb_spec, E. reflexivity.
Qed.

(** The Number of an integer is its rounding to nearest. *)
Theorem of_Z_spec (z : Z) :
  Prim2SF (JS.of_Z z) = binary_normalize prec emax z 0 false.
Proof.
  unfold JS.of_Z. apply Prim2SF_SF2Prim, binary_normalize_valid. cbv. discriminate.
Qed.

End FloatExact.

(** ** Facts about the model of [Array.prototype.sort] *)

Section SortFacts.

Context {A : Type} (cmp : A -> A -> float).

Lemma sort_insert_perm (x : A) (l : list A) :
  Permutation (x :: l) (JS.sort_insert cmp x l).
Proof.
  induction l as [ | y l IH]; cbn [JS.sort_insert].
  - apply Permutation_refl.
  - destruct (JS.gt0 (cmp x y)).
    + eapply perm_trans; [ apply perm_swap | apply perm_skip, IH ].
    + apply Permutation_refl.
Qed.

Lemma sort_perm (l : list A) : Permutation l (JS.sort cmp l).
Proof.
  unfold JS.sort. induction l as [ | x l IH]; cbn [fold_right].
  - apply perm_nil.
  - eapply perm_trans; [ apply perm_skip, IH | apply sort_insert_perm ].
Qed.

Lemma sort_In (l : list A) (x : A) : In x (JS.sort cmp l) <-> In x l.
Proof.
  split; apply Permutation_in; [ apply Permutation_sym | ]; apply sort_perm.
Qed.

Lemma sort_length (l : list A) : length (JS.sort cmp l) = length l.
Proof. symmetry. apply Permutation_length, sort_perm. Qed.

(** When the comparison function decides a strict order [after] on the
    elements at hand ([after x y]: [x] belongs after [y]), the sorted
    array has no element placed before one it belongs after. *)
Variable after : A -> A -> bool.

Lemma sort_insert_sorted (l0 l : list A) (x : A) :
  consistentOn cmp after l0 -> In x l0 -> incl l l0 ->
  StronglySorted (fun a b => after a b = false) l ->
  StronglySorted (fun a b => after a b = false) (JS.sort_insert cmp x l).
Proof.
  intros (Hagree & Hasym & Htrans) Hx.
  induction l as [ | y l IH]; intros Hincl Hs; cbn [JS.sort_insert].
  - repeat constructor.
  - assert (Hy : In y l0) by (apply Hincl; left; reflexivity).
    assert (Hl : incl l l0) by (intros z Hz; apply Hincl; right; exact Hz).
    inversion Hs as [ | ? ? Hs' Hall]; subst.
    rewrite (Hagree x y Hx Hy). destruct (after x y) eqn:E.
    + constructor; [ apply IH; assumption | ].
      rewrite Forall_forall in *. intros z Hz.
      apply (Permutation_in _ (Permutation_sym (sort_insert_perm x l))) in Hz.
      destruct Hz as [<- | Hz]; [ apply Hasym; assumption | apply Hall, Hz ].
    + constructor; [ exact Hs | ].
      constructor; [ exact E | ].
      rewrite Forall_forall in *. intros z Hz.
      apply (Htrans x y z); auto.
Qed.

Lemma sort_sorted (l : list A) :
  consistentOn cmp after l -> StronglySorted (fun a b => after a b = false) (JS.sort cmp l).
Proof.
  intros Hc. unfold JS.sort.
  assert (H : forall l', incl l' l ->
            StronglySorted (fun a b => after a b = false)
                           (fold_right (JS.sort_insert cmp) [] l')).
  { induction l' as [ | x l' IH]; intros Hincl; cbn [fold_right].
    - constructor.
    - apply (sort_insert_sorted l).
      + exact Hc.
      + apply Hincl; left; reflexivity.
      + intros z Hz. apply (sort_In l' z) in Hz. apply Hincl; right; exact Hz.
      + apply IH. intros z Hz; apply Hincl; right; exact Hz. }
  apply H, incl_refl.
Qed.

End SortFacts.

(** ** Gaussian elimination *)

Section Elimination.
Import JS Causal.

Lemma range_split (lo mid hi : nat) :
  lo <= mid < hi -> range lo hi = range lo mid ++ mid :: range (S mid) hi.
Proof.
  intros H. unfold range.
  replace (hi - lo) with ((mid - lo) + S (hi - S mid)) by lia.
  rewrite seq_app. cbn [seq]. repeat f_equal; lia.
Qed.

Lemma forward_app (n : nat) (pre post : list nat) (M : matrix) :
  forward n (pre ++ post) M =
  match forward n pre M with
  | None => None
  | Some M' => forward n post M'
  end.
Proof.
  revert M. induction pre as [ | c pre IH]; intros M; cbn [forward app].
  - reflexivity.
  - destruct (eliminateColumn n M c); [ apply IH | reflexivity ].
Qed.

(** The column loop fails exactly when some column is reached whose
    pivot fails. *)
Lemma forward_None (n : nat) (cols : list nat) (M : matrix) :
  forward n cols M = None <->
  exists pre col post M',
    cols = pre ++ col :: post /\ forward n pre M = Some M' /\
    eliminateColumn n M' col = None.
Proof.
  revert M. induction cols as [ | c cols IH]; intros M; cbn [forward].
  - split; [ discriminate | ].
    intros (pre & col & post & M' & E & _). destruct pre; discriminate.
  - destruct (eliminateColumn n M c) as [M1 | ] eqn:E.
    + rewrite IH. split.
      * intros (pre & col & post & M' & -> & Hf & Hc).
        exists (c :: pre), col, post, M'. cbn [forward app]. rewrite E. auto.
      * intros (pre & col & post & M' & Hcols & Hf & Hc).
        destruct pre as [ | c' pre]; cbn [app forward] in *.
        -- injection Hcols as -> ->. injection Hf as <-. congruence.
        -- injection Hcols as <- ->. rewrite E in Hf.
           exists pre, col, post, M'. auto.
    + split; [ | reflexivity ]. intros _.
      exists [], c, cols, M. auto.
Qed.

Lemma eliminateColumn_None (n : nat) (M : matrix) (col : nat) :
  eliminateColumn n M col = None <->
  (Math_abs (entry (swapRows M col (pivotRow M n col)) col col) <? 1e-12)%float = true.
Proof.
  unfold eliminateColumn.
  destruct (Math_abs (entry (swapRows M col (pivotRow M n col)) col col) <? 1e-12)%float;
    split; congruence.
Qed.

Lemma range_prefix (pre post : list nat) (col n : nat) :
  range 0 n = pre ++ col :: post -> pre = range 0 col /\ col < n.
Proof.
  intros H.
  assert (Hl : length pre < n).
  { apply (f_equal (@length nat)) in H. unfold range in H.
    rewrite length_seq, length_app in H. cbn [length] in H. lia. }
  assert (Hc : col = length pre).
  { apply (f_equal (fun l => nth (length pre) l 0)) in H.
    rewrite nth_middle in H. unfold range in H. rewrite seq_nth in H by lia. lia. }
  split; [ | lia ].
  rewrite (range_split 0 col n) in H by lia.
  apply (f_equal (firstn col)) in H.
  rewrite !firstn_app in H.
  rewrite (firstn_all2 (n := col) (range 0 col)) in H
    by (unfold range; rewrite length_seq; lia).
  rewrite (firstn_all2 (n := col) pre) in H by lia.
  unfold range in H at 2. rewrite length_seq in H.
  replace (col - (col - 0)) with 0 in H by lia.
  replace (col - length pre) with 0 in H by lia.
  cbn [firstn] in H. rewrite !app_nil_r in H. congruence.
Qed.

End Elimination.

(** C2. The elimination kernel solves [[2,1],[1,3]] x = [5,10] exactly,
    with x = [1,3]; it reports the matrix [[1,2],[2,4]] singular whatever
    the right-hand side; and it returns the failure value exactly when
    the column loop reaches a column whose pivot, after the row swap, has
    a magnitude below 1e-12. *)
Theorem solveLinearSystem_kernel :
  Causal.solveLinearSystem [[2; 1]; [1; 3]]%float [5; 10]%float = Some [1; 3]%float /\
  (forall b : list float,
     Causal.solveLinearSystem [[1; 2]; [2; 4]]%float b = None) /\
  (forall (A : Causal.matrix) (b : list float),
     Causal.solveLinearSystem A b = None <->
     exists (col : nat) (M : Causal.matrix),
       col < length A /\
       Causal.forward (length A) (JS.range 0 col) (Causal.augment A b) = Some M /\
       (JS.Math_abs
          (Causal.entry
             (Causal.swapRows M col (Causal.pivotRow M (length A) col)) col col)
        <? 1e-12)%float = true).
Proof.
  split; [ vm_compute; reflexivity | split ].
  - intros b. vm_compute. reflexivity.
  - intros A b. unfold Causal.solveLinearSystem.
    destruct (Causal.forward (length A) (JS.range 0 (length A)) (Causal.augment A b))
      as [M | ] eqn:E.
    + split; [ discriminate | ].
      intros (col & M' & Hcol & Hf & Hp). exfalso.
      rewrite (range_split 0 col (length A)) in E by lia.
      rewrite forward_app, Hf in E. cbn [Causal.forward] in E.
      apply eliminateColumn_None in Hp. rewrite Hp in E. discriminate.
    + split; [ intros _ | reflexivity ].
      apply forward_None in E. destruct E as (pre & col & post & M' & Hcols & Hf & Hc).
      destruct (range_prefix _ _ _ _ Hcols) as [-> Hlt].
      exists col, M'. split; [ exact Hlt | ]. split; [ exact Hf | ].
      apply eliminateColumn_None. exact Hc.
Qed.

(** ** Anomaly detection *)

(** C10. With fewer than four valid points the result is exactly
    [{anomalies: [], normal: the valid points}] and carries no [stats]
    object; with four or more it always carries the [stats] summary
    (mean, std, q1, q3, iqr, iqrLow, iqrHigh), the mean and standard
    deviation being those of the valid points and the fences being
    derived from the quartiles. *)
Theorem detectAnomalies_stats_presence
  (series : TimeSeries) (o : Engine.AnomalyOptions) :
  let vals := Engine.validPoints series in
  (length vals < 4 ->
   Engine.detectAnomalies series o = Engine.mkAnomalyResult [] vals None) /\
  (4 <= length vals ->
   exists st : Engine.AnomalyStats,
     Engine.stats (Engine.detectAnomalies series o) = Some st /\
     Engine.a_mean st = Engine.mean (Engine.calcStats vals) /\
     Engine.a_std st = Engine.std (Engine.calcStats vals) /\
     Engine.iqr st = (Engine.q3 st - Engine.q1 st)%float /\
     Engine.iqrLow st = (Engine.q1 st - 1.5 * Engine.iqr st)%float /\
     Engine.iqrHigh st = (Engine.q3 st + 1.5 * Engine.iqr st)%float).
Proof.
  intros vals. unfold Engine.detectAnomalies. fold vals. split; intros H.
  - apply Nat.ltb_lt in H. rewrite H. reflexivity.
  - apply Nat.ltb_ge in H. rewrite H. cbn [Engine.stats].
    eexists. split; [ reflexivity | ]. cbn. repeat split; reflexivity.
Qed.

(** Both cases at work: two valid points, and the six-point example. *)
Lemma detectAnomalies_stats_presence_witness :
  Engine.detectAnomalies twoPoints Engine.defaultAnomaly
    = Engine.mkAnomalyResult [] twoPoints None /\
  exists st : Engine.AnomalyStats,
    Engine.stats (Engine.detectAnomalies (sixPoints 2000 2001 2002 2003 2004 2005)
                                         Engine.defaultAnomaly) = Some st /\
    Engine.a_mean st = 25%float.
Proof.
  split.
  - exact (proj1 (detectAnomalies_stats_presence twoPoints Engine.defaultAnomaly)
                 ltac:(vm_compute; lia)).
  - destruct (proj2 (detectAnomalies_stats_presence
                       (sixPoints 2000 2001 2002 2003 2004 2005) Engine.defaultAnomaly)
                    ltac:(vm_compute; lia)) as (st & Hst & Hmean & _).
    exists st. split; [ exact Hst | ]. rewrite Hmean. vm_compute. reflexivity.
Defined.

(** C3, as stated, fails: on the years 2000..2005 the z-score detector
    with threshold 2.5 returns no anomaly at all, so the point with
    value 100 is not flagged. *)
Lemma zscore_does_not_flag_100 :
  ~ (exists a : Engine.Anomaly,
       In a (Engine.anomalies
               (Engine.detectAnomalies (sixPoints 2000 2001 2002 2003 2004 2005)
                                       (Engine.mkAnomalyOptions "zscore" 2.5)))
       /\ value (Engine.point a) = Some 100%float).
Proof.
  intros (a & Hin & _). vm_compute in Hin. exact Hin.
Qed.

(** C3, amended. For the values [10,10,10,10,10,100] on any years, the
    z-score of the value 100 is 2.0412414523193148, below 2.5, so the
    z-score detector with threshold 2.5 flags nothing; the point with
    value 100 is the one and only point flagged by the z-score detector
    with threshold 2.0, and by the [iqr] and [both] detectors at
    threshold 2.5. *)
Theorem sixPoints_anomalies (y0 y1 y2 y3 y4 y5 : Z) :
  let s := sixPoints y0 y1 y2 y3 y4 y5 in
  let flaggedBy m t :=
    Engine.anomalies (Engine.detectAnomalies s (Engine.mkAnomalyOptions m t)) in
  let outlier := mkPoint y5 (Some 100%float) in
  flaggedBy "zscore"%string 2.5%float = [] /\
  flaggedBy "zscore"%string 2.0%float
    = [Engine.mkAnomaly outlier 2.0412414523193148 true true] /\
  flaggedBy "iqr"%string 2.5%float
    = [Engine.mkAnomaly outlier 2.0412414523193148 false true] /\
  flaggedBy "both"%string 2.5%float
    = [Engine.mkAnomaly outlier 2.0412414523193148 false true].
Proof.
  repeat split; vm_compute; reflexivity.
Qed.

(** ** Descriptive statistics *)

Section Statistics.
Import JS Engine.

Lemma finiteValues_filter (series : TimeSeries) :
  finiteValues series
  = map num (validPoints series).
Proof.
  unfold validPoints. induction series as [ | d rest IH]; cbn [finiteValues filter].
  - reflexivity.
  - unfold validValue, num. destruct (value d) as [v | ] eqn:E.
    + destruct (isFinite v); cbn [map]; [ | exact IH ].
      rewrite E. f_equal. exact IH.
    + exact IH.
Qed.

Lemma finiteValues_indexed_from (vs : list float) (k : nat) :
  finiteValues
    (map (fun p => mkPoint (Z.of_nat (fst p)) (Some (snd p)))
         (combine (seq k (length vs)) vs))
  = filter isFinite vs.
Proof.
  revert k. induction vs as [ | v vs IH]; intros k;
    cbn [length seq combine map finiteValues filter value snd].
  - reflexivity.
  - rewrite IH. reflexivity.
Qed.

Lemma finiteValues_indexed (vs : list float) :
  finiteValues (indexed vs) = filter isFinite vs.
Proof. apply finiteValues_indexed_from. Qed.

(** [calcStats] of an array of plain numbers computes the standard
    deviation of the specification. *)
Lemma calcStats_std_spec (vs : list float) :
  std (calcStats (indexed vs)) = Spec.sampleStd vs.
Proof.
  unfold calcStats, Spec.sampleStd.
  destruct (indexed vs) as [ | p ps] eqn:E.
  - destruct vs; [ reflexivity | discriminate ].
  - rewrite <- E, finiteValues_indexed.
    destruct (filter isFinite vs) as [ | f fs] eqn:F; [ reflexivity | ].
    cbn [length Nat.eqb std]. reflexivity.
Qed.

End Statistics.

(** C6, as stated, fails: a series with two valid points has a single
    growth observation, yet [calcVolatility] answers 0 rather than
    [null]. *)
Lemma calcVolatility_single_growth_not_null :
  ~ (length (Engine.growthRates (Engine.finiteValues twoPoints)) < 2 ->
     Engine.calcVolatility twoPoints = None).
Proof.
  intros H.
  assert (E : Engine.calcVolatility twoPoints = Some 0%float) by (vm_compute; reflexivity).
  rewrite H in E; [ discriminate | vm_compute; lia ].
Qed.

(** C6, amended. [calcVolatility] returns [null] exactly when the series
    has fewer than two finite values; otherwise it returns the standard
    deviation (sample denominator, non-finite figures dropped, 0 when
    nothing is left) of the year-over-year percentage growth figures,
    one per step whose prior value is not zero. *)
Theorem calcVolatility_amended (series : TimeSeries) :
  let vals := Engine.finiteValues series in
  (Engine.calcVolatility series = None <-> length vals < 2) /\
  (2 <= length vals ->
   Engine.calcVolatility series = Some (Spec.sampleStd (Engine.growthRates vals))).
Proof.
  intros vals. unfold Engine.calcVolatility. fold vals.
  destruct series as [ | d rest].
  - subst vals. cbn. split; [ split; [ lia | reflexivity ] | lia ].
  - destruct (Nat.ltb_spec (length vals) 2) as [H | H].
    + split; [ split; [ intros _; exact H | reflexivity ] | lia ].
    + split; [ split; [ discriminate | lia ] | ].
      intros _. rewrite calcStats_std_spec. reflexivity.
Qed.

(** The amended statement at work on the series 1, 2, 4, whose growth
    figures are 100 and 100. *)
Lemma calcVolatility_amended_witness :
  Engine.calcVolatility risingSeries = Some 0%float.
Proof.
  rewrite (proj2 (calcVolatility_amended risingSeries) ltac:(vm_compute; lia)).
  vm_compute. reflexivity.
Defined.

(** ** Forecast accuracy *)

Section Accuracy.
Import JS Engine.

(** With no zero among the actuals the filter keeps every error. *)
Lemma mapeKept_all (pre data errors : list float) :
  length errors = length data ->
  Forall (fun d => (d =? 0)%float = false) data ->
  map snd
      (filter (fun p => negb (at_ (pre ++ data) (fst p) =? 0)%float)
              (combine (seq (length pre) (length errors)) errors))
  = errors.
Proof.
  revert pre data. induction errors as [ | e errors IH]; intros pre [ | d data] Hlen Hnz;
    try discriminate; cbn [length seq combine filter map fst].
  - reflexivity.
  - inversion Hnz as [ | ? ? Hd Hrest]; subst.
    change (at_ (pre ++ d :: data) (length pre))
      with (nth (length pre) (pre ++ d :: data) undefined_num).
    rewrite nth_middle, Hd. cbn [negb map snd]. f_equal.
    specialize (IH (pre ++ [d]) data ltac:(cbn [length] in Hlen; lia) Hrest).
    rewrite <- app_assoc, length_app in IH. cbn [app length] in IH.
    replace (length pre + 1) with (S (length pre)) in IH by lia. exact IH.
Qed.

(** Term by term, the sum of the code is then the sum of the
    specification. *)
Lemma mapeTerms_sum (pre data errors : list float) (acc : float) :
  length errors = length data ->
  fold_left (fun a b => (a + b)%float)
    (map (fun p => (Math_abs (snd p / at_ (pre ++ data) (fst p)) * 100)%float)
         (combine (seq (length pre) (length errors)) errors)) acc
  = fold_left (fun a p => (a + Math_abs (fst p / snd p) * 100)%float)
              (combine errors data) acc.
Proof.
  revert pre data acc. induction errors as [ | e errors IH]; intros pre [ | d data] acc Hlen;
    try discriminate; cbn [length seq combine map fold_left fst snd].
  - reflexivity.
  - change (at_ (pre ++ d :: data) (length pre))
      with (nth (length pre) (pre ++ d :: data) undefined_num).
    rewrite nth_middle.
    specialize (IH (pre ++ [d]) data (acc + Math_abs (e / d) * 100)%float
                   ltac:(cbn [length] in Hlen; lia)).
    rewrite <- app_assoc, length_app in IH. cbn [app length] in IH.
    replace (length pre + 1) with (S (length pre)) in IH by lia. exact IH.
Qed.

Lemma filter_all {A} (f : A -> bool) (l : list A) :
  Forall (fun x => f x = true) l -> filter f l = l.
Proof.
  intros H. induction H as [ | x l Hx _ IH]; cbn [filter]; [ reflexivity | ].
  rewrite Hx, IH. reflexivity.
Qed.

(** When no actual is zero, the MAPE of the code is the MAPE of the
    specification: the mean of [|error / actual| * 100] over all pairs. *)
Lemma mapeOf_without_zero (errors data : list float) :
  length errors = length data ->
  Forall (fun d => (d =? 0)%float = false) data ->
  mapeOf errors data (length data) = Spec.mape errors data.
Proof.
  intros Hlen Hnz. unfold mapeOf, Spec.mape, mapeKept, mapeTerms, sum.
  pose proof (mapeKept_all [] data errors Hlen Hnz) as HK.
  pose proof (mapeTerms_sum [] data errors 0%float Hlen) as HT.
  cbn [app length] in HK, HT. rewrite HK, HT.
  rewrite filter_all.
  - rewrite length_combine, Hlen, Nat.min_id. reflexivity.
  - rewrite Forall_forall in *. intros [e d] Hin. cbn [snd].
    apply in_combine_r in Hin. rewrite (Hnz d Hin). reflexivity.
Qed.

Lemma hwStep_errors_length (o : HWOptions) (data : list float) (st : hwState) :
  length (hw_errors (fold_left (hwStep o) data st)) = length (hw_errors st) + length data.
Proof.
  revert st. induction data as [ | x data IH]; intros st; cbn [fold_left length].
  - lia.
  - rewrite IH. unfold hwStep. cbn [hw_errors]. rewrite length_app. cbn [length]. lia.
Qed.

(** The forecaster reports the MAPE of the specification on every
    accepted series none of whose valid values is zero. *)
Lemma holtwinters_mape_without_zero (s : TimeSeries) (o : HWOptions) (f : Forecast) :
  holtwinters s o = Some f ->
  Forall (fun d => (d =? 0)%float = false) (map num (validPoints s)) ->
  exists errors,
    length errors = length (validPoints s) /\
    mape (accuracy f) = Spec.mape errors (map num (validPoints s)).
Proof.
  unfold holtwinters. destruct s as [ | d0 rest]; [ discriminate | ].
  set (vals := validPoints (d0 :: rest)).
  destruct (Nat.ltb_spec (length vals) 3) as [ | Hn]; [ discriminate | ].
  intros [= <-] Hnz. cbn [accuracy mape].
  set (st := fold_left (hwStep o) (map num vals) _).
  exists (hw_errors st).
  assert (Hlen : length (hw_errors st) = length (map num vals)).
  { subst st. rewrite hwStep_errors_length. cbn [hw_errors length]. lia. }
  split; [ rewrite Hlen; apply length_map | ].
  rewrite <- (mapeOf_without_zero _ _ Hlen Hnz). rewrite length_map. reflexivity.
Qed.

End Accuracy.

(** C5. On the series 2, 0, 3 the filter drops the error of the zero
    actual, but the map that follows divides the second kept error by
    [data[1]], the zero itself: the reported MAPE is infinite, where the
    mean over the two nonzero-actual pairs is finite.  On 1, 2, 0 the
    terms are the right ones but the sum is divided by the number of all
    points: 44.5 is reported where the mean over the nonzero-actual pairs
    is 66.75. *)
Theorem holtwinters_mape_zero_actual :
  let hw vs :=
    Engine.holtwinters (series (combine [2000; 2001; 2002]%Z vs)) Engine.defaultHW in
  let errorsOf vs :=
    Engine.hw_errors
      (fold_left (Engine.hwStep Engine.defaultHW) vs
                 (Engine.mkHWState (JS.at_ vs 0) (JS.at_ vs 1 - JS.at_ vs 0)%float [] [])) in
  option_map (fun f => Engine.mape (Engine.accuracy f)) (hw [2; 0; 3]%float)
    = Some infinity /\
  Spec.mape (errorsOf [2; 0; 3]%float) [2; 0; 3]%float = 147.29666666666668%float /\
  option_map (fun f => Engine.mape (Engine.accuracy f)) (hw [1; 2; 0]%float)
    = Some 44.5%float /\
  Spec.mape (errorsOf [1; 2; 0]%float) [1; 2; 0]%float = 66.75%float.
Proof.
  repeat split; vm_compute; reflexivity.
Qed.

(** ** Pearson correlation *)

(** C9. [pearson] keeps every value that is not [null]: a NaN on the
    year 2000 goes into the sums and the correlation comes out NaN,
    where the same series without that point correlate at 0.327. *)
Theorem pearson_nan_leaks :
  let b := [mkPoint 2000 (Some 5); mkPoint 2001 (Some 1);
            mkPoint 2002 (Some 3); mkPoint 2003 (Some 2)]%float in
  let a := [mkPoint 2001 (Some 1); mkPoint 2002 (Some 2); mkPoint 2003 (Some 4)]%float in
  Engine.pearson (mkPoint 2000 (Some nan) :: a) b = Some nan /\
  Engine.pearson (mkPoint 2000 (Some infinity) :: a) b = Some nan /\
  Engine.pearson a b = Some 0.327%float /\
  Engine.pearson (mkPoint 2000 None :: a) b = Some 0.327%float.
Proof.
  repeat split; vm_compute; reflexivity.
Qed.

(** ** Objects keyed by year *)

Section ObjFacts.

Context {V : Type}.

Lemma keysSorted_inv (k : Z) (v : V) (o : list (Z * V)) :
  keysSorted ((k, v) :: o) ->
  keysSorted o /\ forall e, In e o -> (k < fst e)%Z.
Proof.
  unfold keysSorted. cbn [map fst]. intros H.
  inversion H as [ | ? ? Hs Hall]; subst. split; [ exact Hs | ].
  intros e He. rewrite Forall_forall in Hall. apply Hall, in_map, He.
Qed.

Lemma keysSorted_cons (k : Z) (v : V) (o : list (Z * V)) :
  keysSorted o -> (forall e, In e o -> (k < fst e)%Z) -> keysSorted ((k, v) :: o).
Proof.
  unfold keysSorted. cbn [map fst]. intros Hs Hall. constructor; [ exact Hs | ].
  rewrite Forall_forall. intros k' Hk'. apply in_map_iff in Hk'.
  destruct Hk' as (e & <- & He). apply Hall, He.
Qed.

Lemma keysOrdered_inv (k : Z) (v : V) (o : list (Z * V)) :
  keysOrdered ((k, v) :: o) ->
  keysOrdered o /\ forall e, In e o -> keyPrecedes k (fst e).
Proof.
  unfold keysOrdered. cbn [map fst]. intros H.
  inversion H as [ | ? ? Hs Hall]; subst. split; [ exact Hs | ].
  intros e He. rewrite Forall_forall in Hall. apply Hall, in_map, He.
Qed.

Lemma keysOrdered_cons (k : Z) (v : V) (o : list (Z * V)) :
  keysOrdered o -> (forall e, In e o -> keyPrecedes k (fst e)) -> keysOrdered ((k, v) :: o).
Proof.
  unfold keysOrdered. cbn [map fst]. intros Hs Hall. constructor; [ exact Hs | ].
  rewrite Forall_forall. intros k' Hk'. apply in_map_iff in Hk'.
  destruct Hk' as (e & <- & He). apply Hall, He.
Qed.

(** What [before] decides, as a proposition. *)
Lemma before_spec (k k' : Z) :
  Obj.before k k' = true
  <-> Obj.isIndex k = true /\ (Obj.isIndex k' = false \/ (k < k')%Z).
Proof.
  unfold Obj.before. rewrite andb_true_iff, orb_true_iff, negb_true_iff, Z.ltb_lt.
  reflexivity.
Qed.

Lemma set_In (k : Z) (v : V) (o : list (Z * V)) (e : Z * V) :
  keysOrdered o ->
  (In e (Obj.set k v o) <-> e = (k, v) \/ (In e o /\ fst e <> k)).
Proof.
  induction o as [ | [k' v'] o IH]; intros Hs; cbn [Obj.set].
  - cbn [In]. intuition congruence.
  - destruct (keysOrdered_inv _ _ _ Hs) as [Hs' Hlt].
    destruct (Z.eqb_spec k k') as [-> | Hne].
    + cbn [In]. split.
      * intros [<- | He]; [ left; reflexivity | ].
        right. split; [ right; exact He | ]. destruct (Hlt e He) as [Hd _]. congruence.
      * intros [-> | [[<- | He] Hk]]; [ left; reflexivity | | right; exact He ].
        cbn [fst] in Hk. congruence.
    + destruct (Obj.before k k') eqn:Hb.
      * apply before_spec in Hb. destruct Hb as [Hik Hb].
        cbn [In]. split.
        -- intros [<- | [<- | He]]; [ left; reflexivity | | ].
           ++ right. split; [ left; reflexivity | cbn [fst]; congruence ].
           ++ right. split; [ right; exact He | ].
              destruct (Hlt e He) as [_ Hidx]. intros Heq. rewrite Heq in Hidx.
              destruct (Hidx Hik) as [Hik' Hlt']. destruct Hb as [Hb | Hb]; [ congruence | lia ].
        -- intros [-> | [[<- | He] Hk]]; auto.
      * cbn [In]. rewrite (IH Hs'). split.
        -- intros [<- | [-> | [He Hk]]].
           ++ right. split; [ left; reflexivity | cbn [fst]; congruence ].
           ++ left; reflexivity.
           ++ right. split; [ right; exact He | exact Hk ].
        -- intros [-> | [[<- | He] Hk]]; auto.
Qed.

(** Assignments keep the keys distinct and in enumeration order. *)
Lemma set_ordered (k : Z) (v : V) (o : list (Z * V)) :
  keysOrdered o -> keysOrdered (Obj.set k v o).
Proof.
  induction o as [ | [k' v'] o IH]; intros Hs; cbn [Obj.set].
  - apply keysOrdered_cons; [ constructor | intros e [] ].
  - destruct (keysOrdered_inv _ _ _ Hs) as [Hs' Hlt].
    destruct (Z.eqb_spec k k') as [-> | Hne].
    + apply keysOrdered_cons; assumption.
    + destruct (Obj.before k k') eqn:Hb.
      * apply before_spec in Hb. destruct Hb as [Hik Hb].
        assert (Hkk' : keyPrecedes k k').
        { split; [ exact Hne | ]. intros Hik'. split; [ exact Hik | ].
          destruct Hb as [Hb | Hb]; [ congruence | exact Hb ]. }
        apply keysOrdered_cons; [ exact Hs | ].
        intros e [<- | He]; [ exact Hkk' | ].
        destruct (Hlt e He) as [Hd Hidx]. split.
        -- intros Heq. rewrite <- Heq in Hidx. destruct (Hidx Hik) as [Hik' Hlt'].
           destruct Hb as [Hb | Hb]; [ congruence | lia ].
        -- intros Hie. destruct (Hidx Hie) as [Hik' Hlt'].
           split; [ exact Hik | ]. destruct Hb as [Hb | Hb]; [ congruence | lia ].
      * apply keysOrdered_cons; [ apply IH, Hs' | ].
        intros e He. apply (set_In k v o e Hs') in He.
        destruct He as [-> | [He _]]; [ | apply Hlt, He ].
        cbn [fst]. split; [ congruence | ]. intros Hik.
        destruct (Obj.isIndex k') eqn:Hik'.
        -- split; [ reflexivity | ].
           destruct (Z.lt_trichotomy k k') as [H | [H | H]]; [ | congruence | exact H ].
           exfalso. assert (Obj.before k k' = true) by (apply before_spec; auto). congruence.
        -- exfalso. assert (Obj.before k k' = true) by (apply before_spec; auto). congruence.
Qed.

Lemma get_In (k : Z) (v : V) (o : list (Z * V)) :
  keysOrdered o -> (Obj.get k o = Some v <-> In (k, v) o).
Proof.
  induction o as [ | [k' v'] o IH]; intros Hs; cbn [Obj.get In].
  - split; [ discriminate | intros [] ].
  - destruct (keysOrdered_inv _ _ _ Hs) as [Hs' Hlt].
    destruct (Z.eqb_spec k k') as [-> | Hne].
    + split.
      * intros [= ->]. left; reflexivity.
      * intros [[= ->] | He]; [ reflexivity | ].
        destruct (Hlt _ He) as [Hd _]. cbn [fst] in Hd. congruence.
    + rewrite (IH Hs'). split; [ auto | ].
      intros [[= -> ->] | He]; [ congruence | exact He ].
Qed.

(** When every key is an array index the keys are in ascending order. *)
Lemma keysOrdered_sorted (o : list (Z * V)) :
  keysOrdered o -> (forall e, In e o -> Obj.isIndex (fst e) = true) -> keysSorted o.
Proof.
  induction o as [ | [k v] o IH]; intros Hs Hidx; [ constructor | ].
  destruct (keysOrdered_inv _ _ _ Hs) as [Hs' Hlt].
  apply keysSorted_cons.
  - apply IH; [ exact Hs' | intros e He; apply Hidx; right; exact He ].
  - intros e He. destruct (Hlt e He) as [_ H]. apply H, Hidx. right; exact He.
Qed.

Lemma get_None_In (k : Z) (o : list (Z * V)) (e : Z * V) :
  Obj.get k o = None -> In e o -> fst e <> k.
Proof.
  induction o as [ | [k' v'] o IH]; cbn [Obj.get In]; [ intros _ [] | ].
  destruct (Z.eqb_spec k k') as [-> | Hne]; [ discriminate | ].
  intros Hg [<- | He]; [ cbn [fst]; congruence | apply IH; assumption ].
Qed.

End ObjFacts.

(** ** Alignment of two series by year

    [pearson] and [grangerTest] align their arguments with the same two
    passes over an object keyed by year; they differ in the values they
    keep: every value that is not [null] for the former, the finite ones
    for the latter. *)

Section Alignment.

Variable keep : float -> bool.

Lemma lastKept_snoc (k : Z) (p : TimeSeries) (d : TimePoint) :
  lastKept keep k (p ++ [d]) =
  match value d with
  | Some v => if keep v then (if (year d =? k)%Z then Some v else lastKept keep k p)
              else lastKept keep k p
  | None => lastKept keep k p
  end.
Proof. unfold lastKept. rewrite fold_left_app. reflexivity. Qed.

Lemma lastKept_In (k : Z) (s : TimeSeries) (v : float) :
  lastKept keep k s = Some v ->
  exists d, In d s /\ year d = k /\ value d = Some v /\ keep v = true.
Proof.
  induction s as [ | d p IH] using rev_ind; [ discriminate | ].
  rewrite lastKept_snoc. intros H.
  assert (Hp : lastKept keep k p = Some v ->
               exists d0, In d0 (p ++ [d]) /\ year d0 = k /\ value d0 = Some v /\ keep v = true).
  { intros H'. destruct (IH H') as (d0 & Hin & Hrest). exists d0.
    split; [ apply in_or_app; left; exact Hin | exact Hrest ]. }
  destruct (value d) as [w | ] eqn:E; [ | exact (Hp H) ].
  destruct (keep w) eqn:K; [ | exact (Hp H) ].
  destruct (Z.eqb_spec (year d) k) as [Hk | _]; [ | exact (Hp H) ].
  injection H as <-. exists d. split; [ apply in_or_app; right; left; reflexivity | auto ].
Qed.

Lemma firstPass_inv (a : TimeSeries) :
  keysOrdered (firstPass keep a) /\
  forall k x y, In (k, (x, y)) (firstPass keep a) <-> (lastKept keep k a = Some x /\ y = None).
Proof.
  unfold firstPass. induction a as [ | d p IH] using rev_ind.
  - split; [ constructor | ]. intros k x y. cbn. split; [ tauto | intros [H _]; discriminate ].
  - rewrite fold_left_app. cbn [fold_left]. destruct IH as [Hs Hin].
    assert (Hsame : forall k x y,
              In (k, (x, y)) (fold_left
                 (fun o d => match value d with
                             | Some v => if keep v then Obj.set (year d) (v, None) o else o
                             | None => o
                             end) p [])
              <-> lastKept keep k p = Some x /\ y = None) by exact Hin.
    destruct (value d) as [v | ] eqn:E.
    + destruct (keep v) eqn:K.
      * split; [ apply set_ordered, Hs | ].
        intros k x y. rewrite set_In by exact Hs. rewrite lastKept_snoc, E, K.
        cbn [fst]. rewrite Hsame.
        destruct (Z.eqb_spec (year d) k) as [<- | Hne].
        -- split.
           ++ intros [[= -> ->] | [_ Hk]]; [ auto | congruence ].
           ++ intros [[= ->] ->]. left; reflexivity.
        -- split.
           ++ intros [[= Hk _ _] | [H _]]; [ congruence | exact H ].
           ++ intros H. right. split; [ exact H | congruence ].
      * split; [ exact Hs | ]. intros k x y. rewrite lastKept_snoc, E, K. apply Hsame.
    + split; [ exact Hs | ]. intros k x y. rewrite lastKept_snoc, E. apply Hsame.
Qed.

(** After both passes an entry exists for each year that has a kept
    value in [a]; it holds the last such value and, as its second
    field, the last kept value of that year in [b], if any. *)
Lemma secondPass_inv (a b : TimeSeries) :
  keysOrdered (secondPass keep (firstPass keep a) b) /\
  forall k x y, In (k, (x, y)) (secondPass keep (firstPass keep a) b)
                <-> (lastKept keep k a = Some x /\ y = lastKept keep k b).
Proof.
  unfold secondPass. induction b as [ | d q IH] using rev_ind.
  - destruct (firstPass_inv a) as [Hs Hin]. split; [ exact Hs | ].
    intros k x y. cbn [fold_left]. rewrite Hin. unfold lastKept at 2. cbn [fold_left].
    split; intros [H ->]; auto.
  - rewrite fold_left_app. cbn [fold_left].
    set (o := fold_left _ q (firstPass keep a)) in *.
    destruct IH as [Hs Hin].
    destruct (value d) as [v | ] eqn:E.
    + destruct (keep v) eqn:K.
      * destruct (Obj.get (year d) o) as [[x0 y0] | ] eqn:G.
        -- split; [ apply set_ordered, Hs | ].
           intros k x y. rewrite set_In by exact Hs. rewrite lastKept_snoc, E, K.
           cbn [fst]. rewrite Hin.
           apply get_In in G; [ | exact Hs ]. apply Hin in G. destruct G as [Gx _].
           destruct (Z.eqb_spec (year d) k) as [<- | Hne].
           ++ split.
              ** intros [[= -> ->] | [_ Hk]]; [ auto | congruence ].
              ** intros [Hx ->]. left. congruence.
           ++ split.
              ** intros [[= Hk _ _] | [H _]]; [ congruence | exact H ].
              ** intros H. right. split; [ exact H | congruence ].
        -- split; [ exact Hs | ].
           intros k x y. rewrite lastKept_snoc, E, K. rewrite Hin.
           destruct (Z.eqb_spec (year d) k) as [<- | Hne]; [ | reflexivity ].
           split.
           ++ intros [Hx ->]. exfalso.
              assert (Hi : In (year d, (x, lastKept keep (year d) q)) o) by (apply Hin; auto).
              apply (get_None_In _ _ _ G Hi). reflexivity.
           ++ intros [Hx ->]. exfalso.
              assert (Hi : In (year d, (x, lastKept keep (year d) q)) o) by (apply Hin; auto).
              apply (get_None_In _ _ _ G Hi). reflexivity.
      * split; [ exact Hs | ]. intros k x y. rewrite lastKept_snoc, E, K. apply Hin.
    + split; [ exact Hs | ]. intros k x y. rewrite lastKept_snoc, E. apply Hin.
Qed.

(** The keys are years of [a]: array indices when those are, and then
    in ascending order. *)
Lemma secondPass_index (a b : TimeSeries) :
  indexYears a ->
  forall e, In e (secondPass keep (firstPass keep a) b) -> Obj.isIndex (fst e) = true.
Proof.
  intros Ha [k [x y]] He. apply (proj2 (secondPass_inv a b)) in He.
  destruct He as [Hx _]. destruct (lastKept_In _ _ _ Hx) as (d & Hd & <- & _).
  apply Ha, Hd.
Qed.

Lemma secondPass_sorted (a b : TimeSeries) :
  indexYears a -> keysSorted (secondPass keep (firstPass keep a) b).
Proof.
  intros Ha. apply keysOrdered_sorted;
    [ apply (proj1 (secondPass_inv a b)) | apply secondPass_index, Ha ].
Qed.

Lemma indexYears_forallb (s : TimeSeries) :
  forallb (fun d => Obj.isIndex (year d)) s = true -> indexYears s.
Proof. intros H d Hd. rewrite forallb_forall in H. apply H, Hd. Qed.

Lemma indexYears_perm (s s' : TimeSeries) :
  Permutation s s' -> indexYears s -> indexYears s'.
Proof.
  intros Hp Hs d Hd. apply Hs. apply (Permutation_in _ (Permutation_sym Hp)), Hd.
Qed.

End Alignment.

(** ** A series correlated with itself *)

Section PearsonSelf.
Import JS Engine.

Lemma pearsonByYear_passes (a b : TimeSeries) :
  pearsonByYear a b = secondPass notNull (firstPass notNull a) b.
Proof. reflexivity. Qed.

Lemma definedPairs_In (vs : list (float * option float)) (x y : float) :
  In (x, y) (definedPairs vs) <-> In (x, Some y) vs.
Proof.
  induction vs as [ | [a [b | ]] vs IH]; cbn [definedPairs In].
  - tauto.
  - rewrite IH. split; intros [[= -> ->] | H]; auto.
  - rewrite IH. split; [ auto | intros [H | H]; [ discriminate | exact H ] ].
Qed.

(** The pairs that enter the correlation: for each year, the last value
    of [a] and the last value of [b] that are not [null], whether they
    are finite or not. *)
Lemma pearsonPairs_spec (a b : TimeSeries) (x y : float) :
  In (x, y) (pearsonPairs a b) <->
  exists k, lastKept notNull k a = Some x /\ lastKept notNull k b = Some y.
Proof.
  unfold pearsonPairs. rewrite definedPairs_In, pearsonByYear_passes.
  unfold Obj.values. rewrite in_map_iff.
  destruct (secondPass_inv notNull a b) as [_ Hin]. split.
  - intros ([k e] & He & Hk). cbn [snd] in He. subst e.
    apply Hin in Hk. exists k. destruct Hk as [Hx Hy]. auto.
  - intros (k & Hx & Hy). exists (k, (x, Some y)). split; [ reflexivity | ].
    apply Hin. auto.
Qed.

Lemma definedPairs_diag (vs : list (float * option float)) :
  (forall a b, In (a, b) vs -> b = Some a) ->
  definedPairs vs = map (fun e => (fst e, fst e)) vs.
Proof.
  induction vs as [ | [a b] vs IH]; intros H; cbn [definedPairs map fst].
  - reflexivity.
  - rewrite (H a b) by (left; reflexivity).
    rewrite IH by (intros a' b' Hin; apply H; right; exact Hin). reflexivity.
Qed.

(** Aligned with itself, a series yields pairs of equal components. *)
Lemma pearsonPairs_self (s : TimeSeries) :
  pearsonPairs s s
  = map (fun e => (fst e, fst e)) (Obj.values (pearsonByYear s s)).
Proof.
  unfold pearsonPairs. apply definedPairs_diag.
  intros a b Hin. unfold Obj.values in Hin. apply in_map_iff in Hin.
  destruct Hin as ([k e] & He & Hin). cbn [snd] in He. subst e.
  rewrite pearsonByYear_passes in Hin.
  apply (proj2 (secondPass_inv notNull s s)) in Hin. destruct Hin as [Ha ->]. exact Ha.
Qed.

(** The three accumulators coincide when both columns are the same. *)
Lemma pearsonSums_self_from (xs : list float) (m : float) (idx : list nat) (a : float) :
  fold_left
    (fun acc i =>
       let '(num, dx, dy) := acc in
       let ex := (at_ xs i - m)%float in
       let ey := (at_ xs i - m)%float in
       ((num + ex * ey)%float, (dx + ex * ex)%float, (dy + ey * ey)%float))
    idx (a, a, a)
  = (let d := fold_left (fun acc i => (acc + (at_ xs i - m) * (at_ xs i - m))%float) idx a
     in (d, d, d)).
Proof.
  revert a. induction idx as [ | i idx IH]; intros a; cbn [fold_left].
  - reflexivity.
  - apply IH.
Qed.

Lemma pearsonSums_self (xs : list float) (m : float) (n : nat) :
  pearsonSums xs xs m m n
  = (let d := fold_left (fun acc i => (acc + (at_ xs i - m) * (at_ xs i - m))%float)
                        (range 0 n) 0%float
     in (d, d, d)).
Proof. apply pearsonSums_self_from. Qed.

End PearsonSelf.

(** C4, as stated, fails: the constant series 5, 5, 5 has three valid
    points and correlates with itself at 0, not 1. *)
Lemma pearson_self_constant_is_zero :
  length (Engine.validPoints constantSeries) = 3 /\
  Engine.pearson constantSeries constantSeries <> Some 1%float.
Proof.
  split; [ reflexivity | ]. vm_compute. discriminate.
Qed.

(** With no value that is infinite or NaN, the values that are not
    [null] are the finite ones. *)
Lemma lastKept_finite (s : TimeSeries) (k : Z) :
  Forall (fun p => value p = None \/ validValue (value p) = true) s ->
  lastKept notNull k s = lastKept JS.isFinite k s.
Proof.
  intros H. induction s as [ | d p IH] using rev_ind; [ reflexivity | ].
  apply Forall_app in H. destruct H as [Hp Hd].
  rewrite !lastKept_snoc, (IH Hp).
  inversion Hd as [ | ? ? [Hv | Hv] _]; subst.
  - rewrite Hv. reflexivity.
  - destruct (value d) as [v | ]; [ | reflexivity ].
    cbn [validValue] in Hv. rewrite Hv. reflexivity.
Qed.

(** C4, amended. Take a series whose values are [null] or finite.
    Aligned with itself it yields pairs of equal values, one per year
    that carries a finite value (the last such value of the year). With
    fewer than three of them the answer is [null]. With three or more,
    let [d] be the sum of their squared deviations from the mean, as the
    loop accumulates it: the answer is 1.0 whenever [d] lies from 2^-511
    up to 2^512, where [d * d] neither underflows nor overflows, and it
    is 0 when the denominator [sqrt(d * d)] is 0, as it is for the
    constant series 5, 5, 5. *)
Theorem pearson_self_amended (s : TimeSeries) :
  Forall (fun p => value p = None \/ validValue (value p) = true) s ->
  let pairs := Engine.pearsonPairs s s in
  let xs := map fst pairs in
  let d := squaredDeviations xs in
  (forall x y, In (x, y) pairs <->
               x = y /\ exists k, lastKept JS.isFinite k s = Some x) /\
  (Engine.pearson s s = None <-> length xs < 3) /\
  (3 <= length xs -> (JS.Math_sqrt (d * d) =? 0)%float = true ->
   Engine.pearson s s = Some 0%float) /\
  (3 <= length xs -> FloatKey.midRange d = true ->
   Engine.pearson s s = Some 1%float).
Proof.
  intros Hfin pairs xs d.
  assert (Hdiag : Forall (fun p => fst p = snd p) pairs).
  { subst pairs. rewrite pearsonPairs_self. rewrite Forall_forall.
    intros p Hp. apply in_map_iff in Hp. destruct Hp as (e & <- & _). reflexivity. }
  assert (Hys : map snd pairs = xs).
  { subst xs. clear -Hdiag. induction Hdiag as [ | p l Hp _ IH]; cbn [map].
    - reflexivity.
    - rewrite Hp, IH. reflexivity. }
  assert (Hlen : length xs = length pairs) by (subst xs; apply length_map).
  assert (Hval : 3 <= length xs ->
            Engine.pearson s s
            = Some (if (JS.Math_sqrt (d * d) =? 0)%float then 0%float
                    else (JS.Math_round (d / JS.Math_sqrt (d * d) * 1000) / 1000)%float)).
  { intros H3. unfold Engine.pearson, Engine.pearsonOfPairs. fold pairs.
    destruct (Nat.ltb_spec (length pairs) 3) as [Hlt | _]; [ lia | ].
    cbv zeta. rewrite Hys. fold xs. rewrite pearsonSums_self.
    cbv zeta. subst d. unfold squaredDeviations. rewrite Hlen. reflexivity. }
  split; [ | split; [ | split ] ].
  - intros x y. subst pairs. rewrite pearsonPairs_spec. split.
    + intros (k & Hx & Hy). split; [ congruence | ].
      exists k. rewrite <- (lastKept_finite s k Hfin). exact Hx.
    + intros (-> & k & Hx). rewrite <- (lastKept_finite s k Hfin) in Hx. eauto.
  - unfold Engine.pearson, Engine.pearsonOfPairs. fold pairs. rewrite Hlen.
    destruct (Nat.ltb_spec (length pairs) 3) as [Hlt | Hge].
    + split; [ intros _; exact Hlt | reflexivity ].
    + split; [ | lia ].
      destruct (Engine.pearsonSums _ _ _ _ _) as [[? ?] ?]. discriminate.
  - intros H3 Hd. rewrite (Hval H3), Hd. reflexivity.
  - intros H3 Hd. rewrite (Hval H3). unfold JS.Math_sqrt.
    rewrite (FloatExact.sqrt_square d Hd), (FloatExact.midRange_not_zero d Hd),
      (FloatExact.div_self d Hd).
    vm_compute. reflexivity.
Qed.

(** The amended statement applies to the series 1, 2, 4. *)
Lemma pearson_self_amended_witness :
  Engine.pearson risingSeries risingSeries = Some 1%float.
Proof.
  refine (proj2 (proj2 (proj2 (pearson_self_amended risingSeries _))) _ _).
  - repeat constructor; right; reflexivity.
  - vm_compute. lia.
  - vm_compute. reflexivity.
Defined.

(** Why the range is part of the statement: on 1e200, 2e200, 3e200
    the squared deviations overflow, the denominator is infinite and the
    result is NaN. *)
Example pearson_self_overflow :
  squaredDeviations (map fst (Engine.pearsonPairs hugeSeries hugeSeries)) = infinity /\
  Engine.pearson hugeSeries hugeSeries = Some nan.
Proof. split; vm_compute; reflexivity. Qed.

(** ** The correlation matrix *)

Section CorrelationMatrix.
Import JS Engine.

Lemma length_set_nth {A} (i : nat) (v : A) (l : list A) :
  length (set_nth i v l) = length l.
Proof.
  revert i. induction l as [ | x l IH]; intros [ | i]; cbn [set_nth length];
    try reflexivity. rewrite IH. reflexivity.
Qed.

Lemma nth_set_nth_eq {A} (i : nat) (v : A) (l : list A) (d : A) :
  i < length l -> nth i (set_nth i v l) d = v.
Proof.
  revert i. induction l as [ | x l IH]; intros [ | i]; cbn [set_nth length nth];
    try lia; try reflexivity. intros H. apply IH. lia.
Qed.

Lemma nth_set_nth_ne {A} (i j : nat) (v : A) (l : list A) (d : A) :
  i <> j -> nth j (set_nth i v l) d = nth j l d.
Proof.
  revert i j. induction l as [ | x l IH]; intros [ | i] [ | j] H;
    cbn [set_nth nth]; try reflexivity; try congruence.
  apply IH. congruence.
Qed.

Lemma setCell_dims (k : nat) (M : cmatrix) (i j : nat) (v : option float) :
  dims k M -> dims k (setCell M i j v).
Proof.
  intros [Hl Hr]. unfold setCell. split.
  - rewrite length_set_nth. exact Hl.
  - intros a Ha. destruct (Nat.eq_dec i a) as [-> | Hne].
    + rewrite nth_set_nth_eq by lia. rewrite length_set_nth. apply Hr, Ha.
    + rewrite nth_set_nth_ne by exact Hne. apply Hr, Ha.
Qed.

Lemma cell_setCell (k : nat) (M : cmatrix) (i j : nat) (v : option float) (a b : nat) :
  dims k M -> i < k -> j < k ->
  cell (setCell M i j v) a b = if (a =? i) && (b =? j) then v else cell M a b.
Proof.
  intros [Hl Hr] Hi Hj. unfold cell, setCell.
  destruct (Nat.eqb_spec a i) as [-> | Hne]; cbn [andb].
  - rewrite nth_set_nth_eq by lia.
    destruct (Nat.eqb_spec b j) as [-> | Hne'].
    + apply nth_set_nth_eq. rewrite Hr; lia.
    + apply nth_set_nth_ne. congruence.
  - rewrite nth_set_nth_ne by congruence. reflexivity.
Qed.

Ltac by_cases :=
  repeat match goal with
         | |- context [?a =? ?b] => destruct (Nat.eqb_spec a b)
         | |- context [?a <? ?b] => destruct (Nat.ltb_spec a b)
         end;
  cbn [andb orb]; try reflexivity; try lia.

Lemma pairR_lo_hi (datasets : list Dataset) (i j : nat) :
  i < j -> pairR datasets i j = pearson (dataAt datasets i) (dataAt datasets j).
Proof. intros H. unfold pairR. rewrite Nat.min_l, Nat.max_r by lia. reflexivity. Qed.

Lemma pairR_sym (datasets : list Dataset) (a b : nat) :
  pairR datasets a b = pairR datasets b a.
Proof. unfold pairR. rewrite Nat.min_comm, Nat.max_comm. reflexivity. Qed.

Lemma fill_inner (datasets : list Dataset) (k i : nat) (n j : nat) (M : cmatrix) :
  i < j -> j + n = k -> filled datasets k i j M ->
  filled datasets k i k
    (fold_left
       (fun M' j =>
          let r := pearson (dataAt datasets i) (dataAt datasets j) in
          setCell (setCell M' i j r) j i r)
       (seq j n) M).
Proof.
  revert j M. induction n as [ | n IH]; intros j M Hij Hk HM; cbn [seq fold_left].
  - assert (E : j = k) by lia. subst j. exact HM.
  - apply IH; [ lia | lia | ]. destruct HM as [Hd Hc]. split.
    + apply setCell_dims, setCell_dims, Hd.
    + intros a b Ha Hb.
      rewrite (cell_setCell k) by (try apply setCell_dims; auto; lia).
      rewrite (cell_setCell k) by (auto; lia).
      rewrite (Hc a b Ha Hb). unfold fillState.
      destruct (Nat.eqb_spec a j) as [-> | Haj];
        destruct (Nat.eqb_spec b i) as [-> | Hbi]; cbn [andb].
      * rewrite pairR_sym, pairR_lo_hi by lia. by_cases.
      * destruct (Nat.eqb_spec j i); [ lia | ]. cbn [andb]. by_cases.
      * destruct (Nat.eqb_spec a i) as [-> | Hai]; cbn [andb]; by_cases.
      * destruct (Nat.eqb_spec a i) as [-> | Hai];
          destruct (Nat.eqb_spec b j) as [-> | Hbj]; cbn [andb].
        -- rewrite pairR_lo_hi by lia. by_cases.
        -- by_cases.
        -- by_cases.
        -- by_cases.
Qed.

Lemma fill_outer (datasets : list Dataset) (k : nat) (n i : nat) (M : cmatrix) :
  i + n = k -> filled datasets k i i M ->
  filled datasets k k k
    (fold_left
       (fun M i =>
          fold_left
            (fun M' j =>
               let r := pearson (dataAt datasets i) (dataAt datasets j) in
               setCell (setCell M' i j r) j i r)
            (range (S i) k) (setCell M i i (Some 1%float)))
       (seq i n) M).
Proof.
  revert i M. induction n as [ | n IH]; intros i M Hk HM; cbn [seq fold_left].
  - assert (E : i = k) by lia. subst i. exact HM.
  - apply IH; [ lia | ].
    assert (H1 : filled datasets k i (S i) (setCell M i i (Some 1%float))).
    { destruct HM as [Hd Hc]. split; [ apply setCell_dims, Hd | ].
      intros a b Ha Hb. rewrite (cell_setCell k) by (auto; lia).
      rewrite (Hc a b Ha Hb). unfold fillState.
      destruct (Nat.eqb_spec a i) as [-> | Hai];
        destruct (Nat.eqb_spec b i) as [-> | Hbi]; cbn [andb]; by_cases. }
    unfold range.
    pose proof (fill_inner datasets k i (k - S i) (S i) _ ltac:(lia) ltac:(lia) H1)
      as [Hd Hc].
    split; [ exact Hd | ].
    intros a b Ha Hb.
    transitivity (fillState datasets i k a b); [ exact (Hc a b Ha Hb) | ].
    unfold fillState. by_cases.
Qed.

(** The matrix after the first pair of loops. *)
Lemma fillMatrix_cells (datasets : list Dataset) :
  let k := length datasets in
  dims k (fillMatrix datasets) /\
  forall a b, a < k -> b < k ->
    cell (fillMatrix datasets) a b
    = if a =? b then Some 1%float else pairR datasets a b.
Proof.
  intros k. unfold fillMatrix. fold k.
  assert (Hr : range 0 k = seq 0 k) by (unfold range; f_equal; lia).
  rewrite Hr.
  assert (H0 : filled datasets k 0 0 (repeat (repeat None k) k)).
  { split.
    - split; [ apply repeat_length | ].
      intros a Ha. rewrite nth_repeat_lt by exact Ha. apply repeat_length.
    - intros a b Ha Hb. unfold cell.
      rewrite nth_repeat_lt by exact Ha. rewrite nth_repeat_lt by exact Hb.
      unfold fillState. by_cases. }
  pose proof (fill_outer datasets k k 0 _ ltac:(lia) H0) as [Hd Hc].
  split; [ exact Hd | ].
  intros a b Ha Hb.
  transitivity (fillState datasets k k a b); [ exact (Hc a b Ha Hb) | ].
  unfold fillState. by_cases.
Qed.

End CorrelationMatrix.

(** ** The insight list *)

Section Insights.
Import JS Engine.

(** A loop that pushes the results it gets collects exactly those. *)
Lemma push_loop_In {A B} (f : B -> option A) (l : list B) (acc : list A) (x : A) :
  In x (fold_left (fun acc b => match f b with Some a => acc ++ [a] | None => acc end)
                  l acc)
  <-> In x acc \/ exists b, In b l /\ f b = Some x.
Proof.
  revert acc. induction l as [ | b l IH]; intros acc; cbn [fold_left].
  - split; [ auto | intros [H | (b & [] & _)]; exact H ].
  - rewrite IH. destruct (f b) as [a | ] eqn:E.
    + rewrite in_app_iff. cbn [In]. split.
      * intros [[H | [<- | []]] | (b' & Hb' & Hf)].
        -- auto.
        -- right. exists b. auto.
        -- right. exists b'. auto.
      * intros [H | (b' & [<- | Hb'] & Hf)].
        -- auto.
        -- left. right. left. congruence.
        -- right. exists b'. auto.
    + split.
      * intros [H | (b' & Hb' & Hf)].
        -- auto.
        -- right. exists b'. cbn [In]. auto.
      * intros [H | (b' & [<- | Hb'] & Hf)].
        -- auto.
        -- congruence.
        -- right. exists b'. auto.
Qed.

Lemma rawInsights_from_In (labels : list string) (M : cmatrix) (k : nat)
  (rows : list nat) (acc : list Insight) (x : Insight) :
  In x (fold_left
          (fun acc i =>
             fold_left
               (fun acc' j =>
                  match insightOf labels M i j with
                  | Some ins => acc' ++ [ins]
                  | None => acc'
                  end)
               (range (S i) k) acc)
          rows acc)
  <-> In x acc \/
      exists i j, In i rows /\ In j (range (S i) k) /\ insightOf labels M i j = Some x.
Proof.
  revert acc. induction rows as [ | i rows IH]; intros acc; cbn [fold_left].
  - split; [ auto | intros [H | (i & j & [] & _)]; exact H ].
  - rewrite IH, (push_loop_In (insightOf labels M i)). split.
    + intros [[H | (j & Hj & Hf)] | (i' & j & Hi' & Hj & Hf)].
      * auto.
      * right. exists i, j. cbn [In]. auto.
      * right. exists i', j. cbn [In]. auto.
    + intros [H | (i' & j & [<- | Hi'] & Hj & Hf)].
      * auto.
      * left. right. exists j. auto.
      * right. exists i', j. auto.
Qed.

(** What the loops push: one insight per cell above the diagonal that
    holds a correlation of magnitude at least 0.45. *)
Lemma rawInsights_In (labels : list string) (M : cmatrix) (k : nat) (x : Insight) :
  In x (rawInsights labels M k)
  <-> exists i j, i < j < k /\ insightOf labels M i j = Some x.
Proof.
  unfold rawInsights. rewrite rawInsights_from_In. split.
  - intros [[] | (i & j & Hi & Hj & Hf)]. exists i, j. split; [ | exact Hf ].
    unfold range in Hi, Hj. apply in_seq in Hi, Hj. lia.
  - intros (i & j & Hij & Hf). right. exists i, j.
    unfold range. rewrite !in_seq. repeat split; try lia. exact Hf.
Qed.

Lemma insightOf_Some (labels : list string) (M : cmatrix) (i j : nat) (x : Insight) :
  insightOf labels M i j = Some x ->
  cell M i j = Some (r x) /\ (0.45 <=? Math_abs (r x))%float = true.
Proof.
  unfold insightOf. destruct (cell M i j) as [v | ]; [ | discriminate ].
  destruct (0.45 <=? Math_abs v)%float eqn:E; [ | discriminate ].
  intros [= <-]. cbn [r]. auto.
Qed.

Lemma StronglySorted_firstn {A} (R : A -> A -> Prop) (n : nat) (l : list A) :
  StronglySorted R l -> StronglySorted R (firstn n l).
Proof.
  intros H. revert n. induction H as [ | a l Hs IH Hall]; intros [ | n]; cbn [firstn];
    try constructor.
  - apply IH.
  - rewrite Forall_forall in *. intros x Hx. apply Hall.
    apply (In_nth _ _ a) in Hx. destruct Hx as (m & Hm & <-).
    rewrite length_firstn in Hm. rewrite nth_firstn.
    destruct (Nat.ltb_spec m n); [ apply nth_In; lia | lia ].
Qed.

Lemma StronglySorted_weaken {A} (R R' : A -> A -> Prop) (l : list A) :
  (forall a b, In a l -> In b l -> R a b -> R' a b) ->
  StronglySorted R l -> StronglySorted R' l.
Proof.
  intros H Hs. induction Hs as [ | a l Hs IH Hall]; constructor.
  - apply IH. intros x y Hx Hy. apply H; right; assumption.
  - rewrite Forall_forall in *. intros x Hx.
    apply H; [ left; reflexivity | right; exact Hx | apply Hall, Hx ].
Qed.

Lemma In_firstn {A} (n : nat) (l : list A) (x : A) : In x (firstn n l) -> In x l.
Proof.
  revert n. induction l as [ | a l IH]; intros [ | n]; cbn [firstn In]; try tauto.
  intros [H | H]; [ left; exact H | right; apply (IH n), H ].
Qed.

(** The insight sort orders its candidates by decreasing magnitude. *)
Lemma insights_sorted (cands : list Insight) :
  (forall x, In x cands -> (0.45 <=? Math_abs (r x))%float = true) ->
  StronglySorted (fun a b => (Math_abs (r b) <=? Math_abs (r a))%float = true)
                 (sort byAbsDesc cands).
Proof.
  intros Hc.
  assert (Hn : forall x, In x cands -> is_nan (Math_abs (r x)) = false)
    by (intros x Hx; apply (FloatOrder.leb_not_nan _ _ (Hc x Hx))).
  apply (StronglySorted_weaken
           (fun a b => (Math_abs (r a) <? Math_abs (r b))%float = false)).
  - intros a b Ha Hb H. apply sort_In in Ha, Hb.
    apply FloatOrder.ltb_false_leb; auto.
  - apply sort_sorted. repeat split.
    + intros x y _ _. unfold gt0, byAbsDesc. apply FloatOrder.sub_gt0.
    + intros x y _ _. apply FloatOrder.ltb_asym.
    + intros x y z Hx Hy Hz. apply FloatOrder.ltb_false_trans; auto.
Qed.

End Insights.

(** C8. For every list of datasets the matrix of [pearsonMatrix] is
    square, of the size of the list; every diagonal entry is 1.0; the
    entries [(i, j)] and [(j, i)] are equal, both being the correlation
    of dataset [i] with dataset [j] for [i < j]; every insight stems from a
    cell above the diagonal whose correlation has a magnitude of at
    least 0.45; the insights are in order of decreasing magnitude; and
    there are at most five of them. *)
Theorem pearsonMatrix_shape_and_insights (datasets : list Engine.Dataset) :
  let k := length datasets in
  let res := Engine.pearsonMatrix datasets in
  let M := Engine.cmat res in
  (length M = k /\ forall i, i < k -> length (nth i M []) = k) /\
  (forall i, i < k -> Engine.cell M i i = Some 1%float) /\
  (forall i j, i < k -> j < k -> Engine.cell M i j = Engine.cell M j i) /\
  (forall i j, i < j < k ->
     Engine.cell M i j
     = Engine.pearson (Engine.dataAt datasets i) (Engine.dataAt datasets j)) /\
  (forall x, In x (Engine.insights res) ->
     (0.45 <=? JS.Math_abs (Engine.r x))%float = true /\
     exists i j, i < j < k /\ Engine.cell M i j = Some (Engine.r x)) /\
  StronglySorted
    (fun a b => (JS.Math_abs (Engine.r b) <=? JS.Math_abs (Engine.r a))%float = true)
    (Engine.insights res) /\
  length (Engine.insights res) <= 5.
Proof.
  intros k res M.
  destruct (fillMatrix_cells datasets) as [Hd Hc]. fold k in Hd, Hc.
  assert (Hraw : forall x,
            In x (Engine.rawInsights (map Engine.label datasets)
                                     (Engine.fillMatrix datasets) k) ->
            (0.45 <=? JS.Math_abs (Engine.r x))%float = true /\
            exists i j, i < j < k /\
                        Engine.cell (Engine.fillMatrix datasets) i j = Some (Engine.r x)).
  { intros x Hx. apply rawInsights_In in Hx. destruct Hx as (i & j & Hij & Hf).
    apply insightOf_Some in Hf. destruct Hf as [Hcell Habs].
    split; [ exact Habs | ]. exists i, j. auto. }
  subst res M. unfold Engine.pearsonMatrix. cbn [Engine.cmat Engine.insights]. fold k.
  split; [ exact Hd | ]. split; [ | split; [ | split; [ | split; [ | split ] ] ] ].
  - intros i Hi. rewrite (Hc i i Hi Hi), Nat.eqb_refl. reflexivity.
  - intros i j Hi Hj. rewrite (Hc i j Hi Hj), (Hc j i Hj Hi).
    rewrite (Nat.eqb_sym j i), (pairR_sym datasets j i). reflexivity.
  - intros i j Hij. rewrite (Hc i j) by lia.
    destruct (Nat.eqb_spec i j); [ lia | ]. apply pairR_lo_hi. lia.
  - intros x Hx. apply In_firstn in Hx. apply sort_In in Hx. apply Hraw, Hx.
  - apply StronglySorted_firstn, insights_sorted.
    intros x Hx. apply Hraw, Hx.
  - rewrite length_firstn. lia.
Qed.

(** The statement at work on three datasets. *)
Lemma pearsonMatrix_shape_and_insights_witness :
  let M := Engine.cmat (Engine.pearsonMatrix sampleDatasets) in
  length M = 3 /\
  Engine.cell M 2 2 = Some 1%float /\
  Engine.cell M 2 0 = Engine.cell M 0 2 /\
  Engine.cell M 0 1 = Engine.pearson driverX followerY /\
  length (Engine.insights (Engine.pearsonMatrix sampleDatasets)) <= 5.
Proof.
  destruct (pearsonMatrix_shape_and_insights sampleDatasets)
    as ((Hlen & _) & Hdiag & Hsym & Hcell & _ & _ & Hfive).
  cbv zeta.
  split; [ exact Hlen | ].
  split; [ apply Hdiag; vm_compute; lia | ].
  split; [ apply Hsym; vm_compute; lia | ].
  split; [ exact (Hcell 0 1 ltac:(vm_compute; lia)) | exact Hfive ].
Defined.

(** ** The composite risk scorer *)

(** What the scorer yields for one year, in general: the signals are
    accumulated over the indicators present, the probability is
    [min(1, sum(signal * weight) / sum(weight present))], or 0 when no
    weight was accumulated, and the risk level is read off the four
    thresholds. *)
Lemma yearEntry_formula (yr : Z) (yd : Recession.YearValues)
  (prevYearData : option Recession.YearValues) :
  let a := Recession.accumulate yd prevYearData in
  let p := if (0 <? Recession.totalWeight a)%float
           then JS.Math_min 1 (Recession.compositeSignal a / Recession.totalWeight a)%float
           else 0%float in
  Recession.riskLevel (Recession.yearEntry yr yd prevYearData)
  = (if (0.6 <=? p)%float then "high"
     else if (0.35 <=? p)%float then "elevated"
     else if (0.15 <=? p)%float then "moderate" else "low")%string /\
  Recession.y_probability (Recession.yearEntry yr yd prevYearData)
  = JS.Math_round (p * 100).
Proof. split; reflexivity. Qed.

(** The prior value handed to a signal function is [null] not only when
    the year before has no entry for the indicator, but also when that
    entry is zero. *)
Lemma prevValue_None (prev : Recession.YearValues) (c : string) :
  Recession.prevValue (Some prev) c = None <->
  Recession.getCode c prev = None \/
  exists v, Recession.getCode c prev = Some v /\ ((v =? 0)%float || is_nan v = true).
Proof.
  unfold Recession.prevValue. destruct (Recession.getCode c prev) as [v | ].
  - destruct ((v =? 0)%float || is_nan v) eqn:E; split.
    + intros _. right. exists v. auto.
    + reflexivity.
    + discriminate.
    + intros [H | (v' & [= <-] & H)]; congruence.
  - split; [ auto | reflexivity ].
Qed.

(** C7. FDI inflows of 0 in 2000 and -3 in 2001: the prior value is
    available and the drop of 3 points calls for the signal 0.8, hence
    the probability [min(1, 0.8 * 0.1 / 0.1)] and the level [high] for
    2001.  The scorer passes [null] for the prior value instead, the
    signal is 0 and the year is rated [low] with probability 0.  With
    0.001 in place of 0 the year is rated [high], at 80 percent. *)
Theorem predictRecession_prior_zero_dropped :
  riskLevels (fdiOnly 0)
    = [(2000%Z, 0%float, "low"%string); (2001%Z, 0%float, "low"%string);
       (2002%Z, 0%float, "low"%string)] /\
  riskLevels (fdiOnly 0.001)
    = [(2000%Z, 0%float, "low"%string); (2001%Z, 80%float, "high"%string);
       (2002%Z, 0%float, "low"%string)] /\
  (let fdi := nth 4 Recession.RECESSION_INDICATORS
                  (Recession.mkIndicator EmptyString EmptyString 0 (fun _ _ => 0%float)) in
   Recession.signal fdi (-3)%float (Some 0%float) = 0.8%float /\
   Recession.riskLevelOf
     (JS.Math_min 1 (0.8 * Recession.weight fdi / Recession.weight fdi)%float)
   = "high"%string).
Proof.
  repeat split; vm_compute; reflexivity.
Qed.

(** ** The Granger test *)

Section GrangerFacts.
Import JS Causal.

Variable Math_log Math_exp : float -> float.

Local Abbreviation lagBody := (Causal.lagBody Math_log Math_exp).
Local Abbreviation lagLoop := (Causal.lagLoop Math_log Math_exp).
Local Abbreviation lagP := (Causal.lagP Math_log Math_exp).
Local Abbreviation grangerTest := (Causal.grangerTest Math_log Math_exp).

Lemma computeOLSResiduals_None (X : matrix) (y : list float) :
  computeOLSResiduals X y = None <-> length X <= length (row X 0) \/ singular X y.
Proof.
  unfold computeOLSResiduals, singular.
  destruct (Nat.leb_spec (length X) (length (row X 0))) as [H | H].
  - split; [ auto | reflexivity ].
  - destruct (solveLinearSystem _ _); split; try discriminate; auto.
    intros [H' | H']; [ lia | discriminate ].
Qed.

Lemma restrictedRows_shape (aligned : list AlignedPoint) (n L : nat) :
  L < n ->
  length (restrictedRows aligned n L) = n - L /\
  length (row (restrictedRows aligned n L) 0) = S L.
Proof.
  intros H. unfold restrictedRows, row, range. rewrite length_map, length_seq.
  split; [ reflexivity | ].
  destruct (n - L) as [ | m] eqn:E; [ lia | ]. cbn [seq map nth length].
  rewrite length_map, length_seq. lia.
Qed.

Lemma unrestrictedRows_shape (aligned : list AlignedPoint) (n L : nat) :
  L < n ->
  length (unrestrictedRows aligned n L) = n - L /\
  length (row (unrestrictedRows aligned n L) 0) = S (L + L).
Proof.
  intros H. unfold unrestrictedRows, row, range. rewrite length_map, length_seq.
  split; [ reflexivity | ].
  destruct (n - L) as [ | m] eqn:E; [ lia | ]. cbn [seq map nth length].
  rewrite length_app, !length_map, !length_seq. lia.
Qed.

(** The lag loop collects the lags whose body does not [continue]. *)
Lemma lagLoop_In (aligned : list AlignedPoint) (n : nat) (lags : list nat) (r : LagResult) :
  In r (lagLoop aligned n lags) <-> exists L, In L lags /\ lagBody aligned n L = Some r.
Proof.
  unfold Causal.lagLoop. rewrite (push_loop_In (lagBody aligned n)). cbn [In]. tauto.
Qed.

(** When the body of the loop produces an entry: enough effective
    observations, both regressions solved, a residual sum that is not
    [<= 0]; the entry records the rounded p-value and, as [significant],
    the comparison of the p-value itself with 0.05. *)
Lemma lagBody_Some (aligned : list AlignedPoint) (n L : nat) (r : LagResult) :
  lagBody aligned n L = Some r <->
  2 * L + 2 <= n - L /\
  exists rssR rssU,
    let yVals := map ay (skipn L aligned) in
    let dfDen := (Z.of_nat (n - L) - 2 * Z.of_nat L - 1)%Z in
    let p := lagP rssR rssU L dfDen in
    computeOLSResiduals (restrictedRows aligned n L) yVals = Some rssR /\
    computeOLSResiduals (unrestrictedRows aligned n L) yVals = Some rssU /\
    (rssU <=? 0)%float = false /\ (0 < dfDen)%Z /\
    r = mkLag L (Math_round (lagF rssR rssU L dfDen * 1000) / 1000)%float
              (Math_round (p * 10000) / 10000)%float
              (p <? 0.05)%float rssR rssU (n - L).
Proof.
  unfold Causal.lagBody.
  destruct (Nat.ltb_spec (n - L) (L * 2 + 2)) as [Hn | Hn].
  - split; [ discriminate | intros [H _]; lia ].
  - destruct (computeOLSResiduals (restrictedRows aligned n L) _) as [rssR | ].
    + destruct (computeOLSResiduals (unrestrictedRows aligned n L) _) as [rssU | ].
      * destruct (rssU <=? 0)%float eqn:E.
        -- split; [ discriminate | ].
           intros (_ & a & b & _ & [= <-] & Hb & _). cbv zeta in Hb. congruence.
        -- destruct (Z.leb_spec (Z.of_nat (n - L) - 2 * Z.of_nat L - 1) 0) as [Hd | Hd].
           ++ split; [ discriminate | ].
              intros (_ & a & b & _ & _ & _ & Hpos & _). cbv zeta in Hpos. lia.
           ++ split.
              ** intros [= <-]. split; [ lia | ].
                 exists rssR, rssU. cbv zeta. repeat split; auto.
              ** intros (_ & a & b & [= <-] & [= <-] & _ & _ & ->). reflexivity.
      * split; [ discriminate | ].
        intros (_ & a & b & _ & Hb & _). discriminate.
    + split; [ discriminate | ].
      intros (_ & a & b & Ha & _). discriminate.
Qed.

(** With [3 * maxLag + 2] aligned observations, the only ways for a lag
    up to [maxLag] to be skipped are a singular regression and an
    unrestricted residual sum that is [<= 0]. *)
Lemma lagBody_None (aligned : list AlignedPoint) (n maxLag L : nat) :
  3 * maxLag + 2 <= n -> 1 <= L <= maxLag ->
  let yVals := map ay (skipn L aligned) in
  (lagBody aligned n L = None <->
   singular (restrictedRows aligned n L) yVals \/
   singular (unrestrictedRows aligned n L) yVals \/
   exists rssU,
     computeOLSResiduals (unrestrictedRows aligned n L) yVals = Some rssU /\
     (rssU <=? 0)%float = true).
Proof.
  intros Hn HL yVals.
  destruct (restrictedRows_shape aligned n L ltac:(lia)) as [Hr1 Hr2].
  destruct (unrestrictedRows_shape aligned n L ltac:(lia)) as [Hu1 Hu2].
  pose proof (computeOLSResiduals_None (restrictedRows aligned n L) yVals) as HR.
  pose proof (computeOLSResiduals_None (unrestrictedRows aligned n L) yVals) as HU.
  rewrite Hr1, Hr2 in HR. rewrite Hu1, Hu2 in HU.
  unfold Causal.lagBody. fold yVals.
  destruct (Nat.ltb_spec (n - L) (L * 2 + 2)) as [Hlt | _]; [ lia | ].
  destruct (computeOLSResiduals (restrictedRows aligned n L) yVals) as [rssR | ].
  - destruct (computeOLSResiduals (unrestrictedRows aligned n L) yVals) as [rssU | ].
    + destruct (rssU <=? 0)%float eqn:E.
      * split; [ intros _ | reflexivity ]. right. right. exists rssU. auto.
      * destruct (Z.leb_spec (Z.of_nat (n - L) - 2 * Z.of_nat L - 1) 0) as [Hd | Hd];
          [ lia | ].
        split; [ discriminate | ].
        intros [H | [H | (u & [= <-] & H)]].
        -- destruct HR as [_ HR']. specialize (HR' (or_intror H)). discriminate.
        -- destruct HU as [_ HU']. specialize (HU' (or_intror H)). discriminate.
        -- congruence.
    + split; [ intros _ | reflexivity ].
      right. left. destruct HU as [HU' _]. destruct (HU' eq_refl) as [H | H]; [ lia | exact H ].
  - split; [ intros _ | reflexivity ].
    left. destruct HR as [HR' _]. destruct (HR' eq_refl) as [H | H]; [ lia | exact H ].
Qed.

(** [reduce] returns one of the entries, and when no reported p-value
    is NaN none of the entries has a smaller one. *)
Lemma pickBest_In (r0 : LagResult) (rest : list LagResult) :
  In (pickBest r0 rest) (r0 :: rest).
Proof.
  unfold pickBest. revert r0. induction rest as [ | b rest IH]; intros r0; cbn [fold_left].
  - left; reflexivity.
  - destruct (pValue r0 <? pValue b)%float.
    + destruct (IH r0) as [H | H]; [ left; exact H | right; right; exact H ].
    + right. apply IH.
Qed.

Lemma pickBest_min (r0 : LagResult) (rest : list LagResult) :
  (forall r, In r (r0 :: rest) -> is_nan (pValue r) = false) ->
  forall r, In r (r0 :: rest) -> (pValue r <? pValue (pickBest r0 rest))%float = false.
Proof.
  revert r0. induction rest as [ | b rest IH]; intros a Hnan r Hr.
  - destruct Hr as [<- | []]. apply FloatOrder.ltb_irrefl.
  - assert (Ha : is_nan (pValue a) = false) by (apply Hnan; left; reflexivity).
    assert (Hb : is_nan (pValue b) = false) by (apply Hnan; right; left; reflexivity).
    unfold pickBest in *. cbn [fold_left].
    destruct (pValue a <? pValue b)%float eqn:E.
    + assert (Hnan' : forall x, In x (a :: rest) -> is_nan (pValue x) = false)
        by (intros x [<- | Hx]; apply Hnan; [ left | right; right ]; auto).
      assert (Hbest : is_nan (pValue (fold_left
                 (fun a b => if (pValue a <? pValue b)%float then a else b) rest a)) = false)
        by (apply Hnan', (pickBest_In a rest)).
      destruct Hr as [<- | [<- | Hr]].
      * apply (IH a Hnan'). left; reflexivity.
      * apply (FloatOrder.ltb_false_trans _ (pValue a)); auto.
        -- apply FloatOrder.ltb_asym, E.
        -- apply (IH a Hnan'). left; reflexivity.
      * apply (IH a Hnan'). right; exact Hr.
    + assert (Hnan' : forall x, In x (b :: rest) -> is_nan (pValue x) = false)
        by (intros x Hx; apply Hnan; right; exact Hx).
      assert (Hbest : is_nan (pValue (fold_left
                 (fun a b => if (pValue a <? pValue b)%float then a else b) rest b)) = false)
        by (apply Hnan', (pickBest_In b rest)).
      destruct Hr as [<- | [<- | Hr]].
      * apply (FloatOrder.ltb_false_trans _ (pValue b)); auto.
        apply (IH b Hnan'). left; reflexivity.
      * apply (IH b Hnan'). left; reflexivity.
      * apply (IH b Hnan'). right; exact Hr.
Qed.

(** The aligned observations: one per year on which both series carry
    a finite value, holding the last such value of either series. *)
Lemma keysOrdered_NoDup {V} (o : list (Z * V)) : keysOrdered o -> NoDup (map fst o).
Proof.
  unfold keysOrdered. intros H. induction H as [ | k ks Hs IH Hall]; constructor.
  - intros Hin. rewrite Forall_forall in Hall. destruct (Hall k Hin) as [Hd _]. congruence.
  - exact IH.
Qed.

Lemma NoDup_map_filter {A B} (f : A -> B) (g : A -> bool) (l : list A) :
  NoDup (map f l) -> NoDup (map f (filter g l)).
Proof.
  induction l as [ | a l IH]; cbn [map filter]; intros H.
  - constructor.
  - inversion H as [ | ? ? Hn Hd]; subst. destruct (g a); cbn [map]; [ | apply IH, Hd ].
    constructor; [ | apply IH, Hd ].
    intros Hin. apply Hn. apply in_map_iff in Hin. destruct Hin as (x & Hx & Hin).
    apply filter_In in Hin. apply in_map_iff. exists x. tauto.
Qed.

Lemma alignXY_spec (xSeries ySeries : TimeSeries) :
  (forall p, In p (alignXY xSeries ySeries) <->
             lastKept isFinite (ayear p) xSeries = Some (ax p) /\
             lastKept isFinite (ayear p) ySeries = Some (ay p)) /\
  NoDup (map ayear (alignXY xSeries ySeries)).
Proof.
  unfold alignXY, Obj.entries.
  change (byYearXY xSeries ySeries)
    with (secondPass isFinite (firstPass isFinite xSeries) ySeries).
  destruct (secondPass_inv isFinite xSeries ySeries) as [Hs Hin].
  set (o := secondPass isFinite (firstPass isFinite xSeries) ySeries) in *.
  split.
  - intros p. rewrite in_map_iff. split.
    + intros ([k [x y]] & <- & He). apply sort_In in He. apply filter_In in He.
      cbn [fst snd] in *. destruct He as [He Hy]. destruct y as [y | ]; [ | discriminate ].
      apply Hin in He. cbn [ayear ax ay]. destruct He as [Hx Hy']. auto.
    + intros [Hx Hy]. exists (ayear p, (ax p, Some (ay p))). split.
      * destruct p; reflexivity.
      * apply sort_In. apply filter_In. split; [ | reflexivity ].
        apply Hin. auto.
  - rewrite map_map. cbn [ayear].
    apply (Permutation_NoDup (l := map fst (filter
             (fun e => match snd (snd e) with Some _ => true | None => false end) o))).
    + apply Permutation_map, sort_perm.
    + apply NoDup_map_filter, keysOrdered_NoDup, Hs.
Qed.

End GrangerFacts.

(** The lags of the Granger test and its best entry, as far as the
    code keeps what is said of them. For all series and every [maxLag]:
    the test answers [null]
    exactly when the number [n] of aligned observations (one per year on
    which both series carry a finite value) is below [3 * maxLag + 2] or
    no lag was computed; the computed lags are those from 1 to [maxLag]
    whose loop body yields an entry, which requires [n - L >= 2L + 2];
    with enough observations a lag is skipped exactly when one of its two
    regressions is singular or its unrestricted residual sum is [<= 0];
    the entry reported as best is one of the computed lags, [causal] is
    the comparison of that lag's p-value with 0.05, and, no reported
    p-value being NaN, no computed lag has a smaller reported p-value. *)
Theorem grangerTest_lags_and_best
  (Math_log Math_exp : float -> float) (xSeries ySeries : TimeSeries) (maxLag : nat) :
  let test := Causal.grangerTest Math_log Math_exp xSeries ySeries maxLag in
  let aligned := Causal.alignXY xSeries ySeries in
  let n := length aligned in
  let body := Causal.lagBody Math_log Math_exp aligned n in
  let computed := Causal.lagLoop Math_log Math_exp aligned n (JS.range 1 (S maxLag)) in
  let Xr L := Causal.restrictedRows aligned n L in
  let Xu L := Causal.unrestrictedRows aligned n L in
  let yVals L := map Causal.ay (skipn L aligned) in
  (* the aligned observations *)
  ((forall p, In p aligned <->
              lastKept JS.isFinite (Causal.ayear p) xSeries = Some (Causal.ax p) /\
              lastKept JS.isFinite (Causal.ayear p) ySeries = Some (Causal.ay p)) /\
   NoDup (map Causal.ayear aligned)) /\
  (* null *)
  (test = None <-> n < 3 * maxLag + 2 \/ computed = []) /\
  (* the lags that are computed *)
  (forall r, In r computed <-> exists L, 1 <= L <= maxLag /\ body L = Some r) /\
  (forall L r, body L = Some r -> 2 * L + 2 <= n - L /\ Causal.lag r = L) /\
  (* the lags that are skipped *)
  (3 * maxLag + 2 <= n -> forall L, 1 <= L <= maxLag ->
     (body L = None <->
      singular (Xr L) (yVals L) \/ singular (Xu L) (yVals L) \/
      exists rssU, Causal.computeOLSResiduals (Xu L) (yVals L) = Some rssU /\
                   (rssU <=? 0)%float = true)) /\
  (* the best lag *)
  (forall res, test = Some res ->
     3 * maxLag + 2 <= n /\
     Causal.results res = computed /\
     exists best,
       In best computed /\
       Causal.bestLag res = Causal.lag best /\
       Causal.bestF res = Causal.fStatistic best /\
       Causal.bestP res = Causal.pValue best /\
       Causal.causal res = Causal.significant best /\
       (exists rssR rssU,
          let L := Causal.lag best in
          let p := Causal.lagP Math_log Math_exp rssR rssU L
                               (Z.of_nat (n - L) - 2 * Z.of_nat L - 1) in
          Causal.computeOLSResiduals (Xr L) (yVals L) = Some rssR /\
          Causal.computeOLSResiduals (Xu L) (yVals L) = Some rssU /\
          Causal.pValue best = (JS.Math_round (p * 10000) / 10000)%float /\
          Causal.causal res = (p <? 0.05)%float) /\
       ((forall r, In r computed -> is_nan (Causal.pValue r) = false) ->
        forall r, In r computed ->
                  (Causal.pValue r <? Causal.pValue best)%float = false)).
Proof.
  intros test aligned n body computed Xr Xu yVals.
  assert (Hcomputed : forall r, In r computed <->
                                exists L, 1 <= L <= maxLag /\ body L = Some r).
  { intros r. subst computed body. rewrite lagLoop_In. unfold JS.range.
    split; intros (L & HL & Hb); exists L; (split; [ | exact Hb ]).
    - apply in_seq in HL. lia.
    - apply in_seq. lia. }
  assert (Hbody : forall L r, body L = Some r -> 2 * L + 2 <= n - L /\ Causal.lag r = L).
  { intros L r Hb. subst body. apply lagBody_Some in Hb.
    destruct Hb as (Hn & a & b & Hrest). cbv zeta in Hrest.
    destruct Hrest as (_ & _ & _ & _ & ->). auto. }
  split; [ apply alignXY_spec | ].
  split; [ | split; [ exact Hcomputed | split; [ exact Hbody | split ] ] ].
  - subst test. unfold Causal.grangerTest. fold aligned. fold n. fold computed.
    destruct (Nat.ltb_spec n (maxLag * 3 + 2)) as [Hn | Hn].
    + split; [ intros _; left; lia | reflexivity ].
    + destruct computed as [ | r0 rest].
      * split; [ auto | reflexivity ].
      * split; [ discriminate | intros [H | H]; [ lia | discriminate ] ].
  - intros Hn L HL. subst body Xr Xu yVals. cbv beta.
    apply (lagBody_None Math_log Math_exp aligned n maxLag L Hn HL).
  - intros res Hres. subst test. unfold Causal.grangerTest in Hres.
    fold aligned in Hres. fold n in Hres. fold computed in Hres.
    destruct (Nat.ltb_spec n (maxLag * 3 + 2)) as [Hn | Hn]; [ discriminate | ].
    destruct computed as [ | r0 rest] eqn:Ec; [ discriminate | ].
    injection Hres as <-. cbn [Causal.results Causal.bestLag Causal.bestF
                               Causal.bestP Causal.causal].
    split; [ lia | ]. split; [ reflexivity | ].
    exists (Causal.pickBest r0 rest).
    pose proof (pickBest_In r0 rest) as Hin.
    split; [ exact Hin | ]. repeat (split; [ reflexivity | ]).
    split.
    + apply Hcomputed in Hin. destruct Hin as (L & HL & Hb).
      destruct (Hbody _ _ Hb) as [_ Hlag].
      subst body. apply lagBody_Some in Hb.
      destruct Hb as (_ & rssR & rssU & Hrest). cbv zeta in Hrest.
      destruct Hrest as (HR & HU & _ & _ & Hr).
      exists rssR, rssU. cbv zeta. rewrite Hlag. subst Xr Xu yVals. cbv beta.
      rewrite Hr. cbn [Causal.pValue Causal.significant]. auto.
    + apply pickBest_min.
Qed.

(** The statement at work on the sample series, with the host functions
    of [Host]: from the follower to the driver the three lags are
    computed, the first has the smallest reported p-value and is the one
    reported, and the test is not significant. *)
Lemma grangerTest_lags_and_best_witness :
  exists res,
    Causal.grangerTest Host.log Host.exp followerY driverX 3 = Some res /\
    map Causal.lag (Causal.results res) = [1; 2; 3] /\
    Causal.bestLag res = 1 /\ Causal.causal res = false /\
    Forall (fun r => (Causal.pValue r <? Causal.bestP res)%float = false)
           (Causal.results res).
Proof.
  destruct (Causal.grangerTest Host.log Host.exp followerY driverX 3) as [res | ] eqn:E;
    [ | vm_compute in E; discriminate ].
  exists res. split; [ reflexivity | ].
  destruct (grangerTest_lags_and_best Host.log Host.exp followerY driverX 3)
    as (_ & _ & _ & _ & _ & Hbest).
  destruct (Hbest res E) as (_ & Hres & best & _ & _ & _ & HP & _ & _ & Hmin).
  assert (Hfacts : map Causal.lag (Causal.results res) = [1; 2; 3] /\
                   Causal.bestLag res = 1 /\ Causal.causal res = false /\
                   Forall (fun r => is_nan (Causal.pValue r) = false) (Causal.results res)).
  { vm_compute in E. injection E as <-. vm_compute. repeat constructor. }
  destruct Hfacts as (Hl & Hb & Hc & Hnan).
  repeat (split; [ assumption | ]).
  rewrite Forall_forall in *. intros r Hr. rewrite HP.
  rewrite Hres in Hr, Hnan. apply Hmin; assumption.
Defined.

(** From the driver to the follower every lag reports the p-value 1
    ([fToPValue] returns [1 - front * result], which tends to 1 as the F
    statistic grows): the reduction keeps the later of two entries whose
    reported p-values are equal, so the last lag is the one reported. *)
Example grangerTest_ties_keep_last :
  option_map (fun res => (map Causal.pValue (Causal.results res), Causal.bestLag res))
             (Causal.grangerTest Host.log Host.exp driverX followerY 3)
  = Some ([1; 1; 1]%float, 3).
Proof. vm_compute. reflexivity. Qed.

(** *** A p-value that is not a number

    The guard [rssU <= 0] lets an infinite residual sum through; the F
    statistic is then NaN, and so is the p-value, whatever the host
    computes for [Math.log] and [Math.exp]. *)

Section NaNPValue.

Variable Math_log Math_exp : float -> float.

Lemma mul_nan_r (x : float) : (x * nan)%float = nan.
Proof.
  apply Prim2SF_inj. rewrite FloatAxioms.mul_spec.
  change (Prim2SF nan) with S754_nan.
  destruct (Prim2SF x) as [ [] | [] | | [] ? ?]; reflexivity.
Qed.

Lemma ltb_nan_r (x : float) : (x <? nan)%float = false.
Proof. rewrite FloatAxioms.ltb_spec. apply FloatOrder.SFltb_nan_r. Qed.

Lemma leb_nan_l (x : float) : (nan <=? x)%float = false.
Proof. rewrite FloatAxioms.leb_spec. apply FloatOrder.SFleb_nan_l. Qed.

Lemma fToPValue_nan_2_5 : Causal.fToPValue Math_log Math_exp nan 2 5 = nan.
Proof.
  unfold Causal.fToPValue.
  change ((nan <=? 0)%float || (2 <=? 0)%float || (5 <=? 0)%float) with false.
  cbv iota zeta.
  change (5 / (5 + 2 * nan))%float with nan.
  unfold Causal.betaIncomplete.
  change ((nan <? 0)%float || (1 <? nan)%float) with false.
  change ((nan =? 0)%float || (nan =? 1)%float) with false.
  cbv iota zeta.
  set (front := (Math_exp _ / _)%float).
  replace (Causal.lresult _) with nan by (vm_compute; reflexivity).
  rewrite mul_nan_r. reflexivity.
Qed.

(** Lag 1 on the sample: both regressions succeed, with finite sums. *)
Lemma lagBody_wave_1 :
  Causal.lagBody Math_log Math_exp (Causal.alignXY steadyX hugeWaveY) 12 1
  = let p := Causal.fToPValue Math_log Math_exp 0.00078008056243588698 1 8 in
    Some (Causal.mkLag 1 0.001 (JS.Math_round (p * 10000) / 10000) (p <? 0.05)
            8.3053571990558617e+307 8.3045474220528904e+307 11)%float.
Proof.
  set (aligned := Causal.alignXY steadyX hugeWaveY).
  assert (ER : Causal.computeOLSResiduals (Causal.restrictedRows aligned 12 1)
                 (map Causal.ay (skipn 1 aligned)) = Some 8.3053571990558617e+307%float)
    by (vm_compute; reflexivity).
  assert (EU : Causal.computeOLSResiduals (Causal.unrestrictedRows aligned 12 1)
                 (map Causal.ay (skipn 1 aligned)) = Some 8.3045474220528904e+307%float)
    by (vm_compute; reflexivity).
  unfold Causal.lagBody. cbv zeta. rewrite ER, EU.
  change (12 - 1 <? 1 * 2 + 2) with false.
  change (8.3045474220528904e+307 <=? 0)%float with false.
  change (Z.of_nat (12 - 1) - 2 * Z.of_nat 1 - 1 <=? 0)%Z with false.
  cbv iota.
  change (Z.of_nat (12 - 1) - 2 * Z.of_nat 1 - 1)%Z with 8%Z.
  unfold Causal.lagP.
  change (Causal.lagF 8.3053571990558617e+307 8.3045474220528904e+307 1 8)
    with 0.00078008056243588698%float.
  change (JS.of_nat 1) with 1%float. change (JS.of_Z 8) with 8%float.
  reflexivity.
Qed.

(** Lag 2 on the sample: both residual sums overflow. *)
Lemma lagBody_wave_2 :
  Causal.lagBody Math_log Math_exp (Causal.alignXY steadyX hugeWaveY) 12 2
  = Some (Causal.mkLag 2 nan nan false infinity infinity 10).
Proof.
  set (aligned := Causal.alignXY steadyX hugeWaveY).
  assert (ER : Causal.computeOLSResiduals (Causal.restrictedRows aligned 12 2)
                 (map Causal.ay (skipn 2 aligned)) = Some infinity)
    by (vm_compute; reflexivity).
  assert (EU : Causal.computeOLSResiduals (Causal.unrestrictedRows aligned 12 2)
                 (map Causal.ay (skipn 2 aligned)) = Some infinity)
    by (vm_compute; reflexivity).
  unfold Causal.lagBody. cbv zeta. rewrite ER, EU.
  change (12 - 2 <? 2 * 2 + 2) with false.
  change (infinity <=? 0)%float with false.
  change (Z.of_nat (12 - 2) - 2 * Z.of_nat 2 - 1 <=? 0)%Z with false.
  cbv iota.
  change (Z.of_nat (12 - 2) - 2 * Z.of_nat 2 - 1)%Z with 5%Z.
  unfold Causal.lagP.
  change (Causal.lagF infinity infinity 2 5) with nan.
  change (JS.of_nat 2) with 2%float. change (JS.of_Z 5) with 5%float.
  rewrite fToPValue_nan_2_5. reflexivity.
Qed.

End NaNPValue.

(** C1. The best entry is not always the computed lag of minimum
    p-value. On twelve years of a driver and of a series that swings
    between -5.4e153 and 6e153, whatever the host computes for
    [Math.log] and [Math.exp]: lag 1 is computed, with finite residual
    sums and an F statistic of 0.00078; at lag 2 both residual sums
    overflow to infinity, which the guard [rssU <= 0] lets through, and
    the F statistic and the p-value are NaN. The reduction
    [a.pValue < b.pValue ? a : b] then keeps lag 2: the test reports
    the p-value NaN, which is not below or equal to that of lag 1, and
    [causal = false]. *)
Theorem grangerTest_nan_pvalue_reported (Math_log Math_exp : float -> float) :
  exists r1 r2 g,
    Causal.grangerTest Math_log Math_exp steadyX hugeWaveY 2 = Some g /\
    Causal.results g = [r1; r2] /\
    Causal.lag r1 = 1 /\
    Causal.rssRestricted r1 = 8.3053571990558617e+307%float /\
    Causal.rssUnrestricted r1 = 8.3045474220528904e+307%float /\
    Causal.pValue r1
    = (JS.Math_round
         (Causal.fToPValue Math_log Math_exp 0.00078008056243588698 1 8 * 10000)
       / 10000)%float /\
    r2 = Causal.mkLag 2 nan nan false infinity infinity 10 /\
    Causal.bestLag g = 2 /\ is_nan (Causal.bestP g) = true /\
    Causal.causal g = false /\
    (Causal.bestP g <=? Causal.pValue r1)%float = false.
Proof.
  unfold Causal.grangerTest.
  assert (Hlen : length (Causal.alignXY steadyX hugeWaveY) = 12) by (vm_compute; reflexivity).
  rewrite Hlen. change (12 <? 2 * 3 + 2) with false. cbv iota.
  unfold Causal.lagLoop. change (JS.range 1 3) with [1; 2]. cbn [fold_left].
  rewrite lagBody_wave_1, lagBody_wave_2. cbv zeta. cbn [app].
  unfold Causal.pickBest. cbn [fold_left Causal.pValue].
  rewrite ltb_nan_r.
  do 3 eexists. split; [ reflexivity | ].
  cbn [Causal.results Causal.lag Causal.rssRestricted Causal.rssUnrestricted
       Causal.fStatistic Causal.pValue Causal.bestLag Causal.bestP Causal.causal
       Causal.significant].
  repeat split. apply leb_nan_l.
Qed.

(** With the host functions of [Host] the p-value of lag 1 is 0.0223,
    below 0.05: the lag of minimum p-value is significant, and the test
    reports no causality. On the same series with [Y] divided by 6e152
    no sum overflows, lag 1 is the best entry and the test reports
    causality. *)
Example grangerTest_nan_pvalue_host :
  option_map (fun g => (map Causal.pValue (Causal.results g),
                        map Causal.significant (Causal.results g),
                        Causal.bestLag g, Causal.causal g))
             (Causal.grangerTest Host.log Host.exp steadyX hugeWaveY 2)
  = Some ([0.0223; nan]%float, [true; false], 2, false) /\
  option_map (fun g => (map Causal.pValue (Causal.results g),
                        Causal.bestLag g, Causal.causal g))
             (Causal.grangerTest Host.log Host.exp steadyX
                (map (fun d => mkPoint (year d)
                                 (option_map (fun v => v / 6e152)%float (value d)))
                     hugeWaveY) 2)
  = Some ([0.0223; 0.6716]%float, 1, true).
Proof. split; vm_compute; reflexivity. Qed.

(* ================================================================== *)
(** * Part III: further properties of the modules                      *)
(* ================================================================== *)

(** ** Order statistics of [calcStats] *)

Section OrderStatistics.
Import JS Engine.

Lemma finite_not_nan (v : float) : isFinite v = true -> is_nan v = false.
Proof.
  unfold isFinite, is_finite. destruct (is_nan v); [ discriminate | reflexivity ].
Qed.

Lemma finiteValues_In (series : TimeSeries) (v : float) :
  In v (finiteValues series) -> isFinite v = true.
Proof.
  induction series as [ | d rest IH]; cbn [finiteValues]; [ intros [] | ].
  destruct (value d) as [x | ]; [ | exact IH ].
  destruct (isFinite x) eqn:E; [ | exact IH ].
  intros [<- | H]; [ exact E | apply IH, H ].
Qed.

(** The comparison function [(a, b) => a - b] decides the order of
    numbers that are not NaN. *)
Lemma ascending_consistent (l : list float) :
  (forall v, In v l -> is_nan v = false) ->
  consistentOn (fun a b => (a - b)%float) (fun a b => (b <? a)%float) l.
Proof.
  intros H. split; [ | split ].
  - intros x y _ _. unfold gt0. apply FloatOrder.sub_gt0.
  - intros x y _ _. apply FloatOrder.ltb_asym.
  - intros x y z Hx Hy Hz H1 H2. apply (FloatOrder.ltb_false_trans z y x); auto.
Qed.

Lemma leb_refl (x : float) : is_nan x = false -> (x <=? x)%float = true.
Proof.
  intros H. apply FloatOrder.ltb_false_leb; [ exact H | exact H | ].
  apply FloatOrder.ltb_irrefl.
Qed.

Lemma nth_pred_length {A} (l : list A) (d : A) : nth (length l - 1) l d = last l d.
Proof.
  induction l as [ | x [ | y l] IH]; try reflexivity.
  cbn [length] in *. replace (S (S (length l)) - 1) with (S (length l)) by lia.
  replace (S (length l) - 1) with (length l) in IH by lia. exact IH.
Qed.

Lemma last_In {A} (l : list A) (d : A) : l <> [] -> In (last l d) l.
Proof.
  induction l as [ | x [ | y l] IH]; intros H; [ congruence | left; reflexivity | ].
  right. apply IH. discriminate.
Qed.

(** In a sorted array every element is related to the last one. *)
Lemma StronglySorted_last {A} (R : A -> A -> Prop) (l : list A) (d x : A) :
  StronglySorted R l -> In x l -> x = last l d \/ R x (last l d).
Proof.
  intros Hs. revert x. induction Hs as [ | y l Hs IH Hall]; intros x; [ intros [] | ].
  destruct l as [ | z l]; [ intros [<- | []]; left; reflexivity | ].
  change (last (y :: z :: l) d) with (last (z :: l) d).
  intros [<- | Hx]; [ right | apply IH, Hx ].
  rewrite Forall_forall in Hall. apply Hall, last_In. discriminate.
Qed.

(** The ends of the array sorted by [(a, b) => a - b] bound every
    element. *)
Lemma sorted_ends (vals : list float) (v : float) :
  (forall x, In x vals -> is_nan x = false) -> In v vals ->
  let sorted := sort (fun a b => (a - b)%float) vals in
  In (at_ sorted 0) vals /\ In (at_ sorted (length vals - 1)) vals /\
  (at_ sorted 0 <=? v)%float = true /\ (v <=? at_ sorted (length vals - 1))%float = true.
Proof.
  intros Hnan Hv sorted.
  pose proof (sort_sorted _ _ vals (ascending_consistent vals Hnan)) as Hs.
  fold sorted in Hs.
  assert (Hin : forall x, In x sorted <-> In x vals) by (intros x; apply sort_In).
  assert (Hlen : length sorted = length vals) by apply sort_length.
  assert (Hv' : In v sorted) by (apply Hin, Hv).
  rewrite <- Hlen. unfold at_ at 2 4. rewrite nth_pred_length.
  destruct sorted as [ | h t] eqn:E; [ destruct Hv' | ].
  assert (Hlast : In (last (h :: t) undefined_num) (h :: t)) by (apply last_In; discriminate).
  split; [ apply Hin; left; reflexivity | ].
  split; [ apply Hin, Hlast | ].
  split.
  - unfold at_. cbn [nth]. inversion Hs as [ | ? ? _ Hall]; subst.
    destruct Hv' as [<- | Hv'].
    + apply leb_refl, Hnan, Hin. left; reflexivity.
    + rewrite Forall_forall in Hall. specialize (Hall v Hv').
      apply FloatOrder.ltb_false_leb; [ apply Hnan, Hv | | exact Hall ].
      apply Hnan, Hin. left; reflexivity.
  - destruct (StronglySorted_last _ _ undefined_num v Hs Hv') as [<- | H].
    + apply leb_refl, Hnan, Hv.
    + apply FloatOrder.ltb_false_leb; [ apply Hnan, Hin, Hlast | apply Hnan, Hv | exact H ].
Qed.

End OrderStatistics.

(** X1. [calcStats] counts the finite values, answers with zeros when there
    is none, and otherwise reports as [min] and [max] two of the finite
    values that bound all of them; with an odd count the median is one
    of the values as well. *)
Theorem calcStats_order_statistics (series : TimeSeries) :
  let s := Engine.calcStats series in
  let vals := Engine.finiteValues series in
  Engine.n s = length vals /\
  (vals = [] -> s = Engine.zeroStats) /\
  (vals <> [] ->
   In (Engine.min s) vals /\ In (Engine.max s) vals /\
   (forall v, In v vals ->
              (Engine.min s <=? v)%float = true /\ (v <=? Engine.max s)%float = true) /\
   (Nat.odd (length vals) = true -> In (Engine.median s) vals)).
Proof.
  intros s vals. subst s. unfold Engine.calcStats.
  destruct series as [ | d rest].
  - subst vals. cbn. split; [ reflexivity | split; [ reflexivity | congruence ] ].
  - set (series := d :: rest) in *. cbv iota. fold vals.
    destruct (Nat.eqb_spec (length vals) 0) as [H0 | H0].
    + assert (vals = []) as E by (destruct vals; [ reflexivity | discriminate ]).
      rewrite E. split; [ reflexivity | split; [ reflexivity | congruence ] ].
    + cbn [Engine.n Engine.min Engine.max Engine.median].
      split; [ reflexivity | ]. split; [ intros E; rewrite E in H0; cbn in H0; congruence | ].
      intros _.
      assert (Hnan : forall x, In x vals -> is_nan x = false)
        by (intros x Hx; apply finite_not_nan, (finiteValues_In series), Hx).
      destruct vals as [ | v0 vs] eqn:Ev; [ cbn in H0; congruence | ].
      rewrite <- Ev in *.
      assert (Hv0 : In v0 vals) by (rewrite Ev; left; reflexivity).
      destruct (sorted_ends vals v0 Hnan Hv0) as (Hmin & Hmax & _ & _).
      split; [ exact Hmin | ]. split; [ exact Hmax | ]. split.
      * intros v Hv. destruct (sorted_ends vals v Hnan Hv) as (_ & _ & H1 & H2).
        split; assumption.
      * intros Hodd.
        assert (Hmod : length vals mod 2 = 1).
        { rewrite <- Nat.bit0_mod, Nat.bit0_odd, Hodd. reflexivity. }
        rewrite Hmod. cbn [Nat.eqb].
        apply (sort_In (fun a b => (a - b)%float) vals). unfold JS.at_. apply nth_In.
        rewrite sort_length. apply Nat.div_lt; lia.
Qed.

(** ** Change between the first and the last valid point *)

Section ChangeFacts.
Import JS Engine.

Lemma hd_map_num (vals : TimeSeries) :
  num (nth 0 vals (mkPoint 0 None)) = hd undefined_num (map num vals).
Proof. destruct vals; reflexivity. Qed.

Lemma last_map {A B} (f : A -> B) (l : list A) (d : A) :
  last (map f l) (f d) = f (last l d).
Proof.
  induction l as [ | x [ | y l] IH]; try reflexivity. exact IH.
Qed.

Lemma last_map_num (vals : TimeSeries) :
  last (map num vals) undefined_num = num (last vals (mkPoint 0 None)).
Proof. apply (last_map num vals (mkPoint 0 None)). Qed.

End ChangeFacts.

(** X2. [calcChange] needs two finite values, as [calcVolatility] does; it
    then reports the difference of the last and the first finite value,
    and that difference relative to the magnitude of the first value
    unless the first value is zero. *)
Theorem calcChange_first_last (series : TimeSeries) :
  let vals := Engine.finiteValues series in
  let c := Engine.calcChange series in
  let first := hd JS.undefined_num vals in
  let final := last vals JS.undefined_num in
  (length vals < 2 -> c = Engine.mkChange None None) /\
  (2 <= length vals ->
   Engine.change_abs c = Some (final - first)%float /\
   Engine.change_pct c
   = if (first =? 0)%float then None
     else Some ((final - first) / JS.Math_abs first * 100)%float) /\
  (Engine.change_abs c = None <-> Engine.calcVolatility series = None).
Proof.
  intros vals c first final. subst c first final vals.
  unfold Engine.calcChange, Engine.calcVolatility.
  rewrite finiteValues_filter, length_map.
  destruct series as [ | d rest].
  - cbn. split; [ reflexivity | split; [ lia | tauto ] ].
  - set (series := d :: rest) in *. cbv iota.
    destruct (Nat.ltb_spec (length (Engine.validPoints series)) 2) as [Hlt | Hge].
    + split; [ reflexivity | split; [ lia | tauto ] ].
    + split; [ lia | ]. split.
      * intros _. cbn [Engine.change_abs Engine.change_pct].
        rewrite nth_pred_length, hd_map_num, <- last_map_num.
        split; [ reflexivity | ].
        destruct (hd JS.undefined_num (map Engine.num (Engine.validPoints series)) =? 0)%float;
          reflexivity.
      * cbn [Engine.change_abs]. split; discriminate.
Qed.

(** ** The shape of a forecast *)

Section ForecastShape.
Import JS Engine.

Lemma hwStep_smoothed_length (o : HWOptions) (data : list float) (st : hwState) :
  length (hw_smoothed (fold_left (hwStep o) data st)) = length (hw_smoothed st) + length data.
Proof.
  revert st. induction data as [ | x data IH]; intros st; cbn [fold_left length].
  - lia.
  - rewrite IH. unfold hwStep. cbn [hw_smoothed]. rewrite length_app. cbn [length]. lia.
Qed.


End ForecastShape.


(** ** The anomaly detector as a filter *)

Section AnomalyFacts.
Import JS Engine.

Lemma partition_fold {A B} (f : A -> bool) (g : A -> B) (l : list A)
  (acc : list B * list A) :
  fold_left
    (fun acc d => if f d then (fst acc ++ [g d], snd acc) else (fst acc, snd acc ++ [d]))
    l acc
  = (fst acc ++ map g (filter f l), snd acc ++ filter (fun d => negb (f d)) l).
Proof.
  revert acc. induction l as [ | d l IH]; intros [xs ys]; cbn [fold_left filter map fst snd].
  - rewrite !app_nil_r. reflexivity.
  - rewrite IH. destruct (f d); cbn [negb map fst snd]; rewrite <- app_assoc; reflexivity.
Qed.

(** With four valid points or more, the detector computes one summary
    from the series alone and then sorts the valid points into
    anomalies and normal points by the verdict on each. *)
Lemma detectAnomalies_closed (series : TimeSeries) :
  4 <= length (validPoints series) ->
  exists st : AnomalyStats,
    forall o : AnomalyOptions,
      detectAnomalies series o
      = mkAnomalyResult
          (map (anomalyOf o st) (filter (flagOf o st) (validPoints series)))
          (filter (fun d => negb (flagOf o st d)) (validPoints series))
          (Some st).
Proof.
  intros H. unfold detectAnomalies. apply Nat.ltb_ge in H. rewrite H.
  eexists. intros o. cbv zeta.
  match goal with
  | |- mkAnomalyResult (fst ?F) (snd ?F) (Some ?S) = _ =>
      set (st := S);
      assert (E : F = (map (anomalyOf o st) (filter (flagOf o st) (validPoints series)),
                       filter (fun d => negb (flagOf o st d)) (validPoints series)))
  end.
  { apply (partition_fold (flagOf o st) (anomalyOf o st) (validPoints series) ([], [])). }
  rewrite E. reflexivity.
Qed.

End AnomalyFacts.

(** X4. The detector splits the valid points, in their order, into the
    anomalies and the normal points: a point is an anomaly exactly when
    the verdict computed from the returned summary flags it, and each
    anomaly carries its z-score and both flags. *)
Theorem detectAnomalies_partition
  (series : TimeSeries) (o : Engine.AnomalyOptions) (st : Engine.AnomalyStats) :
  Engine.stats (Engine.detectAnomalies series o) = Some st ->
  let r := Engine.detectAnomalies series o in
  let vals := Engine.validPoints series in
  Engine.anomalies r = map (anomalyOf o st) (filter (flagOf o st) vals) /\
  Engine.normal r = filter (fun d => negb (flagOf o st d)) vals /\
  Permutation (map Engine.point (Engine.anomalies r) ++ Engine.normal r) vals /\
  length (Engine.anomalies r) + length (Engine.normal r) = length vals.
Proof.
  intros Hst r vals.
  destruct (Nat.ltb_spec (length vals) 4) as [Hlt | Hge].
  - exfalso. subst vals. unfold Engine.detectAnomalies in Hst.
    apply Nat.ltb_lt in Hlt. rewrite Hlt in Hst. discriminate.
  - destruct (detectAnomalies_closed series Hge) as (st' & Hc).
    subst r. rewrite Hc in Hst |- *. injection Hst as ->.
    cbn [Engine.anomalies Engine.normal]. fold vals.
    split; [ reflexivity | ]. split; [ reflexivity | ].
    assert (Hp : Permutation
                   (map Engine.point (map (anomalyOf o st) (filter (flagOf o st) vals))
                    ++ filter (fun d => negb (flagOf o st d)) vals) vals).
    { rewrite map_map. cbn [anomalyOf Engine.point]. rewrite map_id.
      clear. induction vals as [ | d l IH]; cbn [filter]; [ constructor | ].
      destruct (flagOf o st d); cbn [negb app].
      - constructor. exact IH.
      - apply Permutation_sym, Permutation_cons_app, Permutation_sym, IH. }
    split; [ exact Hp | ].
    apply Permutation_length in Hp. rewrite length_app, length_map in Hp. exact Hp.
Qed.

(** The six-point example, whose summary has mean 25. *)
Lemma detectAnomalies_partition_witness :
  exists st : Engine.AnomalyStats,
    Engine.a_mean st = 25%float /\
    Engine.anomalies (Engine.detectAnomalies (sixPoints 2000 2001 2002 2003 2004 2005)
                                             Engine.defaultAnomaly)
    = map (anomalyOf Engine.defaultAnomaly st)
          (filter (flagOf Engine.defaultAnomaly st)
                  (Engine.validPoints (sixPoints 2000 2001 2002 2003 2004 2005))).
Proof.
  eexists. split;
    [ | refine (proj1 (detectAnomalies_partition _ _ _ _)); vm_compute; reflexivity ].
  vm_compute. reflexivity.
Defined.

(** X5. The method [both] flags the points flagged by [zscore] together
    with those flagged by [iqr], at the same threshold: it flags at
    least as many points as either; and a method name that is neither
    [zscore] nor [iqr] is treated as [both]. *)
Theorem detectAnomalies_both_is_union (series : TimeSeries) (t : float) :
  let flaggedBy m :=
    map Engine.point
        (Engine.anomalies (Engine.detectAnomalies series (Engine.mkAnomalyOptions m t))) in
  (forall d, In d (flaggedBy "both"%string)
             <-> In d (flaggedBy "zscore"%string) \/ In d (flaggedBy "iqr"%string)) /\
  length (flaggedBy "zscore"%string) <= length (flaggedBy "both"%string) /\
  length (flaggedBy "iqr"%string) <= length (flaggedBy "both"%string) /\
  (forall m, m <> "zscore"%string -> m <> "iqr"%string ->
             Engine.detectAnomalies series (Engine.mkAnomalyOptions m t)
             = Engine.detectAnomalies series (Engine.mkAnomalyOptions "both" t)).
Proof.
  intros flaggedBy.
  destruct (Nat.ltb_spec (length (Engine.validPoints series)) 4) as [Hlt | Hge].
  - assert (E : forall m, Engine.detectAnomalies series (Engine.mkAnomalyOptions m t)
                          = Engine.mkAnomalyResult [] (Engine.validPoints series) None).
    { intros m. unfold Engine.detectAnomalies. apply Nat.ltb_lt in Hlt. rewrite Hlt.
      reflexivity. }
    subst flaggedBy. cbv beta. rewrite !E. cbn [Engine.anomalies map In length].
    split; [ tauto | ]. split; [ lia | ]. split; [ lia | ].
    intros m _ _. rewrite E. reflexivity.
  - destruct (detectAnomalies_closed series Hge) as (st & Hc).
    assert (F : forall m,
              flaggedBy m
              = filter (flagOf (Engine.mkAnomalyOptions m t) st) (Engine.validPoints series)).
    { intros m. subst flaggedBy. cbv beta. rewrite Hc. cbn [Engine.anomalies].
      rewrite map_map. cbn [anomalyOf Engine.point]. apply map_id. }
    assert (U : forall d,
              flagOf (Engine.mkAnomalyOptions "both" t) st d
              = flagOf (Engine.mkAnomalyOptions "zscore" t) st d
                || flagOf (Engine.mkAnomalyOptions "iqr" t) st d).
    { intros d. reflexivity. }
    assert (L : forall (f g : TimePoint -> bool) l,
              (forall d, f d = true -> g d = true) ->
              length (filter f l) <= length (filter g l)).
    { intros f g l Hfg. induction l as [ | d l IH]; cbn [filter]; [ lia | ].
      destruct (f d) eqn:Ef.
      - rewrite (Hfg d Ef). cbn [length]. lia.
      - destruct (g d); cbn [length]; lia. }
    split; [ | split; [ | split ] ].
    + intros d. rewrite !F, !filter_In, U, orb_true_iff. tauto.
    + rewrite !F. apply L. intros d Hd. rewrite U, Hd. reflexivity.
    + rewrite !F. apply L. intros d Hd. rewrite U, Hd. apply orb_true_r.
    + intros m Hz Hi. rewrite !Hc.
      assert (Hf : forall d, flagOf (Engine.mkAnomalyOptions m t) st d
                             = flagOf (Engine.mkAnomalyOptions "both" t) st d).
      { intros d. unfold flagOf, Engine.flagged. cbn [Engine.method].
        apply String.eqb_neq in Hz, Hi. rewrite Hz, Hi. reflexivity. }
      f_equal.
      * rewrite (filter_ext _ _ Hf). apply map_ext. intros d. reflexivity.
      * apply filter_ext. intros d. rewrite Hf. reflexivity.
Qed.

(** ** Symmetry of the correlation *)

Section PearsonSymmetry.
Import JS Engine.

Lemma SFmul_comm (x y : spec_float) : SF64mul x y = SF64mul y x.
Proof.
  unfold SF64mul, SFmul.
  destruct x as [sx | sx | | sx mx ex], y as [sy | sy | | sy my ey];
    try reflexivity; try (rewrite xorb_comm; reflexivity).
  rewrite xorb_comm, Pos.mul_comm, Z.add_comm. reflexivity.
Qed.

(** Multiplication of binary64 numbers is commutative. *)
Lemma mul_comm (x y : float) : (x * y)%float = (y * x)%float.
Proof.
  rewrite <- (FloatAxioms.SF2Prim_Prim2SF (x * y)), <- (FloatAxioms.SF2Prim_Prim2SF (y * x)).
  rewrite !FloatAxioms.mul_spec, SFmul_comm. reflexivity.
Qed.

Lemma pearsonSums_swap_from (xs ys : list float) (mx my : float) (idx : list nat)
  (num dx dy : float) :
  fold_left
    (fun acc i =>
       let '(num, dx, dy) := acc in
       let ex := (at_ ys i - my)%float in
       let ey := (at_ xs i - mx)%float in
       ((num + ex * ey)%float, (dx + ex * ex)%float, (dy + ey * ey)%float))
    idx (num, dy, dx)
  = (let '(n', dx', dy') :=
       fold_left
         (fun acc i =>
            let '(num, dx, dy) := acc in
            let ex := (at_ xs i - mx)%float in
            let ey := (at_ ys i - my)%float in
            ((num + ex * ey)%float, (dx + ex * ex)%float, (dy + ey * ey)%float))
         idx (num, dx, dy)
     in (n', dy', dx')).
Proof.
  revert num dx dy. induction idx as [ | i idx IH]; intros num dx dy; cbn [fold_left].
  - reflexivity.
  - rewrite (mul_comm (at_ ys i - my) (at_ xs i - mx)). apply IH.
Qed.

Lemma pearsonSums_swap (xs ys : list float) (mx my : float) (n : nat) :
  pearsonSums ys xs my mx n
  = (let '(num, dx, dy) := pearsonSums xs ys mx my n in (num, dy, dx)).
Proof. apply pearsonSums_swap_from. Qed.

Lemma pearsonOfPairs_swap (pairs : list (float * float)) :
  pearsonOfPairs (map swap pairs) = pearsonOfPairs pairs.
Proof.
  unfold pearsonOfPairs. rewrite length_map.
  destruct (length pairs <? 3); [ reflexivity | ].
  rewrite !map_map. cbn [swap fst snd].
  rewrite pearsonSums_swap.
  destruct (pearsonSums (map fst pairs) (map snd pairs) _ _ _) as [[num dx] dy].
  rewrite (mul_comm dy dx). reflexivity.
Qed.

Lemma definedPairs_entries (o : list (Z * (float * option float))) :
  definedPairs (Obj.values o) = map snd (definedEntries o).
Proof.
  unfold Obj.values.
  induction o as [ | [k [x [y | ]]] o IH]; cbn [map snd definedPairs definedEntries].
  - reflexivity.
  - rewrite IH. reflexivity.
  - exact IH.
Qed.

Lemma definedEntries_In (o : list (Z * (float * option float))) (k : Z) (x y : float) :
  In (k, (x, y)) (definedEntries o) <-> In (k, (x, Some y)) o.
Proof.
  induction o as [ | [k' [x' [y' | ]]] o IH]; cbn [definedEntries In].
  - tauto.
  - rewrite IH. split; intros [[= -> -> ->] | H]; auto.
  - rewrite IH. split; [ auto | intros [H | H]; [ discriminate | exact H ] ].
Qed.

Lemma definedEntries_sorted (o : list (Z * (float * option float))) :
  keysSorted o -> keysSorted (definedEntries o).
Proof.
  induction o as [ | [k [x [y | ]]] o IH]; intros Hs; cbn [definedEntries].
  - constructor.
  - destruct (keysSorted_inv _ _ _ Hs) as [Hs' Hlt].
    apply keysSorted_cons; [ apply IH, Hs' | ].
    intros [k' [x' y']] He. apply definedEntries_In in He. apply (Hlt _ He).
  - destruct (keysSorted_inv _ _ _ Hs) as [Hs' _]. apply IH, Hs'.
Qed.

Lemma definedEntries_ordered (o : list (Z * (float * option float))) :
  keysOrdered o -> keysOrdered (definedEntries o).
Proof.
  induction o as [ | [k [x [y | ]]] o IH]; intros Hs; cbn [definedEntries].
  - constructor.
  - destruct (keysOrdered_inv _ _ _ Hs) as [Hs' Hlt].
    apply keysOrdered_cons; [ apply IH, Hs' | ].
    intros [k' [x' y']] He. apply definedEntries_In in He. apply (Hlt _ He).
  - destruct (keysOrdered_inv _ _ _ Hs) as [Hs' _]. apply IH, Hs'.
Qed.

(** An object whose keys are array indices is determined by its
    bindings. *)
Lemma keysSorted_ext {V} (l1 l2 : list (Z * V)) :
  keysSorted l1 -> keysSorted l2 -> (forall e, In e l1 <-> In e l2) -> l1 = l2.
Proof.
  revert l2. induction l1 as [ | [k1 v1] t1 IH]; intros [ | [k2 v2] t2] H1 H2 Hin.
  - reflexivity.
  - exfalso. apply (proj2 (Hin (k2, v2))). left; reflexivity.
  - exfalso. apply (proj1 (Hin (k1, v1))). left; reflexivity.
  - destruct (keysSorted_inv _ _ _ H1) as [H1' L1].
    destruct (keysSorted_inv _ _ _ H2) as [H2' L2].
    assert (E : (k1, v1) = (k2, v2)).
    { destruct (proj1 (Hin (k1, v1)) (or_introl eq_refl)) as [E | I1]; [ congruence | ].
      destruct (proj2 (Hin (k2, v2)) (or_introl eq_refl)) as [E | I2]; [ congruence | ].
      specialize (L1 _ I2). specialize (L2 _ I1). cbn [fst] in L1, L2. lia. }
    injection E as -> ->. f_equal. apply IH; [ exact H1' | exact H2' | ].
    intros e. split; intros He.
    + destruct (proj1 (Hin e) (or_intror He)) as [<- | H]; [ | exact H ].
      specialize (L1 _ He). cbn [fst] in L1. lia.
    + destruct (proj2 (Hin e) (or_intror He)) as [<- | H]; [ | exact H ].
      specialize (L2 _ He). cbn [fst] in L2. lia.
Qed.

(** Exchanging the two series exchanges the components of the aligned
    entries and nothing else, when the years are array indices: both
    objects then list the aligned years in ascending order. *)
Lemma definedEntries_swap (a b : TimeSeries) :
  indexYears a ->
  definedEntries (pearsonByYear b a)
  = map (fun e => (fst e, swap (snd e))) (definedEntries (pearsonByYear a b)).
Proof.
  intros Ha. rewrite !pearsonByYear_passes.
  pose proof (secondPass_sorted notNull a b Ha) as Sab.
  destruct (secondPass_inv notNull a b) as [_ Iab].
  destruct (secondPass_inv notNull b a) as [Sba Iba].
  apply keysSorted_ext.
  - apply keysOrdered_sorted; [ apply definedEntries_ordered, Sba | ].
    intros [k [y x]] He. apply definedEntries_In, Iba in He. destruct He as [_ Hx].
    symmetry in Hx. destruct (lastKept_In _ _ _ _ Hx) as (d & Hd & <- & _).
    apply Ha, Hd.
  - apply definedEntries_sorted in Sab. unfold keysSorted in *.
    rewrite map_map. cbn [fst]. exact Sab.
  - intros [k [y x]]. rewrite definedEntries_In, Iba, in_map_iff. split.
    + intros [Hy Hx]. exists (k, (x, y)). split; [ reflexivity | ].
      apply definedEntries_In, Iab. auto.
    + intros ([k' [x' y']] & [= -> -> ->] & He).
      apply definedEntries_In, Iab in He. destruct He as [Hx Hy]. auto.
Qed.

Lemma pearsonPairs_swap (a b : TimeSeries) :
  indexYears a -> pearsonPairs b a = map swap (pearsonPairs a b).
Proof.
  intros Ha. unfold pearsonPairs.
  rewrite !definedPairs_entries, (definedEntries_swap a b Ha), !map_map.
  reflexivity.
Qed.

Lemma pearson_swap (a b : TimeSeries) : indexYears a -> pearson a b = pearson b a.
Proof.
  intros Ha. unfold pearson. rewrite (pearsonPairs_swap a b Ha). symmetry.
  apply pearsonOfPairs_swap.
Qed.

End PearsonSymmetry.

(** X6. When the years of one of the two series are array indices (from
    0 to 2^32 - 2, as calendar years are), the correlation does not
    depend on the order of its arguments: the aligned years are
    enumerated in ascending order either way, and each sum of the loop
    is unchanged or exchanged with its counterpart. *)
Theorem pearson_symmetric (a b : TimeSeries) :
  indexYears a \/ indexYears b ->
  Engine.pearson a b = Engine.pearson b a.
Proof.
  intros [Ha | Hb]; [ apply pearson_swap, Ha | symmetry; apply pearson_swap, Hb ].
Qed.

(** The driver and the follower have the years 2000 to 2013. *)
Lemma pearson_symmetric_witness :
  Engine.pearson driverX followerY = Engine.pearson followerY driverX.
Proof.
  apply (pearson_symmetric driverX followerY). left.
  apply indexYears_forallb. vm_compute. reflexivity.
Defined.

(** Years that are not array indices are enumerated in the order of
    their creation, which is that of the first argument: on the years
    -1 to -4, listed in opposite orders, the sums are accumulated in
    opposite orders and the correlation is 0 one way and -0 the other. *)
Example pearson_insertion_order :
  let a := series [((-1)%Z, 0.1); ((-2)%Z, 0.1); ((-3)%Z, 0.2); ((-4)%Z, 0.2)]%float in
  let b := series [((-4)%Z, 0.1); ((-3)%Z, 0.2); ((-2)%Z, 0.2); ((-1)%Z, 0.1)]%float in
  Engine.pearson a b = Some 0%float /\ Engine.pearson b a = Some neg_zero.
Proof. split; vm_compute; reflexivity. Qed.

(** X7. [pearson] answers [null] exactly when fewer than three years carry
    a value other than [null] in both series. *)
Theorem pearson_null_iff (a b : TimeSeries) :
  exists years : list Z,
    NoDup years /\
    (forall k, In k years
               <-> lastKept notNull k a <> None /\ lastKept notNull k b <> None) /\
    (Engine.pearson a b = None <-> length years < 3).
Proof.
  exists (map fst (definedEntries (Engine.pearsonByYear a b))).
  destruct (secondPass_inv notNull a b) as [Hs Hin].
  rewrite <- pearsonByYear_passes in Hs, Hin.
  split; [ apply keysOrdered_NoDup, definedEntries_ordered, Hs | ]. split.
  - intros k. rewrite in_map_iff. split.
    + intros ([k' [x y]] & <- & He). cbn [fst].
      apply definedEntries_In, Hin in He. destruct He as [Hx Hy].
      rewrite Hx, <- Hy. split; discriminate.
    + intros [Hx Hy].
      destruct (lastKept notNull k a) as [x | ] eqn:Ex; [ | congruence ].
      destruct (lastKept notNull k b) as [y | ] eqn:Ey; [ | congruence ].
      exists (k, (x, y)). split; [ reflexivity | ].
      apply definedEntries_In, Hin. auto.
  - unfold Engine.pearson, Engine.pearsonPairs. rewrite definedPairs_entries.
    unfold Engine.pearsonOfPairs. rewrite !length_map.
    destruct (Nat.ltb_spec (length (definedEntries (Engine.pearsonByYear a b))) 3)
      as [Hlt | Hge].
    + split; [ intros _; exact Hlt | reflexivity ].
    + split; [ | lia ].
      destruct (Engine.pearsonSums _ _ _ _ _) as [[? ?] ?]. discriminate.
Qed.

(** ** The elimination kernel: pivoting and shape *)

Section Pivoting.
Import JS Causal.

Lemma ltb_trans (x y z : float) :
  (x <? y)%float = true -> (y <? z)%float = true -> (x <? z)%float = true.
Proof.
  intros Hxy Hyz.
  destruct (FloatOrder.ltb_not_nan _ _ Hxy) as [Hx Hy].
  destruct (FloatOrder.ltb_not_nan _ _ Hyz) as [_ Hz].
  apply (FloatOrder.ltb_key x y Hx Hy) in Hxy. apply (FloatOrder.ltb_key y z Hy Hz) in Hyz.
  apply (FloatOrder.ltb_key x z Hx Hz). unfold FloatKey.lexLt in *.
  destruct (FloatKey.key (Prim2SF x)) as [[a b] c], (FloatKey.key (Prim2SF y)) as [[a' b'] c'],
    (FloatKey.key (Prim2SF z)) as [[a'' b''] c'']. lia.
Qed.

(** A running maximum: the index kept by the loop is one of the indices
    visited, and no visited index has a greater image. *)
Lemma argmax_fold (f : nat -> float) (rs seen : list nat) (cur : nat) :
  In cur seen -> (forall r, In r seen -> (f cur <? f r)%float = false) ->
  let p := fold_left (fun m r => if (f m <? f r)%float then r else m) rs cur in
  In p (seen ++ rs) /\ forall r, In r (seen ++ rs) -> (f p <? f r)%float = false.
Proof.
  revert seen cur. induction rs as [ | r rs IH]; intros seen cur Hin Hmax; cbn [fold_left].
  - rewrite app_nil_r. auto.
  - replace (seen ++ r :: rs) with ((seen ++ [r]) ++ rs) by (rewrite <- app_assoc; reflexivity).
    destruct (f cur <? f r)%float eqn:E.
    + apply IH; [ apply in_or_app; right; left; reflexivity | ].
      intros s Hs. apply in_app_or in Hs. destruct Hs as [Hs | [<- | []]].
      * destruct (f r <? f s)%float eqn:E'; [ | reflexivity ].
        specialize (Hmax s Hs). rewrite (ltb_trans _ _ _ E E') in Hmax. discriminate.
      * apply FloatOrder.ltb_irrefl.
    + apply IH; [ apply in_or_app; left; exact Hin | ].
      intros s Hs. apply in_app_or in Hs. destruct Hs as [Hs | [<- | []]].
      * apply Hmax, Hs.
      * exact E.
Qed.

Lemma backSubstitute_length (M : matrix) (n : nat) : length (backSubstitute M n) = n.
Proof.
  unfold backSubstitute.
  assert (H : forall l x, length (fold_left (backRow M n) l x) = length x).
  { induction l as [ | i l IH]; intros x; cbn [fold_left]; [ reflexivity | ].
    rewrite IH. unfold backRow. apply length_set_nth. }
  rewrite H. apply repeat_length.
Qed.

End Pivoting.

(** X8. Partial pivoting picks, among the rows from [col] down, a row whose
    entry in column [col] is exceeded in magnitude by none of them. *)
Theorem pivotRow_maximal (M : Causal.matrix) (n col : nat) :
  let p := Causal.pivotRow M n col in
  col <= p /\ (p < n \/ p = col) /\
  forall r, col <= r < n ->
    (JS.Math_abs (Causal.entry M p col) <? JS.Math_abs (Causal.entry M r col))%float = false.
Proof.
  cbv zeta.
  assert (G : forall p,
            In p ([col] ++ JS.range (S col) n) /\
            (forall r, In r ([col] ++ JS.range (S col) n) ->
                       (JS.Math_abs (Causal.entry M p col)
                        <? JS.Math_abs (Causal.entry M r col))%float = false) ->
            col <= p /\ (p < n \/ p = col) /\
            forall r, col <= r < n ->
              (JS.Math_abs (Causal.entry M p col)
               <? JS.Math_abs (Causal.entry M r col))%float = false).
  { intros p [Hin Hmax].
    assert (Hr : forall r, In r ([col] ++ JS.range (S col) n)
                           <-> r = col \/ S col <= r < n).
    { intros r. cbn [app In]. unfold JS.range. rewrite in_seq. split.
      - intros [<- | H]; [ left; reflexivity | right; lia ].
      - intros [-> | H]; [ left; reflexivity | right; lia ]. }
    apply Hr in Hin. split; [ lia | ]. split; [ lia | ].
    intros r Hrange. apply Hmax, Hr. lia. }
  apply G.
  apply (argmax_fold (fun r => JS.Math_abs (Causal.entry M r col))
           (JS.range (S col) n) [col] col (or_introl eq_refl)).
  intros r [<- | []]. apply FloatOrder.ltb_irrefl.
Qed.

(** X9. A solution has one component per equation; the empty system has
    the empty solution; and a single equation [a x = c] is declared
    singular when the magnitude of [a] is below 1e-12 and solved by the
    quotient [c / a] otherwise. *)
Theorem solveLinearSystem_shape :
  (forall A b x, Causal.solveLinearSystem A b = Some x -> length x = length A) /\
  (forall b, Causal.solveLinearSystem [] b = Some []) /\
  (forall a c : float,
     Causal.solveLinearSystem [[a]] [c]
     = if (JS.Math_abs a <? 1e-12)%float then None else Some [(c / a)%float]).
Proof.
  split; [ | split ].
  - intros A b x. unfold Causal.solveLinearSystem.
    destruct (Causal.forward _ _ _) as [M | ]; [ | discriminate ].
    intros [= <-]. apply backSubstitute_length.
  - intros b. reflexivity.
  - intros a c. cbv -[PrimFloat.ltb PrimFloat.abs PrimFloat.div].
    destruct (abs a <? 1e-12)%float; reflexivity.
Qed.

(** ** The normal equations *)

Section GridFacts.
Context {A : Type}.

Lemma square_set (k : nat) (M : list (list A)) (i j : nat) (v : A) :
  square k M -> square k (JS.set_nth i (JS.set_nth j v (nth i M [])) M).
Proof.
  intros [Hl Hr]. split.
  - rewrite length_set_nth. exact Hl.
  - intros a Ha. destruct (Nat.eq_dec i a) as [-> | Hne].
    + rewrite nth_set_nth_eq by lia. rewrite length_set_nth. apply Hr, Ha.
    + rewrite nth_set_nth_ne by exact Hne. apply Hr, Ha.
Qed.

Lemma square_set_nth (k : nat) (M : list (list A)) (i j : nat) (v d : A) (a b : nat) :
  square k M -> i < k -> j < k ->
  nth b (nth a (JS.set_nth i (JS.set_nth j v (nth i M [])) M) []) d
  = if (a =? i) && (b =? j) then v else nth b (nth a M []) d.
Proof.
  intros [Hl Hr] Hi Hj.
  destruct (Nat.eqb_spec a i) as [-> | Hne]; cbn [andb].
  - rewrite nth_set_nth_eq by lia.
    destruct (Nat.eqb_spec b j) as [-> | Hne'].
    + apply nth_set_nth_eq. rewrite Hr; lia.
    + apply nth_set_nth_ne. congruence.
  - rewrite nth_set_nth_ne by congruence. reflexivity.
Qed.

Lemma square_repeat (k : nat) (v d : A) :
  square k (repeat (repeat v k) k) /\
  forall a b, a < k -> b < k -> nth b (nth a (repeat (repeat v k) k) []) d = v.
Proof.
  split; [ split | ].
  - apply repeat_length.
  - intros a Ha. rewrite nth_repeat_lt by exact Ha. apply repeat_length.
  - intros a b Ha Hb. rewrite nth_repeat_lt by exact Ha. apply nth_repeat_lt, Hb.
Qed.

End GridFacts.

Ltac nat_cases :=
  repeat match goal with
         | |- context [?a =? ?b] => destruct (Nat.eqb_spec a b)
         | |- context [?a <? ?b] => destruct (Nat.ltb_spec a b)
         | |- context [?a <=? ?b] => destruct (Nat.leb_spec a b)
         end;
  cbn [andb orb negb]; try reflexivity; try lia.

Section GramFacts.
Import JS Causal.

Lemma gram_inner (X : matrix) (n k i : nat) (m j : nat) (G : matrix) :
  i < k -> j + m = S i -> gramInv X n k i j G ->
  gramInv X n k (S i) 0
    (fold_left
       (fun G' j =>
          let s := fold_left (fun s t => (s + entry X t i * entry X t j)%float)
                             (range 0 n) 0%float in
          setEntry (setEntry G' i j s) j i s)
       (seq j m) G).
Proof.
  revert j G. induction m as [ | m IH]; intros j G Hi Hj HG; cbn [seq fold_left].
  - destruct HG as [Hd Hc]. split; [ exact Hd | ].
    intros a b Ha Hb. rewrite (Hc a b Ha Hb). unfold gramState. nat_cases.
  - apply IH; [ exact Hi | lia | ]. destruct HG as [Hd Hc]. split.
    + apply square_set, square_set, Hd.
    + intros a b Ha Hb. unfold entry, row, at_, setEntry, row.
      rewrite (square_set_nth k) by (try apply square_set; auto; lia).
      rewrite (square_set_nth k) by (auto; lia).
      specialize (Hc a b Ha Hb). unfold entry, row, at_ in Hc. rewrite Hc.
      unfold gramState, columnProduct.
      destruct (Nat.eqb_spec a j) as [-> | Haj];
        destruct (Nat.eqb_spec b i) as [-> | Hbi]; cbn [andb].
      * rewrite Nat.max_r, Nat.min_l by lia. nat_cases.
      * destruct (Nat.eqb_spec j i) as [-> | Hji]; cbn [andb]; [ | nat_cases ].
        destruct (Nat.eqb_spec b i) as [-> | ]; [ lia | ]. nat_cases.
      * destruct (Nat.eqb_spec a i) as [-> | Hai]; cbn [andb]; nat_cases.
      * destruct (Nat.eqb_spec a i) as [-> | Hai];
          destruct (Nat.eqb_spec b j) as [-> | Hbj]; cbn [andb].
        -- rewrite Nat.max_l, Nat.min_r by lia. nat_cases.
        -- nat_cases.
        -- nat_cases.
        -- nat_cases.
Qed.

Lemma gram_outer (X : matrix) (n k : nat) (m i : nat) (G : matrix) :
  i + m = k -> gramInv X n k i 0 G ->
  gramInv X n k k 0
    (fold_left
       (fun G i =>
          fold_left
            (fun G' j =>
               let s := fold_left (fun s t => (s + entry X t i * entry X t j)%float)
                                  (range 0 n) 0%float in
               setEntry (setEntry G' i j s) j i s)
            (range 0 (S i)) G)
       (seq i m) G).
Proof.
  revert i G. induction m as [ | m IH]; intros i G Hk HG; cbn [seq fold_left].
  - assert (E : i = k) by lia. subst i. exact HG.
  - apply IH; [ lia | ].
    assert (Hr : range 0 (S i) = seq 0 (S i)) by (unfold range; f_equal).
    rewrite Hr. apply (gram_inner X n k i (S i) 0); [ lia | lia | exact HG ].
Qed.

Lemma gram_cells (X : matrix) (n k : nat) :
  square k (gram X n k) /\
  forall a b, a < k -> b < k ->
    entry (gram X n k) a b = columnProduct X n (Nat.max a b) (Nat.min a b).
Proof.
  unfold gram.
  assert (Hr : range 0 k = seq 0 k) by (unfold range; f_equal; lia).
  rewrite Hr.
  assert (H0 : gramInv X n k 0 0 (repeat (repeat 0%float k) k)).
  { destruct (square_repeat k 0%float undefined_num) as [Hd Hc]. split; [ exact Hd | ].
    intros a b Ha Hb. unfold entry, row, at_. rewrite (Hc a b Ha Hb).
    unfold gramState. nat_cases. }
  destruct (gram_outer X n k k 0 _ ltac:(lia) H0) as [Hd Hc].
  split; [ exact Hd | ].
  intros a b Ha Hb.
  transitivity (gramState X n k 0 a b); [ exact (Hc a b Ha Hb) | ].
  unfold gramState. nat_cases.
Qed.

End GramFacts.

(** X10. The matrix [X'X] handed to the elimination kernel is a [k] by [k]
    array, symmetric entry for entry, whose cell [(i, j)] with [j <= i]
    is the sum, over the rows of [X], of the products of the columns [i]
    and [j]. *)
Theorem gram_symmetric (X : Causal.matrix) (n k : nat) :
  let G := Causal.gram X n k in
  square k G /\
  (forall i j, i < k -> j < k -> Causal.entry G i j = Causal.entry G j i) /\
  (forall i j, j <= i -> i < k -> Causal.entry G i j = columnProduct X n i j).
Proof.
  intros G. destruct (gram_cells X n k) as [Hd Hc]. fold G in Hd, Hc.
  split; [ exact Hd | ]. split.
  - intros i j Hi Hj. rewrite (Hc i j Hi Hj), (Hc j i Hj Hi).
    rewrite Nat.max_comm, Nat.min_comm. reflexivity.
  - intros i j Hji Hi. rewrite (Hc i j) by lia.
    rewrite Nat.max_l, Nat.min_r by lia. reflexivity.
Qed.

(** ** Operations that cannot produce NaN *)

Section NotNaN.
Import FloatKey.
Local Open Scope Z_scope.

Lemma shr_fexp_nonneg (m e : Z) (l : location) :
  0 <= m -> 0 <= shr_m (fst (shr_fexp prec emax m e l)).
Proof.
  intros Hm. unfold shr_fexp, shr.
  assert (Hrec : shr_m (shr_record_of_loc m l) = m)
    by (destruct l as [ | []]; reflexivity).
  destruct (fexp prec emax (Zdigits2 m + e) - e) as [ | n | n]; cbn [fst].
  - rewrite Hrec. exact Hm.
  - apply (proj2 (FloatOrder.iter_shr_digits n _)). rewrite Hrec. exact Hm.
  - rewrite Hrec. exact Hm.
Qed.

Lemma round_nearest_even_nonneg (m : Z) (l : location) :
  0 <= m -> 0 <= round_nearest_even m l.
Proof.
  intros H. destruct l as [ | []]; cbn [round_nearest_even]; try lia.
  destruct (Z.even m); lia.
Qed.

(** Rounding a magnitude that is not negative never yields NaN. *)
Lemma binary_round_aux_not_nan (sx : bool) (m e : Z) (l : location) :
  0 <= m -> binary_round_aux prec emax sx m e l <> S754_nan.
Proof.
  intros Hm. unfold binary_round_aux.
  pose proof (shr_fexp_nonneg m e l Hm) as H1.
  destruct (shr_fexp prec emax m e l) as [mrs' e']. cbn [fst] in H1.
  pose proof (shr_fexp_nonneg _ e' loc_Exact
                (round_nearest_even_nonneg _ (loc_of_shr_record mrs') H1)) as H2.
  destruct (shr_fexp prec emax _ e' loc_Exact) as [mrs'' e'']. cbn [fst] in H2.
  destruct (shr_m mrs'') as [ | p | p]; try lia; try discriminate.
  destruct (e'' <=? emax - prec); discriminate.
Qed.

Lemma binary_normalize_not_nan (m e : Z) (sz : bool) :
  binary_normalize prec emax m e sz <> S754_nan.
Proof.
  destruct m as [ | p | p]; cbn [binary_normalize]; [ discriminate | | ];
    unfold binary_round;
    destruct (shl_align p e _) as [mz ez]; apply binary_round_aux_not_nan; lia.
Qed.

Lemma SFmul_finite_not_nan (x : spec_float) (sy : bool) (my : positive) (ey : Z) :
  x <> S754_nan -> SF64mul x (S754_finite sy my ey) <> S754_nan.
Proof.
  intros Hx. unfold SF64mul, SFmul.
  destruct x as [sx | sx | | sx mx ex]; try discriminate; [ congruence | ].
  apply binary_round_aux_not_nan. lia.
Qed.

Lemma SFdiv_finite_not_nan (x : spec_float) (sy : bool) (my : positive) (ey : Z) :
  x <> S754_nan -> SF64div x (S754_finite sy my ey) <> S754_nan.
Proof.
  intros Hx. unfold SF64div, SFdiv.
  destruct x as [sx | sx | | sx mx ex]; try discriminate; [ congruence | ].
  unfold SFdiv_core_binary.
  set (s := ex - ey - _).
  set (m' := match s with 0 => Z.pos mx | Z.pos _ => Z.shiftl (Z.pos mx) s | Z.neg _ => 0 end).
  assert (Hm' : 0 <= m').
  { subst m'. destruct s as [ | p | p]; try lia.
    apply Z.shiftl_nonneg. lia. }
  change (IntDef.Z.div_eucl m' (Z.pos my)) with (Z.div_eucl m' (Z.pos my)).
  pose proof (Z_div_mod m' (Z.pos my) ltac:(lia)) as Hdiv.
  destruct (Z.div_eucl m' (Z.pos my)) as [q r].
  apply binary_round_aux_not_nan. destruct Hdiv as [Heq Hr]. nia.
Qed.

End NotNaN.

Section NotNaNFloat.
Import JS.

Lemma mul_finite_not_nan (x y : float) (sy : bool) (my : positive) (ey : Z) :
  Prim2SF y = S754_finite sy my ey -> is_nan x = false -> is_nan (x * y) = false.
Proof.
  intros Hy. rewrite !FloatOrder.not_nan_spec, FloatAxioms.mul_spec, Hy.
  apply SFmul_finite_not_nan.
Qed.

Lemma div_finite_not_nan (x y : float) (sy : bool) (my : positive) (ey : Z) :
  Prim2SF y = S754_finite sy my ey -> is_nan x = false -> is_nan (x / y) = false.
Proof.
  intros Hy. rewrite !FloatOrder.not_nan_spec, FloatAxioms.div_spec, Hy.
  apply SFdiv_finite_not_nan.
Qed.

Lemma of_Z_not_nan (z : Z) : is_nan (of_Z z) = false.
Proof.
  rewrite FloatOrder.not_nan_spec, FloatExact.of_Z_spec. apply binary_normalize_not_nan.
Qed.

Lemma Math_round_not_nan (x : float) : is_nan x = false -> is_nan (Math_round x) = false.
Proof.
  intros H. unfold Math_round.
  destruct (Prim2SF x) as [ | | | s m e]; try exact H.
  destruct (0 <=? e)%Z; [ exact H | ].
  cbv zeta. destruct (_ =? 0)%Z; [ destruct s; reflexivity | apply of_Z_not_nan ].
Qed.

(** Rounding to a number of decimals ([Math.round(p * 10000) / 10000])
    never turns a number into NaN. *)
Lemma rounded_not_nan (p scale : float) (s : bool) (m : positive) (e : Z) :
  Prim2SF scale = S754_finite s m e ->
  is_nan p = false -> is_nan (Math_round (p * scale) / scale) = false.
Proof.
  intros Hs Hp. apply (div_finite_not_nan _ _ s m e Hs), Math_round_not_nan.
  apply (mul_finite_not_nan _ _ s m e Hs), Hp.
Qed.

End NotNaNFloat.

(** ** The matrix of pairwise Granger tests *)

Section CausalMatrixFacts.
Import JS Causal.

Variable Math_log Math_exp : float -> float.

Local Abbreviation test := (pairTest Math_log Math_exp).
Local Abbreviation final := (finalCell Math_log Math_exp).
Local Abbreviation state := (causalState Math_log Math_exp).
Local Abbreviation pushed := (pushedFor Math_log Math_exp).
Local Abbreviation inv := (causalInv Math_log Math_exp).
Local Abbreviation step := (Causal.causalStep Math_log Math_exp).

(** A test that concludes to causality reports a p-value that is a
    number. *)
Lemma causal_not_nan (x y : TimeSeries) (maxLag : nat) (g : GrangerResult) :
  grangerTest Math_log Math_exp x y maxLag = Some g -> causal g = true ->
  is_nan (bestP g) = false.
Proof.
  unfold grangerTest. destruct (_ <? _); [ discriminate | ].
  destruct (lagLoop _ _ _ _ _) as [ | r0 rest] eqn:E; [ discriminate | ].
  intros [= <-]. cbn [causal bestP]. intros Hc.
  pose proof (pickBest_In r0 rest) as Hin. rewrite <- E in Hin.
  apply lagLoop_In in Hin. destruct Hin as (L & _ & Hb).
  apply lagBody_Some in Hb. destruct Hb as (_ & rssR & rssU & _ & _ & _ & _ & Hr).
  cbv zeta in Hr. rewrite Hr in Hc |- *. cbn [significant pValue] in *.
  apply FloatOrder.ltb_not_nan in Hc. destruct Hc as [Hp _].
  eapply rounded_not_nan; [ vm_compute; reflexivity | exact Hp ].
Qed.

Lemma causal_inner_step (datasets : list IndicatorDataset) (labels : list string)
  (maxLag k i j : nat) (st : causalCells * list CausalPair) :
  i < k -> j < k -> inv datasets labels maxLag k i j st ->
  inv datasets labels maxLag k i (S j) (step datasets labels maxLag i st j).
Proof.
  intros Hi Hj (Hd & Hc & Hp).
  assert (Hvis : forall p,
            (exists a b, a < k /\ b < k /\ (a < i \/ (a = i /\ b < S j)) /\
                         pushed datasets labels maxLag a b p)
            <-> In p (snd st) \/ pushed datasets labels maxLag i j p).
  { intros p. rewrite Hp. split.
    - intros (a & b & Ha & Hb & Hv & Hpush).
      destruct (Nat.eq_dec a i) as [-> | Hai]; [ destruct (Nat.eq_dec b j) as [-> | Hbj] | ].
      + right. exact Hpush.
      + left. exists i, b. split; [ exact Ha | ]. split; [ exact Hb | ].
        split; [ right; lia | exact Hpush ].
      + left. exists a, b. split; [ exact Ha | ]. split; [ exact Hb | ].
        split; [ left; lia | exact Hpush ].
    - intros [(a & b & Ha & Hb & Hv & Hpush) | Hpush].
      + exists a, b. split; [ exact Ha | ]. split; [ exact Hb | ].
        split; [ lia | exact Hpush ].
      + exists i, j. split; [ exact Hi | ]. split; [ exact Hj | ].
        split; [ right; lia | exact Hpush ]. }
  assert (Hstate : forall a b, a < k -> b < k ->
            state datasets maxLag i (S j) a b
            = if (a =? i) && (b =? j) then final datasets maxLag i j
              else state datasets maxLag i j a b).
  { intros a b Ha Hb. unfold causalState.
    destruct (Nat.eqb_spec a i) as [-> | Hai]; destruct (Nat.eqb_spec b j) as [-> | Hbj];
      cbn [andb orb]; nat_cases. }
  unfold Causal.causalStep.
  destruct (Nat.eqb_spec i j) as [<- | Hij].
  - split; [ exact Hd | ]. split.
    + intros a b Ha Hb. rewrite (Hstate a b Ha Hb), (Hc a b Ha Hb).
      destruct (Nat.eqb_spec a i) as [-> | Hai]; destruct (Nat.eqb_spec b i) as [-> | Hbi];
        cbn [andb]; try reflexivity.
      unfold causalState. nat_cases.
    + intros p. rewrite Hvis. split; [ auto | ].
      intros [H | [H _]]; [ exact H | congruence ].
  - fold (test datasets maxLag i j).
    destruct (test datasets maxLag i j) as [result | ] eqn:G.
    + split; [ apply square_set, Hd | ]. split.
      * intros a b Ha Hb. cbn [fst]. unfold causalCell, setCausalCell.
        rewrite (square_set_nth k) by auto.
        rewrite (Hstate a b Ha Hb). specialize (Hc a b Ha Hb). unfold causalCell in Hc.
        rewrite Hc. destruct ((a =? i) && (b =? j)); [ | reflexivity ].
        unfold finalCell. fold (test datasets maxLag i j). rewrite G.
        destruct (Nat.eqb_spec i j); [ congruence | reflexivity ].
      * intros p. rewrite Hvis. cbn [snd]. unfold pushedFor.
        fold (test datasets maxLag i j). rewrite G.
        destruct (causal result) eqn:C.
        -- rewrite in_app_iff. cbn [In]. split.
           ++ intros [H | [<- | []]]; [ left; exact H | right ].
              split; [ exact Hij | ]. exists result. auto.
           ++ intros [H | (_ & g & [= <-] & _ & ->)]; [ left; exact H | right; left; reflexivity ].
        -- split; [ auto | ].
           intros [H | (_ & g & [= <-] & Hg & _)]; [ exact H | congruence ].
    + split; [ exact Hd | ]. split.
      * intros a b Ha Hb. rewrite (Hstate a b Ha Hb), (Hc a b Ha Hb).
        destruct (Nat.eqb_spec a i) as [-> | Hai]; destruct (Nat.eqb_spec b j) as [-> | Hbj];
          cbn [andb]; try reflexivity.
        unfold causalState, finalCell. fold (test datasets maxLag i j).
        rewrite G. nat_cases.
      * intros p. rewrite Hvis. unfold pushedFor.
        fold (test datasets maxLag i j). rewrite G. split; [ auto | ].
        intros [H | (_ & g & [=] & _)]. exact H.
Qed.

Lemma causal_inner (datasets : list IndicatorDataset) (labels : list string)
  (maxLag k i : nat) (m j : nat) (st : causalCells * list CausalPair) :
  i < k -> j + m = k -> inv datasets labels maxLag k i j st ->
  inv datasets labels maxLag k i k
    (fold_left (step datasets labels maxLag i) (seq j m) st).
Proof.
  revert j st. induction m as [ | m IH]; intros j st Hi Hk Hst; cbn [seq fold_left].
  - assert (E : j = k) by lia. subst j. exact Hst.
  - apply IH; [ exact Hi | lia | ]. apply causal_inner_step; [ exact Hi | lia | exact Hst ].
Qed.

Lemma causal_outer (datasets : list IndicatorDataset) (labels : list string)
  (maxLag k : nat) (m i : nat) (st : causalCells * list CausalPair) :
  i + m = k ->
  (square k (fst st) /\
   (forall a b, a < k -> b < k ->
      causalCell (fst st) a b = if a <? i then final datasets maxLag a b else None) /\
   (forall p, In p (snd st)
              <-> exists a b, a < k /\ b < k /\ a < i /\
                              pushed datasets labels maxLag a b p)) ->
  inv datasets labels maxLag k k 0
    (fold_left
       (fun st i =>
          fold_left (step datasets labels maxLag i) (range 0 k)
                    (setCausalCell (fst st) i i (Some selfCell), snd st))
       (seq i m) st).
Proof.
  revert i st. induction m as [ | m IH]; intros i st Hk (Hd & Hc & Hp); cbn [seq fold_left].
  - assert (E : i = k) by lia. subst i. split; [ exact Hd | ]. split.
    + intros a b Ha Hb. rewrite (Hc a b Ha Hb). unfold causalState. nat_cases.
    + intros p. rewrite Hp. split; intros (a & b & Ha & Hb & Hv & Hpush);
        exists a, b; (split; [ exact Ha | ]; split; [ exact Hb | ];
                      split; [ lia | exact Hpush ]).
  - assert (Hr : range 0 k = seq 0 k) by (unfold range; f_equal; lia).
    assert (H1 : inv datasets labels maxLag k i 0
                   (setCausalCell (fst st) i i (Some selfCell), snd st)).
    { split; [ apply square_set, Hd | ]. split.
      - intros a b Ha Hb. cbn [fst]. unfold causalCell, setCausalCell.
        rewrite (square_set_nth k) by (auto; lia).
        specialize (Hc a b Ha Hb). unfold causalCell in Hc. rewrite Hc.
        unfold causalState, finalCell.
        destruct (Nat.eqb_spec a i) as [-> | Hai]; destruct (Nat.eqb_spec b i) as [-> | Hbi];
          cbn [andb orb]; nat_cases.
      - intros p. cbn [snd]. rewrite Hp. split; intros (a & b & Ha & Hb & Hv & Hpush);
          exists a, b; (split; [ exact Ha | ]; split; [ exact Hb | ];
                        split; [ lia | exact Hpush ]). }
    pose proof (causal_inner datasets labels maxLag k i k 0 _ ltac:(lia) ltac:(lia) H1)
      as Hrow.
    rewrite <- Hr in Hrow. destruct Hrow as (Hd' & Hc' & Hp').
    apply IH; [ lia | ].
    split; [ exact Hd' | ]. split.
    + intros a b Ha Hb. rewrite (Hc' a b Ha Hb). unfold causalState. nat_cases.
    + intros p. rewrite Hp'. split; intros (a & b & Ha & Hb & Hv & Hpush);
        exists a, b; (split; [ exact Ha | ]; split; [ exact Hb | ];
                      split; [ lia | exact Hpush ]).
Qed.

Lemma causalFill_inv (datasets : list IndicatorDataset) (labels : list string)
  (maxLag : nat) :
  let k := length datasets in
  inv datasets labels maxLag k k 0
            (causalFill Math_log Math_exp datasets labels maxLag).
Proof.
  intros k. unfold causalFill. fold k.
  assert (Hr : range 0 k = seq 0 k) by (unfold range; f_equal; lia).
  rewrite Hr at 1.
  apply (causal_outer datasets labels maxLag k k 0); [ lia | ].
  destruct (square_repeat k (@None CausalCell) None) as [Hd Hc].
  split; [ exact Hd | ]. split.
  - intros a b Ha Hb. cbn [fst]. unfold causalCell. rewrite (Hc a b Ha Hb). reflexivity.
  - intros p. cbn [snd In]. split; [ intros [] | ].
    intros (a & b & _ & _ & Hv & _). lia.
Qed.

(** The pairs are sorted by the p-value they report. *)
Lemma causalPairs_sorted (pairs : list CausalPair) :
  (forall p, In p pairs -> is_nan (cp_pValue p) = false) ->
  StronglySorted (fun p q => (cp_pValue p <=? cp_pValue q)%float = true)
                 (sort (fun a b => (cp_pValue a - cp_pValue b)%float) pairs).
Proof.
  intros Hn.
  apply (StronglySorted_weaken
           (fun p q => (cp_pValue q <? cp_pValue p)%float = false)).
  - intros p q Hp Hq H. apply sort_In in Hp, Hq.
    apply FloatOrder.ltb_false_leb; auto.
  - apply (sort_sorted _ (fun p q => (cp_pValue q <? cp_pValue p)%float)).
    split; [ | split ].
    + intros x y _ _. unfold gt0. apply FloatOrder.sub_gt0.
    + intros x y _ _. apply FloatOrder.ltb_asym.
    + intros x y z Hx Hy Hz H1 H2.
      apply (FloatOrder.ltb_false_trans (cp_pValue z) (cp_pValue y) (cp_pValue x)); auto.
Qed.

End CausalMatrixFacts.

(** X11. The causal matrix is a [k] by [k] array for [k] datasets; its
    diagonal holds the fixed cell [{causal: false, pValue: 1, fStat: 0}];
    the cell [(i, j)] off the diagonal holds the verdict of the Granger
    test of dataset [i] as a cause of dataset [j], the tests being run
    in both directions, and is left [null] when that test returns
    [null]. *)
Theorem causalMatrix_cells (Math_log Math_exp : float -> float)
  (datasets : list Causal.IndicatorDataset) (maxLag : nat) :
  let r := Causal.causalMatrix Math_log Math_exp datasets maxLag in
  let k := length datasets in
  Causal.cm_labels r = map Causal.labelOf datasets /\
  square k (Causal.cm_matrix r) /\
  (forall i, i < k -> Causal.causalCell (Causal.cm_matrix r) i i = Some Causal.selfCell) /\
  (forall i j, i < k -> j < k -> i <> j ->
     Causal.causalCell (Causal.cm_matrix r) i j
     = option_map Causal.cellOfResult
         (Causal.grangerTest Math_log Math_exp
            (Causal.causalDataAt datasets i) (Causal.causalDataAt datasets j) maxLag)).
Proof.
  intros r k. subst r. unfold Causal.causalMatrix.
  cbn [Causal.cm_labels Causal.cm_matrix].
  destruct (causalFill_inv Math_log Math_exp datasets (map Causal.labelOf datasets) maxLag)
    as (Hd & Hc & _). fold k in Hd, Hc.
  split; [ reflexivity | ]. split; [ exact Hd | ]. split.
  - intros i Hi. rewrite (Hc i i Hi Hi). unfold causalState, finalCell.
    rewrite Nat.eqb_refl. nat_cases.
  - intros i j Hi Hj Hij. rewrite (Hc i j Hi Hj). unfold causalState, finalCell, pairTest.
    destruct (Nat.eqb_spec i j); [ congruence | ]. nat_cases.
Qed.

(** X12. The causal pairs are exactly the ordered pairs of distinct datasets
    whose test concludes to causality, each with the labels of its
    datasets and the statistics of its test; they are returned sorted
    by increasing p-value, the sort being done in place, and the
    insights are drawn from the first eight of them. *)
Theorem causalMatrix_pairs (Math_log Math_exp : float -> float)
  (datasets : list Causal.IndicatorDataset) (maxLag : nat) :
  let r := Causal.causalMatrix Math_log Math_exp datasets maxLag in
  let k := length datasets in
  (forall p, In p (Causal.causalPairs r)
             <-> exists i j g,
                   i < k /\ j < k /\ i <> j /\
                   Causal.grangerTest Math_log Math_exp
                     (Causal.causalDataAt datasets i) (Causal.causalDataAt datasets j) maxLag
                   = Some g /\
                   Causal.causal g = true /\
                   p = Causal.pairOfResult (map Causal.labelOf datasets) i j g) /\
  StronglySorted
    (fun p q => (Causal.cp_pValue p <=? Causal.cp_pValue q)%float = true)
    (Causal.causalPairs r) /\
  Causal.cm_insights r = map Causal.insightOfPair (firstn 8 (Causal.causalPairs r)) /\
  length (Causal.cm_insights r) <= 8.
Proof.
  intros r k. subst r. unfold Causal.causalMatrix.
  cbn [Causal.causalPairs Causal.cm_insights].
  destruct (causalFill_inv Math_log Math_exp datasets (map Causal.labelOf datasets) maxLag)
    as (_ & _ & Hp). fold k in Hp.
  set (pairs := snd (Causal.causalFill Math_log Math_exp datasets _ maxLag)) in *.
  assert (Hin : forall p, In p pairs
            <-> exists i j g,
                  i < k /\ j < k /\ i <> j /\
                  Causal.grangerTest Math_log Math_exp
                    (Causal.causalDataAt datasets i) (Causal.causalDataAt datasets j) maxLag
                  = Some g /\
                  Causal.causal g = true /\
                  p = Causal.pairOfResult (map Causal.labelOf datasets) i j g).
  { intros p. rewrite Hp. unfold pushedFor, pairTest. split.
    - intros (a & b & Ha & Hb & _ & Hab & g & Hg & Hc & ->). exists a, b, g. auto 10.
    - intros (a & b & g & Ha & Hb & Hab & Hg & Hc & ->). exists a, b.
      repeat split; auto. exists g. auto. }
  split; [ | split; [ | split ] ].
  - intros p. rewrite sort_In. apply Hin.
  - apply causalPairs_sorted. intros p Hpin. apply Hin in Hpin.
    destruct Hpin as (i & j & g & _ & _ & _ & Hg & Hc & ->).
    cbn [Causal.pairOfResult Causal.cp_pValue].
    apply (causal_not_nan Math_log Math_exp _ _ _ _ Hg Hc).
  - reflexivity.
  - rewrite length_map, length_firstn. lia.
Qed.

(** ** Escaping of the embed code *)

Section EscapeFacts.
Import Embed.

Lemma string_app_assoc (s t u : string) : ((s ++ t) ++ u = s ++ (t ++ u))%string.
Proof.
  induction s as [ | c s IH]; cbn [String.append]; [ reflexivity | ].
  rewrite IH. reflexivity.
Qed.

Lemma replaceAll_app (c : ascii) (by_ s t : string) :
  replaceAll c by_ (s ++ t) = (replaceAll c by_ s ++ replaceAll c by_ t)%string.
Proof.
  induction s as [ | a s IH]; cbn [replaceAll String.append]; [ reflexivity | ].
  rewrite IH. destruct (Ascii.eqb a c); [ | reflexivity ].
  symmetry. apply string_app_assoc.
Qed.

Lemma escapeHtml_app (s t : string) :
  escapeHtml (s ++ t) = (escapeHtml s ++ escapeHtml t)%string.
Proof. unfold escapeHtml. rewrite !replaceAll_app. reflexivity. Qed.

Lemma escapeHtml_char (c : ascii) : escapeHtml (String c EmptyString) = escapeChar c.
Proof.
  unfold escapeChar, escapeHtml. cbn [replaceAll].
  destruct (Ascii.eqb_spec c "&") as [-> | H1]; [ reflexivity | ].
  cbn [replaceAll].
  destruct (Ascii.eqb_spec c "<") as [-> | H2]; [ reflexivity | ].
  cbn [replaceAll].
  destruct (Ascii.eqb_spec c ">") as [-> | H3]; [ reflexivity | ].
  cbn [replaceAll].
  destruct (Ascii.eqb_spec c dquote) as [-> | H4]; reflexivity.
Qed.

(** The four passes amount to one pass that escapes each character on
    its own: no pass touches what an earlier pass produced. *)
Lemma escapeHtml_each (s : string) : escapeHtml s = escapeEach s.
Proof.
  induction s as [ | c s IH]; [ reflexivity | ].
  change (String c s) with (String c EmptyString ++ s)%string.
  rewrite escapeHtml_app, escapeHtml_char, IH. reflexivity.
Qed.

Lemma escapeChar_chars (c x : ascii) :
  In x (list_ascii_of_string (escapeChar c)) -> special x = false \/ x = "&"%char.
Proof.
  unfold escapeChar.
  destruct (Ascii.eqb_spec c "&") as [-> | H1];
    [ cbn; intros H; repeat (destruct H as [<- | H]; [ auto | ]); destruct H | ].
  destruct (Ascii.eqb_spec c "<") as [-> | H2];
    [ cbn; intros H; repeat (destruct H as [<- | H]; [ auto | ]); destruct H | ].
  destruct (Ascii.eqb_spec c ">") as [-> | H3];
    [ cbn; intros H; repeat (destruct H as [<- | H]; [ auto | ]); destruct H | ].
  destruct (Ascii.eqb_spec c dquote) as [-> | H4];
    [ cbn; intros H; repeat (destruct H as [<- | H]; [ auto | ]); destruct H | ].
  cbn. intros [<- | []]. left. unfold special.
  apply Ascii.eqb_neq in H1, H2, H3, H4. rewrite H1, H2, H3, H4. reflexivity.
Qed.

Lemma list_ascii_app (s t : string) :
  list_ascii_of_string (s ++ t) = list_ascii_of_string s ++ list_ascii_of_string t.
Proof.
  induction s as [ | c s IH]; cbn [String.append list_ascii_of_string app];
    [ reflexivity | ]. rewrite IH. reflexivity.
Qed.

Lemma unescape_each (s : string) : unescapeHtml (escapeEach s) = s.
Proof.
  induction s as [ | c s IH]; [ reflexivity | ].
  cbn [escapeEach].
  destruct c as [[] [] [] [] [] [] [] []]; cbn; rewrite IH; reflexivity.
Qed.

End EscapeFacts.

(** X13. No [<], [>] or double quote survives the escaping; the escaping
    works character by character, so it distributes over concatenation;
    and a text without any of the four characters is left as it is. *)
Theorem escapeHtml_safe (s : string) :
  (forall c, In c (list_ascii_of_string (Embed.escapeHtml s)) ->
             c <> "<"%char /\ c <> ">"%char /\ c <> Embed.dquote) /\
  (forall t, Embed.escapeHtml (s ++ t) = (Embed.escapeHtml s ++ Embed.escapeHtml t)%string) /\
  ((forall c, In c (list_ascii_of_string s) -> special c = false) ->
   Embed.escapeHtml s = s).
Proof.
  split; [ | split ].
  - rewrite escapeHtml_each. induction s as [ | a s IH]; [ intros c [] | ].
    intros c. cbn [escapeEach]. rewrite list_ascii_app, in_app_iff.
    intros [H | H]; [ | apply IH, H ].
    apply escapeChar_chars in H. destruct H as [H | ->].
    + unfold special in H. apply orb_false_iff in H. destruct H as [H H4].
      apply orb_false_iff in H. destruct H as [H H3].
      apply orb_false_iff in H. destruct H as [_ H2].
      apply Ascii.eqb_neq in H2, H3, H4. auto.
    + repeat split; discriminate.
  - intros t. apply escapeHtml_app.
  - rewrite escapeHtml_each. induction s as [ | a s IH]; [ reflexivity | ].
    intros H. cbn [escapeEach]. rewrite IH by (intros c Hc; apply H; right; exact Hc).
    specialize (H a (or_introl eq_refl)). unfold special in H.
    apply orb_false_iff in H. destruct H as [H H4].
    apply orb_false_iff in H. destruct H as [H H3].
    apply orb_false_iff in H. destruct H as [H1 H2].
    unfold escapeChar. rewrite H1, H2, H3, H4. reflexivity.
Qed.

(** X14. The escaping loses nothing: decoding the four entities gives the
    text back, so two texts with the same escaped form are equal. *)
Theorem escapeHtml_lossless (s : string) :
  unescapeHtml (Embed.escapeHtml s) = s /\
  (forall t, Embed.escapeHtml s = Embed.escapeHtml t -> s = t).
Proof.
  assert (H : forall u, unescapeHtml (Embed.escapeHtml u) = u)
    by (intros u; rewrite escapeHtml_each; apply unescape_each).
  split; [ apply H | ].
  intros t E. rewrite <- (H s), <- (H t), E. reflexivity.
Qed.

(** ** Interpolation of the gaps *)

Section InterpolateFacts.
Import JS Pipeline.

Lemma pointAt_overflow (arr : TimeSeries) (j : nat) :
  length arr <= j -> pointAt arr j = mkPoint 0 None.
Proof. intros H. unfold pointAt. apply nth_overflow, H. Qed.

Lemma hasValue_lt (arr : TimeSeries) (j : nat) : hasValue arr j = true -> j < length arr.
Proof.
  intros H. destruct (Nat.lt_ge_cases j (length arr)) as [Hlt | Hge]; [ exact Hlt | ].
  unfold hasValue in H. rewrite pointAt_overflow in H by exact Hge. discriminate.
Qed.

Lemma setValue_length (arr : TimeSeries) (i : nat) (v : float) :
  length (setValue arr i v) = length arr.
Proof. unfold setValue. apply length_set_nth. Qed.

Lemma pointAt_setValue_ne (arr : TimeSeries) (i j : nat) (v : float) :
  i <> j -> pointAt (setValue arr i v) j = pointAt arr j.
Proof. intros H. unfold pointAt, setValue. apply nth_set_nth_ne, H. Qed.

Lemma pointAt_setValue_eq (arr : TimeSeries) (i : nat) (v : float) :
  i < length arr ->
  pointAt (setValue arr i v) i = mkPoint (year (pointAt arr i)) (Some v).
Proof. intros H. unfold pointAt at 1. unfold setValue. apply nth_set_nth_eq, H. Qed.

(** What one pass of the loop body does: nothing, or it files some
    value at the index [i]. *)
Lemma step_cases (n : nat) (arr : TimeSeries) (i : nat) :
  interpolateStep n arr i = arr \/
  (value (pointAt arr i) = None /\ exists v, interpolateStep n arr i = setValue arr i v).
Proof.
  unfold interpolateStep. destruct (value (pointAt arr i)); [ left; reflexivity | ].
  destruct (findPrev arr i), (findNext arr n i); eauto.
Qed.

Lemma step_length (n : nat) (arr : TimeSeries) (i : nat) :
  length (interpolateStep n arr i) = length arr.
Proof.
  destruct (step_cases n arr i) as [-> | (_ & v & ->)];
    [ reflexivity | apply setValue_length ].
Qed.

Lemma step_other (n : nat) (arr : TimeSeries) (i j : nat) :
  i <> j -> pointAt (interpolateStep n arr i) j = pointAt arr j.
Proof.
  intros H. destruct (step_cases n arr i) as [-> | (_ & v & ->)];
    [ reflexivity | apply pointAt_setValue_ne, H ].
Qed.

Lemma step_known (n : nat) (arr : TimeSeries) (i j : nat) (v : float) :
  value (pointAt arr j) = Some v -> pointAt (interpolateStep n arr i) j = pointAt arr j.
Proof.
  intros H. destruct (step_cases n arr i) as [-> | (Hi & w & ->)]; [ reflexivity | ].
  apply pointAt_setValue_ne. intros ->. congruence.
Qed.

Lemma step_year (n : nat) (arr : TimeSeries) (i j : nat) :
  year (pointAt (interpolateStep n arr i) j) = year (pointAt arr j).
Proof.
  destruct (step_cases n arr i) as [-> | (_ & v & ->)]; [ reflexivity | ].
  destruct (Nat.eq_dec i j) as [-> | Hne]; [ | rewrite pointAt_setValue_ne; auto ].
  destruct (Nat.lt_ge_cases j (length arr)) as [Hlt | Hge].
  - rewrite pointAt_setValue_eq by exact Hlt. reflexivity.
  - rewrite !pointAt_overflow; [ reflexivity | exact Hge | rewrite setValue_length; exact Hge ].
Qed.

Lemma steps_length (n : nat) (idx : list nat) (arr : TimeSeries) :
  length (fold_left (interpolateStep n) idx arr) = length arr.
Proof.
  revert arr. induction idx as [ | i idx IH]; intros arr; cbn [fold_left]; [ reflexivity | ].
  rewrite IH. apply step_length.
Qed.

Lemma steps_other (n : nat) (idx : list nat) (arr : TimeSeries) (j : nat) :
  ~ In j idx -> pointAt (fold_left (interpolateStep n) idx arr) j = pointAt arr j.
Proof.
  revert arr. induction idx as [ | i idx IH]; intros arr H; cbn [fold_left]; [ reflexivity | ].
  rewrite IH by (intros Hin; apply H; right; exact Hin).
  apply step_other. intros ->. apply H. left; reflexivity.
Qed.

Lemma steps_known (n : nat) (idx : list nat) (arr : TimeSeries) (j : nat) (v : float) :
  value (pointAt arr j) = Some v ->
  pointAt (fold_left (interpolateStep n) idx arr) j = pointAt arr j.
Proof.
  revert arr. induction idx as [ | i idx IH]; intros arr H; cbn [fold_left]; [ reflexivity | ].
  rewrite IH by (rewrite (step_known _ _ _ _ _ H); exact H).
  apply (step_known _ _ _ _ _ H).
Qed.

Lemma steps_year (n : nat) (idx : list nat) (arr : TimeSeries) (j : nat) :
  year (pointAt (fold_left (interpolateStep n) idx arr) j) = year (pointAt arr j).
Proof.
  revert arr. induction idx as [ | i idx IH]; intros arr; cbn [fold_left]; [ reflexivity | ].
  rewrite IH. apply step_year.
Qed.

Lemma find_all_false {A} (f : A -> bool) (l : list A) :
  (forall x, In x l -> f x = false) -> find f l = None.
Proof.
  induction l as [ | x l IH]; intros H; cbn [find]; [ reflexivity | ].
  rewrite (H x (or_introl eq_refl)). apply IH. intros y Hy. apply H. right; exact Hy.
Qed.

Lemma find_exists {A} (f : A -> bool) (l : list A) (x : A) :
  In x l -> f x = true -> find f l <> None.
Proof.
  intros Hin Hf E. rewrite (find_none f l E x Hin) in Hf. discriminate.
Qed.

(** The first index that satisfies a test, in a counting loop. *)
Lemma find_first (f : nat -> bool) (a m k : nat) :
  a <= k < a + m -> f k = true -> (forall j, a <= j < k -> f j = false) ->
  find f (seq a m) = Some k.
Proof.
  revert a. induction m as [ | m IH]; intros a Hk Hf Hbefore; cbn [seq find]; [ lia | ].
  destruct (Nat.eq_dec a k) as [-> | Hne].
  - rewrite Hf. reflexivity.
  - rewrite (Hbefore a) by lia. apply IH; [ lia | exact Hf | ].
    intros j Hj. apply Hbefore. lia.
Qed.

(** A step at a gap fills it as soon as a value exists on either side. *)
Lemma step_fills (n : nat) (arr : TimeSeries) (i k : nat) :
  n = length arr -> i < n -> k < n -> hasValue arr k = true ->
  hasValue (interpolateStep n arr i) i = true.
Proof.
  intros Hn Hi Hk Hv. unfold interpolateStep.
  destruct (value (pointAt arr i)) eqn:E; [ unfold hasValue; rewrite E; reflexivity | ].
  assert (Hki : k <> i) by (intros ->; unfold hasValue in Hv; rewrite E in Hv; discriminate).
  assert (Hset : forall v, hasValue (setValue arr i v) i = true).
  { intros v. unfold hasValue. rewrite pointAt_setValue_eq by lia. reflexivity. }
  destruct (findPrev arr i) as [p | ] eqn:Ep, (findNext arr n i) as [q | ] eqn:Eq;
    try apply Hset.
  exfalso. destruct (Nat.lt_ge_cases k i) as [Hlt | Hge].
  - apply (find_exists (hasValue arr) (rev (range 0 i)) k); [ | exact Hv | exact Ep ].
    apply -> in_rev. unfold range. apply in_seq. lia.
  - apply (find_exists (hasValue arr) (range (S i) n) k); [ | exact Hv | exact Eq ].
    unfold range. apply in_seq. lia.
Qed.

(** The loop up to the index [i]: everything before [i] carries a
    value, everything from [i] on is as it was. *)
Lemma steps_fill (s : TimeSeries) (k : nat) (m i : nat) (arr : TimeSeries) :
  k < length s -> hasValue s k = true ->
  i + m = length s -> length arr = length s ->
  (forall j, j < i -> hasValue arr j = true) ->
  (forall j, i <= j -> pointAt arr j = pointAt s j) ->
  forall j, j < length s ->
    hasValue (fold_left (interpolateStep (length s)) (seq i m) arr) j = true.
Proof.
  intros Hk Hv. revert i arr.
  induction m as [ | m IH]; intros i arr Him Hlen Hbefore Hafter j Hj; cbn [seq fold_left].
  - apply Hbefore. lia.
  - apply IH; [ lia | rewrite step_length; exact Hlen | | | exact Hj ].
    + intros j' Hj'. destruct (Nat.eq_dec j' i) as [-> | Hne].
      * destruct (Nat.lt_ge_cases k i) as [Hlt | Hge].
        -- apply (step_fills _ _ _ k); try lia. apply Hbefore, Hlt.
        -- apply (step_fills _ _ _ k); try lia.
           unfold hasValue. rewrite Hafter by exact Hge. exact Hv.
      * unfold hasValue. rewrite step_other by auto. apply Hbefore. lia.
    + intros j' Hj'. rewrite step_other by lia. apply Hafter. lia.
Qed.

(** A series without a gap is left as it is. *)
Lemma steps_no_gap (n : nat) (idx : list nat) (arr : TimeSeries) :
  (forall j, In j idx -> hasValue arr j = true) ->
  fold_left (interpolateStep n) idx arr = arr.
Proof.
  induction idx as [ | i idx IH]; intros H; cbn [fold_left]; [ reflexivity | ].
  assert (E : interpolateStep n arr i = arr).
  { unfold interpolateStep. specialize (H i (or_introl eq_refl)). unfold hasValue in H.
    destruct (value (pointAt arr i)); [ reflexivity | discriminate ]. }
  rewrite E. apply IH. intros j Hj. apply H. right; exact Hj.
Qed.

(** A series without any value is left as it is. *)
Lemma steps_all_gaps (n : nat) (idx : list nat) (arr : TimeSeries) :
  (forall j, hasValue arr j = false) ->
  fold_left (interpolateStep n) idx arr = arr.
Proof.
  intros H. induction idx as [ | i idx IH]; cbn [fold_left]; [ reflexivity | ].
  assert (E : interpolateStep n arr i = arr).
  { unfold interpolateStep. destruct (value (pointAt arr i)); [ reflexivity | ].
    unfold findPrev, findNext.
    rewrite !find_all_false by (intros x _; apply H). reflexivity. }
  rewrite E. exact IH.
Qed.

Lemma some_or_none (s : TimeSeries) :
  (exists k, k < length s /\ hasValue s k = true) \/ (forall j, hasValue s j = false).
Proof.
  destruct (existsb (hasValue s) (seq 0 (length s))) eqn:E.
  - left. apply existsb_exists in E. destruct E as (k & Hk & Hv).
    apply in_seq in Hk. exists k. split; [ lia | exact Hv ].
  - right. intros j. destruct (hasValue s j) eqn:Hv; [ | reflexivity ].
    assert (Hin : In j (seq 0 (length s))) by (apply in_seq; apply hasValue_lt in Hv; lia).
    assert (H : existsb (hasValue s) (seq 0 (length s)) = true)
      by (apply existsb_exists; exists j; auto).
    congruence.
Qed.

Lemma range_all (n : nat) : range 0 n = seq 0 n.
Proof. unfold range. f_equal. lia. Qed.

Lemma interpolate_filled (s : TimeSeries) (k : nat) :
  k < length s -> hasValue s k = true ->
  forall j, j < length s -> hasValue (interpolate s) j = true.
Proof.
  intros Hk Hv j Hj. unfold interpolate. rewrite range_all.
  apply (steps_fill s k (length s) 0 s); auto; lia.
Qed.

(** At a gap with a value right before it and nothing but gaps after
    it, the step copies that value. *)
Lemma step_forward (n : nat) (arr : TimeSeries) (i : nat) (v : float) :
  value (pointAt arr (S i)) = None ->
  value (pointAt arr i) = Some v ->
  (forall j, S i < j -> hasValue arr j = false) ->
  interpolateStep n arr (S i) = setValue arr (S i) v.
Proof.
  intros Hgap Hprev Hafter. unfold interpolateStep. rewrite Hgap.
  assert (Ep : findPrev arr (S i) = Some i).
  { unfold findPrev. rewrite range_all, seq_S, rev_app_distr. cbn [rev app find Nat.add].
    unfold hasValue. rewrite Hprev. reflexivity. }
  assert (En : findNext arr n (S i) = None).
  { unfold findNext. apply find_all_false. intros j Hj. apply Hafter.
    unfold range in Hj. apply in_seq in Hj. lia. }
  rewrite Ep, En. unfold valueOf, Engine.num. rewrite Hprev. reflexivity.
Qed.

(** After a value and nothing but gaps from there on, the gaps take
    that value, one after the other. *)
Lemma steps_trailing (s : TimeSeries) (k : nat) (v : float) (m i : nat) (arr : TimeSeries) :
  (forall j, k < j -> hasValue s j = false) ->
  k < i -> i + m = length s -> length arr = length s ->
  (forall j, k <= j < i -> pointAt arr j = mkPoint (year (pointAt s j)) (Some v)) ->
  (forall j, i <= j -> pointAt arr j = pointAt s j) ->
  forall j, k < j < length s ->
    pointAt (fold_left (interpolateStep (length s)) (seq i m) arr) j
    = mkPoint (year (pointAt s j)) (Some v).
Proof.
  intros Hgaps. revert i arr.
  induction m as [ | m IH]; intros i arr Hki Him Hlen Hbefore Hafter j Hj;
    cbn [seq fold_left].
  - apply Hbefore. lia.
  - destruct i as [ | i]; [ lia | ].
    assert (Hgap : value (pointAt arr (S i)) = None).
    { rewrite Hafter by lia. specialize (Hgaps (S i) Hki). unfold hasValue in Hgaps.
      destruct (value (pointAt s (S i))); [ discriminate | reflexivity ]. }
    assert (Hprev : value (pointAt arr i) = Some v) by (rewrite Hbefore by lia; reflexivity).
    assert (Hrest : forall j', S i < j' -> hasValue arr j' = false).
    { intros j' Hj'. unfold hasValue. rewrite Hafter by lia. apply Hgaps. lia. }
    rewrite (step_forward _ _ _ _ Hgap Hprev Hrest).
    apply IH; [ lia | lia | rewrite setValue_length; exact Hlen | | | exact Hj ].
    + intros j' Hj'. destruct (Nat.eq_dec j' (S i)) as [-> | Hne].
      * rewrite pointAt_setValue_eq by lia. rewrite Hafter by lia. reflexivity.
      * rewrite pointAt_setValue_ne by auto. apply Hbefore. lia.
    + intros j' Hj'. rewrite pointAt_setValue_ne by lia. apply Hafter. lia.
Qed.

End InterpolateFacts.

(** X15. Interpolation keeps the length of the series, the year of every
    point and every point that carries a value. *)
Theorem interpolate_preserves (s : TimeSeries) :
  length (Pipeline.interpolate s) = length s /\
  map year (Pipeline.interpolate s) = map year s /\
  (forall j v, value (Pipeline.pointAt s j) = Some v ->
               Pipeline.pointAt (Pipeline.interpolate s) j = Pipeline.pointAt s j).
Proof.
  assert (Hlen : length (Pipeline.interpolate s) = length s) by apply steps_length.
  split; [ exact Hlen | ]. split.
  - apply (nth_ext _ _ 0%Z 0%Z); [ rewrite !length_map; exact Hlen | ].
    intros j _.
    change 0%Z with (year (mkPoint 0 None)). rewrite !map_nth.
    apply (steps_year (length s) _ s j).
  - intros j v H. apply (steps_known _ _ _ _ _ H).
Qed.

(** X16. As soon as one point carries a value, interpolation leaves no gap;
    a series without any value is returned as it is; hence
    interpolating twice is interpolating once. *)
Theorem interpolate_complete (s : TimeSeries) :
  ((exists k, Pipeline.hasValue s k = true) ->
   forall j, j < length s -> Pipeline.hasValue (Pipeline.interpolate s) j = true) /\
  ((forall j, Pipeline.hasValue s j = false) -> Pipeline.interpolate s = s) /\
  Pipeline.interpolate (Pipeline.interpolate s) = Pipeline.interpolate s.
Proof.
  split; [ | split ].
  - intros (k & Hv). apply (interpolate_filled s k); [ apply hasValue_lt, Hv | exact Hv ].
  - intros H. apply steps_all_gaps, H.
  - destruct (some_or_none s) as [(k & Hk & Hv) | Hnone].
    + unfold Pipeline.interpolate at 1. apply steps_no_gap.
      intros j Hj. unfold JS.range in Hj. apply in_seq in Hj.
      pose proof (steps_length (length s) (JS.range 0 (length s)) s) as Hlen.
      fold (Pipeline.interpolate s) in Hlen.
      apply (interpolate_filled s k Hk Hv). lia.
    + rewrite (steps_all_gaps _ _ _ Hnone : Pipeline.interpolate s = s).
      apply steps_all_gaps, Hnone.
Qed.

(** X17. At the edges there is nothing to interpolate between: the gaps
    that follow the last value all take that value, and a gap at the
    very start takes the first value of the series. *)
Theorem interpolate_edges (s : TimeSeries) (k : nat) (v : float) :
  value (Pipeline.pointAt s k) = Some v ->
  ((forall j, k < j -> Pipeline.hasValue s j = false) ->
   forall j, k < j < length s ->
     Pipeline.pointAt (Pipeline.interpolate s) j
     = mkPoint (year (Pipeline.pointAt s j)) (Some v)) /\
  ((forall j, j < k -> Pipeline.hasValue s j = false) -> 0 < k ->
   Pipeline.pointAt (Pipeline.interpolate s) 0
   = mkPoint (year (Pipeline.pointAt s 0)) (Some v)).
Proof.
  intros Hk.
  assert (Hv : Pipeline.hasValue s k = true) by (unfold Pipeline.hasValue; rewrite Hk; reflexivity).
  pose proof (hasValue_lt s k Hv) as Hlt.
  split.
  - intros Hgaps j Hj. unfold Pipeline.interpolate. rewrite range_all.
    replace (length s) with (S k + (length s - S k)) at 2 by lia.
    rewrite seq_app, fold_left_app. cbn [Nat.add].
    set (arr := fold_left _ (seq 0 (S k)) s).
    assert (Hlen : length arr = length s) by apply steps_length.
    apply (steps_trailing s k v); auto; try lia.
    + intros j' Hj'. assert (j' = k) by lia. subst j'. subst arr.
      rewrite (steps_known _ _ _ _ _ Hk).
      destruct (Pipeline.pointAt s k) as [y w]. cbn [value year] in *. congruence.
    + intros j' Hj'. subst arr. apply steps_other. rewrite in_seq. lia.
  - intros Hgaps Hpos. unfold Pipeline.interpolate. rewrite range_all.
    destruct (length s) as [ | n] eqn:En; [ lia | ]. cbn [seq fold_left].
    assert (E0 : Pipeline.interpolateStep (S n) s 0
                 = Pipeline.setValue s 0 v).
    { unfold Pipeline.interpolateStep.
      pose proof (Hgaps 0 Hpos) as H0. unfold Pipeline.hasValue in H0.
      destruct (value (Pipeline.pointAt s 0)); [ discriminate | ].
      assert (Ep : Pipeline.findPrev s 0 = None) by reflexivity.
      assert (Eq : Pipeline.findNext s (S n) 0 = Some k).
      { unfold Pipeline.findNext, JS.range.
        apply find_first; [ lia | exact Hv | ]. intros j Hj. apply Hgaps. lia. }
      rewrite Ep, Eq. unfold Pipeline.valueOf, Engine.num. rewrite Hk. reflexivity. }
    rewrite E0.
    assert (H0 : Pipeline.pointAt (Pipeline.setValue s 0 v) 0
                 = mkPoint (year (Pipeline.pointAt s 0)) (Some v))
      by (apply pointAt_setValue_eq; lia).
    rewrite <- H0. apply (steps_known _ _ _ _ v). rewrite H0. reflexivity.
Qed.

(** A value in 2000 followed by two gaps: both gaps take the value. *)
Lemma interpolate_edges_witness :
  Pipeline.pointAt (Pipeline.interpolate trailingGaps) 2 = mkPoint 2002 (Some 7%float).
Proof.
  refine (proj1 (interpolate_edges trailingGaps 0 7%float eq_refl) _ 2 _).
  - intros [ | [ | [ | [ | j]]]] Hj; try lia; reflexivity.
  - cbn. lia.
Defined.

(** ** The composite risk scorer *)

Section ScorerFacts.
Import JS Recession.

Lemma product_In {A} (xs : list A) (ls : list (list A)) :
  Forall2 (fun x l => In x l) xs ls -> In xs (product ls).
Proof.
  induction 1 as [ | x l xs ls Hx _ IH]; cbn [product]; [ left; reflexivity | ].
  apply in_flat_map. exists x. split; [ exact Hx | ]. apply in_map, IH.
Qed.

(** Each signal function takes its values in its list of levels. *)
Lemma signal_levels :
  Forall2 (fun ind l => forall v prev, In (signal ind v prev) l)
          RECESSION_INDICATORS signalLevels.
Proof.
  unfold RECESSION_INDICATORS, signalLevels.
  repeat (apply Forall2_cons;
          [ intros v prev; cbn [signal In];
            try (destruct prev as [prev | ]);
            repeat match goal with
                   | |- context [if ?c then _ else _] => destruct c
                   end; auto 10 | ]).
  apply Forall2_nil.
Qed.

Lemma choices_In (yd : YearValues) (prev : option YearValues) :
  In (map (choiceOf yd prev) RECESSION_INDICATORS) signalChoices.
Proof.
  unfold signalChoices. apply product_In.
  pose proof signal_levels as H.
  induction H as [ | ind l inds ls Hind _ IH]; cbn [map]; constructor; [ | exact IH ].
  unfold choiceOf. destruct (getCode (code ind) yd) as [v | ]; cbn [option_map].
  - right. apply in_map, Hind.
  - left; reflexivity.
Qed.

Lemma accumulate_score_from (yd : YearValues) (prev : option YearValues)
  (inds : list Indicator) (a : acc) :
  let a' := fold_left (indicatorStep yd prev) inds a in
  (totalWeight a', compositeSignal a')
  = scoreFrom (totalWeight a, compositeSignal a)
              (map (fun ind => (choiceOf yd prev ind, ind)) inds).
Proof.
  revert a. induction inds as [ | ind inds IH]; intros a; cbn [fold_left map];
    [ reflexivity | ].
  cbv zeta in IH |- *. rewrite IH. unfold scoreFrom. cbn [fold_left]. f_equal.
  cbn [fst snd]. unfold indicatorStep, choiceOf.
  destruct (getCode (code ind) yd) as [v | ]; reflexivity.
Qed.

Lemma combine_map_self {A B} (f : A -> B) (l : list A) :
  combine (map f l) l = map (fun x => (f x, x)) l.
Proof.
  induction l as [ | x l IH]; cbn [map combine]; [ reflexivity | ].
  rewrite IH. reflexivity.
Qed.

(** The percentage and the level of a year are those of one of the
    finitely many scores. *)
Lemma yearEntry_row (yr : Z) (yd : YearValues) (prev : option YearValues) :
  exists ch, In ch signalChoices /\
    let p := probabilityFrom (scoreFrom (0%float, 0%float) (combine ch RECESSION_INDICATORS)) in
    y_probability (yearEntry yr yd prev) = Math_round (p * 100) /\
    riskLevel (yearEntry yr yd prev) = riskLevelOf p.
Proof.
  exists (map (choiceOf yd prev) RECESSION_INDICATORS).
  split; [ apply choices_In | ].
  rewrite combine_map_self.
  pose proof (accumulate_score_from yd prev RECESSION_INDICATORS (mkAcc 0 0 [])) as E.
  cbv zeta in E. cbn [totalWeight compositeSignal] in E.
  fold (accumulate yd prev) in E. cbv zeta. rewrite <- E.
  split; reflexivity.
Qed.

(** All the scores, checked one by one. *)
Lemma all_rows :
  forallb
    (fun ch =>
       let p := probabilityFrom
                  (scoreFrom (0%float, 0%float) (combine ch RECESSION_INDICATORS)) in
       percentRow (Math_round (p * 100)) (riskLevelOf p))
    signalChoices = true.
Proof. vm_compute. reflexivity. Qed.

Lemma percentOf_spec (x : float) (n : nat) :
  percentOf x = Some n -> n <= 100 /\ x = of_nat n.
Proof.
  unfold percentOf. destruct (floorZ x) as [z | ]; [ | discriminate ].
  destruct ((0 <=? z)%Z && (z <=? 100)%Z && PrimFloat.Leibniz.eqb x (of_nat (Z.to_nat z)))
    eqn:E; [ | discriminate ].
  intros [= <-]. apply andb_prop in E. destruct E as [E He].
  apply andb_prop in E. destruct E as [H0 H100].
  apply FloatAxioms.Leibniz.eqb_spec in He. split; [ lia | exact He ].
Qed.

Lemma percentRow_spec (pct : float) (lvl : string) :
  percentRow pct lvl = true ->
  exists n, n <= 100 /\ pct = of_nat n /\ levelAgrees n lvl = true.
Proof.
  unfold percentRow. destruct (percentOf pct) as [n | ] eqn:E; [ | discriminate ].
  intros H. destruct (percentOf_spec _ _ E) as [Hn Hx]. exists n. auto.
Qed.

Lemma yearEntry_percent (yr : Z) (yd : YearValues) (prev : option YearValues) :
  exists n, n <= 100 /\ y_probability (yearEntry yr yd prev) = of_nat n /\
            levelAgrees n (riskLevel (yearEntry yr yd prev)) = true.
Proof.
  destruct (yearEntry_row yr yd prev) as (ch & Hin & Hp & Hl). cbv zeta in Hp, Hl.
  rewrite Hp, Hl. apply percentRow_spec.
  pose proof all_rows as H. rewrite forallb_forall in H. apply (H ch Hin).
Qed.

Lemma timelineFrom_Forall (P : YearEntry -> Prop) (years : list Z)
  (yearData : list (Z * YearValues)) (prev : option YearValues) :
  (forall yr yd prev, P (yearEntry yr yd prev)) ->
  Forall P (timelineFrom prev years yearData).
Proof.
  intros H. revert prev. induction years as [ | yr years IH]; intros prev;
    cbn [timelineFrom]; constructor; [ apply H | apply IH ].
Qed.

Lemma timelineFrom_years (years : list Z) (yearData : list (Z * YearValues))
  (prev : option YearValues) :
  map y_year (timelineFrom prev years yearData) = years.
Proof.
  revert prev. induction years as [ | yr years IH]; intros prev; cbn [timelineFrom map];
    [ reflexivity | ]. rewrite IH. reflexivity.
Qed.

(** All the projections from two percentages, checked one by one. *)
Lemma all_projections :
  forallb
    (fun n1 =>
       isPercent (projectionOf (of_nat n1) 0)
       && forallb (fun n5 => isPercent (projectionOf (of_nat n1)
                                          ((of_nat n1 - of_nat n5) / 5)))
                  (seq 0 101))
    (seq 0 101) = true.
Proof. vm_compute. reflexivity. Qed.

Lemma isPercent_spec (x : float) :
  isPercent x = true -> exists n, n <= 100 /\ x = of_nat n.
Proof.
  unfold isPercent. destruct (percentOf x) as [n | ] eqn:E; [ | discriminate ].
  intros _. exists n. apply (percentOf_spec _ _ E).
Qed.

End ScorerFacts.

Section YearDataFacts.
Import JS Recession.

Lemma set_keys {V} (k : Z) (v : V) (o : list (Z * V)) (k' : Z) :
  keysOrdered o ->
  (In k' (map fst (Obj.set k v o)) <-> k' = k \/ In k' (map fst o)).
Proof.
  intros Hs. rewrite !in_map_iff. split.
  - intros (e & <- & He). apply (set_In k v o e Hs) in He.
    destruct He as [-> | [He _]]; [ left; reflexivity | right; exists e; auto ].
  - intros [-> | (e & <- & He)].
    + exists (k, v). split; [ reflexivity | ]. apply (set_In k v o _ Hs). left; reflexivity.
    + destruct (Z.eq_dec (fst e) k) as [E | Hne].
      * exists (k, v). split; [ symmetry; exact E | ].
        apply (set_In k v o _ Hs). left; reflexivity.
      * exists e. split; [ reflexivity | ]. apply (set_In k v o _ Hs). right. auto.
Qed.

Lemma merge_point_keys (ind : Indicator) (d : TimePoint) (yd : list (Z * YearValues)) :
  keysOrdered yd ->
  let yd' :=
    match value d with
    | Some v =>
        if isFinite v then
          let cur := match Obj.get (year d) yd with Some o => o | None => [] end in
          Obj.set (year d) (setCode (code ind) v cur) yd
        else yd
    | None => yd
    end in
  keysOrdered yd' /\
  forall y, In y (map fst yd')
            <-> In y (map fst yd) \/ (year d = y /\ validValue (value d) = true).
Proof.
  intros Hs. cbv zeta. unfold validValue. destruct (value d) as [v | ].
  - destruct (isFinite v).
    + split; [ apply set_ordered, Hs | ]. intros y. rewrite set_keys by exact Hs.
      split; [ intros [-> | H]; auto | intros [H | [<- _]]; auto ].
    + split; [ exact Hs | ]. intros y. split; [ auto | ].
      intros [H | [_ H]]; [ exact H | discriminate ].
  - split; [ exact Hs | ]. intros y. split; [ auto | ].
    intros [H | [_ H]]; [ exact H | discriminate ].
Qed.

Lemma mergeSeries_keys (ind : Indicator) (data : TimeSeries) (yd : list (Z * YearValues)) :
  keysOrdered yd ->
  keysOrdered (mergeSeries yd ind data) /\
  forall y, In y (map fst (mergeSeries yd ind data))
            <-> In y (map fst yd)
                \/ exists d, In d data /\ year d = y /\ validValue (value d) = true.
Proof.
  unfold mergeSeries. revert yd.
  induction data as [ | d data IH]; intros yd Hs; cbn [fold_left].
  - split; [ exact Hs | ]. intros y. split; [ auto | ].
    intros [H | (d & [] & _)]. exact H.
  - destruct (merge_point_keys ind d yd Hs) as [Hs' Hk']. cbv zeta in Hs', Hk'.
    destruct (IH _ Hs') as [Hs'' Hk''].
    split; [ exact Hs'' | ]. intros y. rewrite Hk'', Hk'. cbn [In]. split.
    + intros [[H | [Hy Hv]] | (d' & Hd' & Hy & Hv)]; eauto 6.
    + intros [H | (d' & [<- | Hd'] & Hy & Hv)]; eauto 6.
Qed.

Lemma merge_all_keys (ps : list (Indicator * TimeSeries)) (yd : list (Z * YearValues)) :
  keysOrdered yd ->
  keysOrdered (fold_left (fun yd p => mergeSeries yd (fst p) (snd p)) ps yd) /\
  forall y, In y (map fst (fold_left (fun yd p => mergeSeries yd (fst p) (snd p)) ps yd))
            <-> In y (map fst yd)
                \/ exists series d, In series (map snd ps) /\ In d series /\ year d = y
                                    /\ validValue (value d) = true.
Proof.
  revert yd. induction ps as [ | [ind data] ps IH]; intros yd Hs; cbn [fold_left fst snd].
  - split; [ exact Hs | ]. intros y. split; [ auto | ].
    intros [H | (series & d & [] & _)]. exact H.
  - destruct (mergeSeries_keys ind data yd Hs) as [Hs' Hk'].
    destruct (IH _ Hs') as [Hs'' Hk'']. split; [ exact Hs'' | ].
    intros y. rewrite Hk'', Hk'. cbn [map snd In]. split.
    + intros [[H | (d & Hd & Hy & Hv)] | (series & d & Hse & Hd & Hy & Hv)];
        [ auto | right; exists data, d; auto | right; exists series, d; auto ].
    + intros [H | (series & d & [<- | Hse] & Hd & Hy & Hv)];
        [ auto | left; right; exists d; auto | right; exists series, d; auto ].
Qed.

Lemma map_snd_combine {A B} (l : list A) (l' : list B) :
  map snd (combine l l') = firstn (length l) l'.
Proof.
  revert l'. induction l as [ | x l IH]; intros [ | y l']; cbn [combine map length firstn snd];
    try reflexivity. rewrite IH. reflexivity.
Qed.

(** The years of the timeline: each year on which one of the six
    fetched series carries a finite value, once. *)
Lemma sortedYears_spec (fetched : list TimeSeries) :
  NoDup (sortedYears (buildYearData fetched)) /\
  forall y, In y (sortedYears (buildYearData fetched))
            <-> exists series d, In series (firstn 6 fetched) /\ In d series /\ year d = y
                                 /\ validValue (value d) = true.
Proof.
  unfold sortedYears, buildYearData.
  destruct (merge_all_keys (combine RECESSION_INDICATORS fetched) []) as [Hs Hk];
    [ constructor | ].
  rewrite map_snd_combine in Hk. change (length RECESSION_INDICATORS) with 6 in Hk.
  split.
  - apply (Permutation_NoDup (sort_perm _ _)). apply keysOrdered_NoDup, Hs.
  - intros y. rewrite sort_In, Hk. cbn [map In]. tauto.
Qed.

Lemma timelineFrom_length (years : list Z) (yearData : list (Z * YearValues))
  (prev : option YearValues) :
  length (timelineFrom prev years yearData) = length years.
Proof. rewrite <- (timelineFrom_years years yearData prev) at 2. symmetry. apply length_map. Qed.

End YearDataFacts.

(** X18. The recession predictor answers [Insufficient data] exactly when
    fewer than three distinct years carry a finite value in one of the
    six fetched series; otherwise its timeline has one entry for each of
    those years, and the latest year it reports is one of them. *)
Theorem predictRecession_years (fetched : list TimeSeries) :
  let years := Recession.sortedYears (Recession.buildYearData fetched) in
  NoDup years /\
  (forall y, In y years
             <-> exists series d, In series (firstn 6 fetched) /\ In d series /\ year d = y
                                  /\ validValue (value d) = true) /\
  (Recession.predictRecession fetched = None <-> length years < 3) /\
  (forall a, Recession.predictRecession fetched = Some a ->
             map Recession.y_year (Recession.timeline a) = years /\
             In (Recession.latestYear a) years).
Proof.
  intros years. destruct (sortedYears_spec fetched) as [Hnd Hin]. fold years in Hnd, Hin.
  split; [ exact Hnd | ]. split; [ exact Hin | ].
  unfold Recession.predictRecession. fold years.
  destruct (Nat.ltb_spec (length years) 3) as [Hlt | Hge].
  - split; [ split; [ intros _; exact Hlt | reflexivity ] | discriminate ].
  - split; [ split; [ discriminate | lia ] | ].
    intros a [= <-]. cbn [Recession.timeline Recession.latestYear].
    split; [ apply timelineFrom_years | ].
    unfold Recession.entryAt.
    set (t := Recession.timelineFrom None years _).
    assert (Ht : map Recession.y_year t = years) by apply timelineFrom_years.
    rewrite <- Ht.
    change (Recession.y_year (nth (length t - 1) t _))
      with (Recession.y_year
              (nth (length t - 1) t (Recession.mkYearEntry 0 JS.undefined_num [] "undefined"))).
    apply in_map, nth_In.
    assert (length t = length years) by apply timelineFrom_length. lia.
Qed.

(** X19. Whatever the data, each year of the timeline is rated with a whole
    percentage between 0 and 100 and a risk level that agrees with it
    up to the rounding of the percentage ([high] from 60 up, [elevated]
    from 35 to 60, [moderate] from 15 to 35, [low] up to 15); the
    assessment repeats the rating of the last entry, and its
    twelve-month projection is a whole percentage between 0 and 100. *)
Theorem predictRecession_percentages
  (fetched : list TimeSeries) (a : Recession.Assessment) :
  Recession.predictRecession fetched = Some a ->
  Forall (fun e => exists n, n <= 100 /\ Recession.y_probability e = JS.of_nat n /\
                             levelAgrees n (Recession.riskLevel e) = true)
         (Recession.timeline a) /\
  3 <= length (Recession.timeline a) /\
  (exists n, n <= 100 /\ Recession.probability a = JS.of_nat n /\
             levelAgrees n (Recession.a_riskLevel a) = true) /\
  (exists m, m <= 100 /\ Recession.projected12m a = JS.of_nat m).
Proof.
  unfold Recession.predictRecession.
  set (years := Recession.sortedYears (Recession.buildYearData fetched)).
  destruct (Nat.ltb_spec (length years) 3) as [Hlt | Hge]; [ discriminate | ].
  intros [= <-].
  cbn [Recession.timeline Recession.probability Recession.a_riskLevel Recession.projected12m].
  set (t := Recession.timelineFrom None years _).
  assert (Hall : Forall (fun e => exists n, n <= 100 /\ Recession.y_probability e = JS.of_nat n /\
                                            levelAgrees n (Recession.riskLevel e) = true) t)
    by (apply timelineFrom_Forall; intros yr yd prev; apply yearEntry_percent).
  assert (Hlen : length t = length years) by apply timelineFrom_length.
  assert (Hat : forall i, i < length t ->
            exists n, n <= 100 /\ Recession.y_probability (Recession.entryAt t i) = JS.of_nat n /\
                      levelAgrees n (Recession.riskLevel (Recession.entryAt t i)) = true).
  { intros i Hi. rewrite Forall_forall in Hall. apply Hall. apply nth_In, Hi. }
  split; [ exact Hall | ]. split; [ lia | ]. split; [ apply Hat; lia | ].
  destruct (Hat (length t - 1) ltac:(lia)) as (n1 & Hn1 & E1 & _).
  pose proof all_projections as Hproj. rewrite forallb_forall in Hproj.
  specialize (Hproj n1 ltac:(apply in_seq; lia)). apply andb_prop in Hproj.
  destruct Hproj as [Hzero Hfive].
  apply isPercent_spec. fold (projectionOf (Recession.y_probability
                                             (Recession.entryAt t (length t - 1)))).
  rewrite E1.
  change (match length t with S (S (S (S (S _)))) => true | _ => false end)
    with (5 <=? length t).
  destruct (Nat.leb_spec 5 (length t)) as [H5 | H5].
  - destruct (Hat (length t - 5) ltac:(lia)) as (n5 & Hn5 & E5 & _). rewrite E5.
    rewrite forallb_forall in Hfive. apply (Hfive n5). apply in_seq. lia.
  - exact Hzero.
Qed.

(** The series with data for FDI inflows only: three years, each rated
    with a whole percentage. *)
Lemma predictRecession_percentages_witness :
  exists a, Recession.predictRecession (fdiOnly 0.001) = Some a /\
            exists m, m <= 100 /\ Recession.projected12m a = JS.of_nat m.
Proof.
  eexists. split; [ vm_compute; reflexivity | ].
  refine (proj2 (proj2 (proj2 (predictRecession_percentages (fdiOnly 0.001) _ _)))).
  vm_compute. reflexivity.
Defined.

(** ** Measures of spread and thresholds *)

Section SpreadFacts.
Import JS Engine.

(** A square root is never below zero. *)
Lemma sqrt_not_negative (x : float) : (Math_sqrt x <? 0)%float = false.
Proof.
  unfold Math_sqrt. rewrite FloatAxioms.ltb_spec, FloatAxioms.sqrt_spec.
  unfold SF64sqrt, SFsqrt.
  destruct (Prim2SF x) as [s | [] | | [] m e]; try reflexivity.
  destruct (SFsqrt_core_binary prec emax (Z.pos m) e) as [[mz ez] lz].
  unfold binary_round_aux.
  destruct (shr_fexp prec emax mz ez lz) as [mrs' e'].
  destruct (shr_fexp prec emax _ e' loc_Exact) as [mrs'' e''].
  destruct (shr_m mrs''); try reflexivity.
  destruct (e'' <=? emax - prec)%Z; reflexivity.
Qed.

(** Neither is a magnitude. *)
Lemma abs_not_negative (x : float) : (Math_abs x <? 0)%float = false.
Proof.
  unfold Math_abs. rewrite FloatAxioms.ltb_spec, FloatAxioms.abs_spec.
  destruct (Prim2SF x) as [s | s | | s m e]; reflexivity.
Qed.

Lemma std_not_negative (series : TimeSeries) : (std (calcStats series) <? 0)%float = false.
Proof.
  unfold calcStats. destruct series as [ | d rest]; [ reflexivity | ].
  destruct (length (finiteValues (d :: rest)) =? 0); [ reflexivity | ].
  cbn [std]. apply sqrt_not_negative.
Qed.

Lemma leb_trans (x y z : float) :
  (x <=? y)%float = true -> (y <=? z)%float = true -> (x <=? z)%float = true.
Proof.
  intros Hxy Hyz.
  destruct (FloatOrder.leb_not_nan _ _ Hxy) as [Hx Hy].
  destruct (FloatOrder.leb_not_nan _ _ Hyz) as [_ Hz].
  apply FloatOrder.not_nan_spec in Hx, Hy, Hz.
  rewrite FloatAxioms.leb_spec in *.
  apply (FloatOrder.SFleb_key _ _ Hx Hy) in Hxy. apply (FloatOrder.SFleb_key _ _ Hy Hz) in Hyz.
  apply (FloatOrder.SFleb_key _ _ Hx Hz). unfold FloatKey.lexLt in *.
  destruct (FloatKey.key (Prim2SF x)) as [[a b] c], (FloatKey.key (Prim2SF y)) as [[a' b'] c'],
    (FloatKey.key (Prim2SF z)) as [[a'' b''] c'']. lia.
Qed.

End SpreadFacts.

(** X20. Raising the threshold never flags a point that was not flagged
    before, whatever the method. *)
Theorem detectAnomalies_threshold_monotone
  (series : TimeSeries) (m : string) (t t' : float) :
  (t <=? t')%float = true ->
  forall d,
    In d (map Engine.point
              (Engine.anomalies
                 (Engine.detectAnomalies series (Engine.mkAnomalyOptions m t')))) ->
    In d (map Engine.point
              (Engine.anomalies
                 (Engine.detectAnomalies series (Engine.mkAnomalyOptions m t)))).
Proof.
  intros Ht d.
  destruct (Nat.ltb_spec (length (Engine.validPoints series)) 4) as [Hlt | Hge].
  - unfold Engine.detectAnomalies. apply Nat.ltb_lt in Hlt. rewrite Hlt. intros [].
  - destruct (detectAnomalies_closed series Hge) as (st & Hc). rewrite !Hc.
    cbn [Engine.anomalies]. rewrite !map_map. cbn [anomalyOf Engine.point].
    rewrite !map_id, !filter_In. intros [Hd Hf]. split; [ exact Hd | ].
    unfold flagOf, Engine.flagged, isZOf in *. cbn [Engine.method Engine.threshold] in *.
    assert (Hz : (t' <=? zOf st d)%float = true -> (t <=? zOf st d)%float = true)
      by (apply leb_trans, Ht).
    destruct (m =? "zscore")%string; [ apply Hz, Hf | ].
    destruct (m =? "iqr")%string; [ exact Hf | ].
    apply orb_true_iff in Hf. apply orb_true_iff.
    destruct Hf as [Hf | Hf]; [ left; apply Hz, Hf | right; exact Hf ].
Qed.

(** On the six-point example the point flagged at threshold 2.5 by the
    method [both] is flagged at threshold 2 as well. *)
Lemma detectAnomalies_threshold_monotone_witness :
  In (mkPoint 2005 (Some 100%float))
     (map Engine.point
          (Engine.anomalies
             (Engine.detectAnomalies (sixPoints 2000 2001 2002 2003 2004 2005)
                                     (Engine.mkAnomalyOptions "both" 2)))).
Proof.
  apply (detectAnomalies_threshold_monotone _ "both" 2 2.5).
  - vm_compute. reflexivity.
  - vm_compute. left. reflexivity.
Defined.

(** ** The entries of a Granger test *)

Section GrangerOrder.
Import JS Causal.

Variable Math_log Math_exp : float -> float.

Lemma lagBody_lag (aligned : list AlignedPoint) (n L : nat) (r : LagResult) :
  lagBody Math_log Math_exp aligned n L = Some r ->
  lag r = L /\ observations r = n - L /\ (rssUnrestricted r <=? 0)%float = false.
Proof.
  intros H. apply lagBody_Some in H.
  destruct H as (_ & rssR & rssU & _ & _ & Hu & _ & ->). cbv zeta.
  cbn [lag observations rssUnrestricted]. auto.
Qed.

(** The lags of the entries pushed by the loop: those of the lags
    visited for which the body yields an entry, in the order of the
    visit. *)
Lemma lagLoop_lags (aligned : list AlignedPoint) (n : nat) (lags : list nat)
  (acc : list LagResult) :
  map lag (fold_left
             (fun results L =>
                match lagBody Math_log Math_exp aligned n L with
                | Some r => results ++ [r]
                | None => results
                end) lags acc)
  = map lag acc
    ++ filter (fun L => match lagBody Math_log Math_exp aligned n L with
                        | Some _ => true
                        | None => false
                        end) lags.
Proof.
  revert acc. induction lags as [ | L lags IH]; intros acc; cbn [fold_left filter].
  - rewrite app_nil_r. reflexivity.
  - rewrite IH. destruct (lagBody Math_log Math_exp aligned n L) as [r | ] eqn:E;
      [ | reflexivity ].
    rewrite map_app, <- app_assoc. cbn [map app].
    rewrite (proj1 (lagBody_lag _ _ _ _ E)). reflexivity.
Qed.

Lemma StronglySorted_filter {A} (R : A -> A -> Prop) (f : A -> bool) (l : list A) :
  StronglySorted R l -> StronglySorted R (filter f l).
Proof.
  induction 1 as [ | x l Hs IH Hall]; cbn [filter]; [ constructor | ].
  destruct (f x); [ | exact IH ]. constructor; [ exact IH | ].
  rewrite Forall_forall in *. intros y Hy. apply filter_In in Hy. apply Hall, Hy.
Qed.

Lemma StronglySorted_seq (a m : nat) : StronglySorted lt (seq a m).
Proof.
  revert a. induction m as [ | m IH]; intros a; cbn [seq]; constructor; [ apply IH | ].
  rewrite Forall_forall. intros y Hy. apply in_seq in Hy. lia.
Qed.

End GrangerOrder.

(** X21. The entries of a Granger test come by strictly increasing lag, at
    most one for each lag from 1 to [maxLag]; each records the number of
    observations left once its lag is taken off and an unrestricted
    residual sum that is not [<= 0]; and the best lag reported is the
    lag of one of the entries. *)
Theorem grangerTest_results_ordered (Math_log Math_exp : float -> float)
  (xSeries ySeries : TimeSeries) (maxLag : nat) (g : Causal.GrangerResult) :
  Causal.grangerTest Math_log Math_exp xSeries ySeries maxLag = Some g ->
  let n := length (Causal.alignXY xSeries ySeries) in
  StronglySorted lt (map Causal.lag (Causal.results g)) /\
  Forall (fun r => 1 <= Causal.lag r <= maxLag /\
                   Causal.observations r = n - Causal.lag r /\
                   (Causal.rssUnrestricted r <=? 0)%float = false)
         (Causal.results g) /\
  length (Causal.results g) <= maxLag /\
  (exists r, In r (Causal.results g) /\
             Causal.bestLag g = Causal.lag r /\ Causal.bestF g = Causal.fStatistic r /\
             Causal.bestP g = Causal.pValue r /\ Causal.causal g = Causal.significant r).
Proof.
  unfold Causal.grangerTest. destruct (_ <? _); [ discriminate | ].
  set (aligned := Causal.alignXY xSeries ySeries).
  destruct (Causal.lagLoop _ _ _ _ _) as [ | r0 rest] eqn:E; [ discriminate | ].
  intros [= <-]. set (n := length aligned) in *.
  cbn [Causal.results Causal.bestLag Causal.bestF Causal.bestP Causal.causal].
  rewrite <- E.
  assert (Hlags : map Causal.lag (Causal.lagLoop Math_log Math_exp aligned n
                                    (JS.range 1 (S maxLag)))
                  = filter (fun L => match Causal.lagBody Math_log Math_exp aligned n L with
                                     | Some _ => true
                                     | None => false
                                     end) (seq 1 maxLag)).
  { unfold Causal.lagLoop. rewrite lagLoop_lags. cbn [map app]. unfold JS.range.
    replace (S maxLag - 1) with maxLag by lia. reflexivity. }
  split; [ rewrite Hlags; apply StronglySorted_filter, StronglySorted_seq | ].
  split; [ | split ].
  - rewrite Forall_forall. intros r Hr. apply lagLoop_In in Hr.
    destruct Hr as (L & HL & Hb). unfold JS.range in HL. apply in_seq in HL.
    destruct (lagBody_lag _ _ _ _ _ _ Hb) as (-> & Ho & Hu). split; [ lia | auto ].
  - rewrite <- (length_map Causal.lag), Hlags.
    etransitivity; [ apply filter_length_le | ]. rewrite length_seq. lia.
  - exists (Causal.pickBest r0 rest). split; [ | auto ].
    rewrite E. apply pickBest_In.
Qed.

(** The follower series tested against its driver: three entries, for
    the lags 1, 2 and 3. *)
Lemma grangerTest_results_ordered_witness :
  exists g, Causal.grangerTest Host.log Host.exp followerY driverX 3 = Some g /\
            StronglySorted lt (map Causal.lag (Causal.results g)).
Proof.
  eexists. split; [ vm_compute; reflexivity | ].
  refine (proj1 (grangerTest_results_ordered Host.log Host.exp followerY driverX 3 _ _)).
  vm_compute. reflexivity.
Defined.

(** ** Sums of squares and of magnitudes *)

Section NotNegative.
Import JS FloatKey.

(** A number is not below zero when its sign bit is off or it is a
    zero or NaN. *)
Lemma ltb_zero_negative (x : float) : (x <? 0)%float = negativeSF (Prim2SF x).
Proof.
  rewrite FloatAxioms.ltb_spec. change (Prim2SF 0%float) with (S754_zero false).
  destruct (Prim2SF x) as [s | [] | | [] m e]; reflexivity.
Qed.

Lemma binary_round_aux_not_negative (m e : Z) (l : location) :
  negativeSF (binary_round_aux prec emax false m e l) = false.
Proof.
  unfold binary_round_aux.
  destruct (shr_fexp prec emax m e l) as [mrs' e'].
  destruct (shr_fexp prec emax _ e' loc_Exact) as [mrs'' e''].
  destruct (shr_m mrs''); try reflexivity.
  destruct (e'' <=? emax - prec)%Z; reflexivity.
Qed.

Lemma binary_normalize_not_negative (m e : Z) :
  (0 <= m)%Z -> negativeSF (binary_normalize prec emax m e false) = false.
Proof.
  intros H. destruct m as [ | p | p]; cbn [binary_normalize]; [ reflexivity | | lia ].
  unfold binary_round. destruct (shl_align p e _) as [mz ez].
  apply binary_round_aux_not_negative.
Qed.

Lemma SFadd_not_negative (x y : spec_float) :
  negativeSF x = false -> negativeSF y = false -> negativeSF (SF64add x y) = false.
Proof.
  unfold SF64add, SFadd.
  destruct x as [sx | [] | | [] mx ex], y as [sy | [] | | [] my ey];
    cbn [negativeSF]; intros Hx Hy; try discriminate; try reflexivity.
  - destruct sx, sy; reflexivity.
  - apply binary_normalize_not_negative. cbn [cond_Zopp]. lia.
Qed.

Lemma SFmul_square_not_negative (x : spec_float) : negativeSF (SF64mul x x) = false.
Proof.
  unfold SF64mul, SFmul. destruct x as [s | s | | s m e]; try reflexivity.
  - destruct s; reflexivity.
  - rewrite xorb_nilpotent. apply binary_round_aux_not_negative.
Qed.

Lemma SFmul_not_negative (x y : spec_float) :
  negativeSF x = false -> negativeSF y = false -> negativeSF (SF64mul x y) = false.
Proof.
  unfold SF64mul, SFmul.
  destruct x as [sx | [] | | [] mx ex], y as [sy | [] | | [] my ey];
    cbn [negativeSF]; intros Hx Hy; try discriminate; try reflexivity.
  apply binary_round_aux_not_negative.
Qed.

Lemma SFdiv_not_negative (x y : spec_float) :
  negativeSF x = false -> negativeSF y = false -> y <> S754_zero true ->
  negativeSF (SF64div x y) = false.
Proof.
  unfold SF64div, SFdiv.
  destruct x as [sx | [] | | [] mx ex], y as [[] | [] | | [] my ey];
    cbn [negativeSF]; intros Hx Hy Hz; try discriminate; try reflexivity; try congruence.
  destruct (SFdiv_core_binary prec emax (Z.pos mx) ex (Z.pos my) ey) as [[mz ez] lz].
  apply binary_round_aux_not_negative.
Qed.

Lemma add_not_negative (x y : float) :
  (x <? 0)%float = false -> (y <? 0)%float = false -> (x + y <? 0)%float = false.
Proof.
  rewrite !ltb_zero_negative, FloatAxioms.add_spec. apply SFadd_not_negative.
Qed.

Lemma square_not_negative (x : float) : (x * x <? 0)%float = false.
Proof. rewrite ltb_zero_negative, FloatAxioms.mul_spec. apply SFmul_square_not_negative. Qed.

Lemma mul_not_negative (x y : float) :
  (x <? 0)%float = false -> (y <? 0)%float = false -> (x * y <? 0)%float = false.
Proof.
  rewrite !ltb_zero_negative, FloatAxioms.mul_spec. apply SFmul_not_negative.
Qed.

(** The conversion of a count is a zero or a positive number. *)
Lemma of_nat_sign (n : nat) :
  negativeSF (Prim2SF (of_nat n)) = false /\ Prim2SF (of_nat n) <> S754_zero true.
Proof.
  unfold of_nat. rewrite FloatExact.of_Z_spec.
  pose proof (Nat2Z.is_nonneg n) as H0.
  split; [ apply binary_normalize_not_negative, H0 | ].
  destruct (Z.of_nat n) as [ | p | p];
    cbn [binary_normalize]; [ discriminate | | lia ].
  intros E. pose proof (FloatOrder.binary_round_sign false p 0 ltac:(cbv; discriminate)) as Hs.
  cbn beta iota in Hs. rewrite E in Hs. discriminate.
Qed.

Lemma div_count_not_negative (x : float) (n : nat) :
  (x <? 0)%float = false -> (x / of_nat n <? 0)%float = false.
Proof.
  rewrite !ltb_zero_negative, FloatAxioms.div_spec. intros Hx.
  destruct (of_nat_sign n) as [Hn Hz]. apply SFdiv_not_negative; assumption.
Qed.

(** A sum of terms none of which is below zero is not below zero. *)
Lemma sum_not_negative {A} (f : A -> float) (l : list A) (acc : float) :
  (forall a, In a l -> (f a <? 0)%float = false) -> (acc <? 0)%float = false ->
  (fold_left (fun s a => (s + f a)%float) l acc <? 0)%float = false.
Proof.
  revert acc. induction l as [ | a l IH]; intros acc Hf Hacc; cbn [fold_left];
    [ exact Hacc | ].
  apply IH; [ intros b Hb; apply Hf; right; exact Hb | ].
  apply add_not_negative; [ exact Hacc | apply Hf; left; reflexivity ].
Qed.

End NotNegative.

(** X22. The residual sum of squares of a regression is never negative, so
    that the test [rssU <= 0] of the Granger loop can only be met by a
    sum that is zero. *)
Theorem computeOLSResiduals_not_negative (X : Causal.matrix) (y : list float) (rss : float) :
  Causal.computeOLSResiduals X y = Some rss ->
  (rss <? 0)%float = false /\ ((rss <=? 0)%float = true -> (rss =? 0)%float = true).
Proof.
  unfold Causal.computeOLSResiduals. destruct (_ <=? _); [ discriminate | ].
  destruct (Causal.solveLinearSystem _ _) as [beta | ]; [ | discriminate ].
  intros [= <-]. unfold Causal.rssOf.
  match goal with
  | |- (fold_left ?F ?L ?A <? 0)%float = false /\ _ => set (r := fold_left F L A)
  end.
  assert (Hr : (r <? 0)%float = false).
  { subst r.
    apply (sum_not_negative
             (fun t =>
                let pred := fold_left
                              (fun p j => (p + Causal.entry X t j * JS.at_ beta j)%float)
                              (JS.range 0 (length (Causal.row X 0))) 0%float in
                ((JS.at_ y t - pred) * (JS.at_ y t - pred))%float)).
    - intros t _. apply square_not_negative.
    - reflexivity. }
  split; [ exact Hr | ]. intros Hle.
  destruct (FloatOrder.leb_not_nan _ _ Hle) as [Hn _].
  rewrite FloatAxioms.eqb_spec, FloatAxioms.leb_spec in *.
  rewrite ltb_zero_negative in Hr.
  change (Prim2SF 0%float) with (S754_zero false) in *.
  destruct (Prim2SF r) as [s | [] | | [] m e]; try reflexivity; try discriminate.
Qed.

(** The regression of 1, 2, 4 on a constant: the residual sum of
    squares about the mean. *)
Lemma computeOLSResiduals_not_negative_witness :
  exists rss, Causal.computeOLSResiduals [[1]; [1]; [1]]%float [1; 2; 4]%float = Some rss /\
              (rss <? 0)%float = false.
Proof.
  eexists. split; cycle 1.
  - refine (proj1 (computeOLSResiduals_not_negative
                     [[1]; [1]; [1]]%float [1; 2; 4]%float _ _)).
    vm_compute. reflexivity.
  - vm_compute. reflexivity.
Defined.

(** X23. The measures of spread and of error that the engine reports are
    never negative: the standard deviation of [calcStats], the
    volatility, the MAPE and the RMSE of a forecast, and the z-score
    attached to an anomaly. *)
Theorem spreads_not_negative (series : TimeSeries) :
  (Engine.std (Engine.calcStats series) <? 0)%float = false /\
  (forall v, Engine.calcVolatility series = Some v -> (v <? 0)%float = false) /\
  (forall o f, Engine.holtwinters series o = Some f ->
               (Engine.mape (Engine.accuracy f) <? 0)%float = false /\
               (Engine.rmse (Engine.accuracy f) <? 0)%float = false) /\
  (forall o a, In a (Engine.anomalies (Engine.detectAnomalies series o)) ->
               (Engine.z a <? 0)%float = false).
Proof.
  split; [ apply std_not_negative | ]. split; [ | split ].
  - intros v. unfold Engine.calcVolatility. destruct series as [ | d rest]; [ discriminate | ].
    destruct (_ <? 2); [ discriminate | ]. intros [= <-]. apply std_not_negative.
  - intros o f. unfold Engine.holtwinters. destruct series as [ | d rest]; [ discriminate | ].
    destruct (_ <? 3); [ discriminate | ]. intros [= <-].
    cbn [Engine.accuracy Engine.rmse Engine.mape]. split; [ | apply sqrt_not_negative ].
    unfold Engine.mapeOf. apply div_count_not_negative.
    unfold Engine.sum, Engine.mapeTerms.
    apply (sum_not_negative (fun b => b)); [ | reflexivity ].
    intros b Hb. apply in_map_iff in Hb. destruct Hb as (p & <- & _).
    apply mul_not_negative; [ apply abs_not_negative | reflexivity ].
  - intros o a Ha.
    destruct (Nat.ltb_spec (length (Engine.validPoints series)) 4) as [Hlt | Hge].
    + unfold Engine.detectAnomalies in Ha. apply Nat.ltb_lt in Hlt. rewrite Hlt in Ha.
      destruct Ha.
    + destruct (detectAnomalies_closed series Hge) as (st & Hc). rewrite Hc in Ha.
      cbn [Engine.anomalies] in Ha. apply in_map_iff in Ha. destruct Ha as (d & <- & _).
      cbn [anomalyOf Engine.z]. unfold zOf, Engine.zScore.
      destruct (0 <? Engine.a_std st)%float; [ apply abs_not_negative | reflexivity ].
Qed.

(** ** The order of the points does not matter *)

Section PointOrder.
Import JS Engine.

Variable keep : float -> bool.

Lemma lastKept_of_In (s : TimeSeries) (d : TimePoint) (v : float) :
  oneValuePerYear s -> In d s -> value d = Some v -> keep v = true ->
  lastKept keep (year d) s = Some v.
Proof.
  unfold oneValuePerYear.
  induction s as [ | d' p IH] using rev_ind; [ intros _ [] | ].
  rewrite filter_app, map_app. intros Hnd Hin Hv Hk. rewrite lastKept_snoc.
  apply in_app_or in Hin. destruct Hin as [Hin | [-> | []]].
  - assert (Hp : lastKept keep (year d) p = Some v).
    { apply IH; auto. apply NoDup_app_remove_r in Hnd. exact Hnd. }
    destruct (value d') as [w | ] eqn:E; [ | exact Hp ].
    destruct (keep w); [ | exact Hp ].
    destruct (Z.eqb_spec (year d') (year d)) as [Hy | _]; [ | exact Hp ].
    exfalso. cbn [filter] in Hnd. unfold carries at 2 in Hnd. rewrite E in Hnd.
    cbn [map] in Hnd. apply NoDup_remove_2 in Hnd. rewrite app_nil_r in Hnd.
    apply Hnd. rewrite Hy. apply in_map, filter_In. split; [ exact Hin | ].
    unfold carries. rewrite Hv. reflexivity.
  - rewrite Hv, Hk, Z.eqb_refl. reflexivity.
Qed.

Lemma oneValuePerYear_perm (s s' : TimeSeries) :
  Permutation s s' -> oneValuePerYear s -> oneValuePerYear s'.
Proof.
  unfold oneValuePerYear. intros Hp. apply Permutation_NoDup, Permutation_map.
  clear -Hp. induction Hp; cbn [filter].
  - constructor.
  - destruct (carries x); [ constructor | ]; assumption.
  - destruct (carries x), (carries y); try apply perm_swap; apply Permutation_refl.
  - eapply perm_trans; eassumption.
Qed.

(** The last value kept for a year is the value kept for that year,
    wherever its point stands in the series. *)
Lemma lastKept_perm (k : Z) (s s' : TimeSeries) :
  Permutation s s' -> oneValuePerYear s -> lastKept keep k s = lastKept keep k s'.
Proof.
  intros Hp Hs. pose proof (oneValuePerYear_perm _ _ Hp Hs) as Hs'.
  destruct (lastKept keep k s) as [v | ] eqn:E.
  - destruct (lastKept_In _ _ _ _ E) as (d & Hin & <- & Hv & Hk).
    symmetry. apply lastKept_of_In; auto. apply (Permutation_in _ Hp), Hin.
  - destruct (lastKept keep k s') as [v | ] eqn:E'; [ | reflexivity ].
    destruct (lastKept_In _ _ _ _ E') as (d & Hin & <- & Hv & Hk).
    assert (X : lastKept keep (year d) s = Some v).
    { apply lastKept_of_In; auto. apply (Permutation_in _ (Permutation_sym Hp)), Hin. }
    congruence.
Qed.

(** Hence the object built by the two passes is the same, when its
    keys are array indices. *)
Lemma passes_perm (a a' b b' : TimeSeries) :
  Permutation a a' -> Permutation b b' -> oneValuePerYear a -> oneValuePerYear b ->
  indexYears a ->
  secondPass keep (firstPass keep a) b = secondPass keep (firstPass keep a') b'.
Proof.
  intros Pa Pb Ha Hb Hi.
  pose proof (secondPass_sorted keep a b Hi) as S1.
  pose proof (secondPass_sorted keep a' b' (indexYears_perm _ _ Pa Hi)) as S2.
  destruct (secondPass_inv keep a b) as [_ I1].
  destruct (secondPass_inv keep a' b') as [_ I2].
  apply keysSorted_ext; [ exact S1 | exact S2 | ].
  intros [k [x y]]. rewrite I1, I2.
  rewrite (lastKept_perm k a a' Pa Ha), (lastKept_perm k b b' Pb Hb). tauto.
Qed.

End PointOrder.

(** X24. When no year is repeated among the points that carry a value
    and the years of the first series are array indices (from 0 to
    2^32 - 2, as calendar years are), the correlation and the Granger
    test of two series do not depend on the order in which the points
    of each series are listed. *)
Theorem alignment_order_independent (a a' b b' : TimeSeries) :
  Permutation a a' -> Permutation b b' -> oneValuePerYear a -> oneValuePerYear b ->
  indexYears a ->
  Engine.pearson a b = Engine.pearson a' b' /\
  forall (Math_log Math_exp : float -> float) (maxLag : nat),
    Causal.grangerTest Math_log Math_exp a b maxLag
    = Causal.grangerTest Math_log Math_exp a' b' maxLag.
Proof.
  intros Pa Pb Ha Hb Hi. split.
  - unfold Engine.pearson, Engine.pearsonPairs. rewrite !pearsonByYear_passes.
    rewrite (passes_perm notNull a a' b b' Pa Pb Ha Hb Hi). reflexivity.
  - intros Math_log Math_exp maxLag. unfold Causal.grangerTest, Causal.alignXY.
    change (Causal.byYearXY a b)
      with (secondPass JS.isFinite (firstPass JS.isFinite a) b).
    change (Causal.byYearXY a' b')
      with (secondPass JS.isFinite (firstPass JS.isFinite a') b').
    rewrite (passes_perm JS.isFinite a a' b b' Pa Pb Ha Hb Hi). reflexivity.
Qed.

(** The series 1, 2, 4 listed backwards correlates with itself, listed
    forwards, as it does with itself. *)
Lemma alignment_order_independent_witness :
  Engine.pearson risingSeries risingSeries = Engine.pearson (rev risingSeries) risingSeries.
Proof.
  refine (proj1 (alignment_order_independent
                   risingSeries (rev risingSeries) risingSeries risingSeries _ _ _ _ _)).
  - apply Permutation_rev.
  - apply Permutation_refl.
  - unfold oneValuePerYear. cbn. repeat constructor; cbn; intuition discriminate.
  - unfold oneValuePerYear. cbn. repeat constructor; cbn; intuition discriminate.
  - apply indexYears_forallb. vm_compute. reflexivity.
Defined.

(** ** The server cache *)

Section CacheFacts.
Import ServerCache.
Context {V : Type}.

Lemma mapGet_set_same (key : string) (e : Entry V) (st : Store V) :
  mapGet key (mapSet key e st) = Some e.
Proof.
  induction st as [ | [k e'] st IH]; cbn [mapSet mapGet].
  - rewrite String.eqb_refl. reflexivity.
  - destruct (String.eqb_spec key k) as [-> | Hne]; cbn [mapGet].
    + rewrite String.eqb_refl. reflexivity.
    + apply String.eqb_neq in Hne. rewrite Hne. exact IH.
Qed.

Lemma mapGet_set_other (key key' : string) (e : Entry V) (st : Store V) :
  key' <> key -> mapGet key' (mapSet key e st) = mapGet key' st.
Proof.
  intros Hne. induction st as [ | [k e'] st IH]; cbn [mapSet mapGet].
  - apply String.eqb_neq in Hne. rewrite Hne. reflexivity.
  - destruct (String.eqb_spec key k) as [-> | Hk]; cbn [mapGet].
    + apply String.eqb_neq in Hne. rewrite Hne. reflexivity.
    + rewrite IH. reflexivity.
Qed.

Lemma mapSet_keys (key : string) (e : Entry V) (st : Store V) (k : string) :
  In k (map fst (mapSet key e st)) <-> k = key \/ In k (map fst st).
Proof.
  induction st as [ | [k' e'] st IH]; cbn [mapSet map fst In].
  - intuition congruence.
  - destruct (String.eqb_spec key k') as [-> | Hk]; cbn [map fst In].
    + intuition congruence.
    + rewrite IH. intuition congruence.
Qed.

Lemma mapSet_NoDup (key : string) (e : Entry V) (st : Store V) :
  NoDup (map fst st) -> NoDup (map fst (mapSet key e st)).
Proof.
  induction st as [ | [k' e'] st IH]; cbn [mapSet map fst]; intros H.
  - constructor; [ intros [] | constructor ].
  - inversion H as [ | ? ? Hnin Hnd]; subst.
    destruct (String.eqb_spec key k') as [-> | Hk]; cbn [map fst].
    + constructor; assumption.
    + constructor; [ | apply IH, Hnd ].
      rewrite mapSet_keys. intros [-> | Hin]; [ congruence | contradiction ].
Qed.

Lemma mapSet_length (key : string) (e : Entry V) (st : Store V) :
  length (mapSet key e st)
  = match mapGet key st with Some _ => length st | None => S (length st) end.
Proof.
  induction st as [ | [k' e'] st IH]; cbn [mapSet mapGet length]; [ reflexivity | ].
  destruct (String.eqb_spec key k') as [-> | Hk]; cbn [length]; [ reflexivity | ].
  rewrite IH. destruct (mapGet key st); reflexivity.
Qed.

Lemma mapGet_In (key : string) (e : Entry V) (st : Store V) :
  NoDup (map fst st) -> (mapGet key st = Some e <-> In (key, e) st).
Proof.
  induction st as [ | [k' e'] st IH]; cbn [mapGet map fst In]; intros H.
  - split; [ discriminate | intros [] ].
  - inversion H as [ | ? ? Hnin Hnd]; subst.
    destruct (String.eqb_spec key k') as [-> | Hk].
    + split; [ intros [= ->]; left; reflexivity | ].
      intros [[= ->] | Hin]; [ reflexivity | ].
      exfalso. apply Hnin. apply (in_map fst) in Hin. exact Hin.
    + rewrite (IH Hnd). split; [ auto | ].
      intros [[= -> _] | Hin]; [ congruence | exact Hin ].
Qed.

Lemma evict_NoDup (now : Z) (st : Store V) :
  NoDup (map fst st) -> NoDup (map fst (evict now st)).
Proof. intros H. unfold evict. apply NoDup_map_filter, H. Qed.

(** What a read finds after an eviction: the entry it would have found
    before, unless that entry had expired. *)
Lemma mapGet_evict (now : Z) (key : string) (st : Store V) :
  NoDup (map fst st) ->
  mapGet key (evict now st)
  = match mapGet key st with
    | Some e => if (expires e <? now)%Z then None else Some e
    | None => None
    end.
Proof.
  intros H. pose proof (evict_NoDup now st H) as H'.
  destruct (mapGet key st) as [e | ] eqn:E.
  - apply (mapGet_In _ _ _ H) in E.
    destruct (expires e <? now)%Z eqn:X.
    + destruct (mapGet key (evict now st)) as [e' | ] eqn:E'; [ | reflexivity ].
      apply (mapGet_In _ _ _ H') in E'. unfold evict in E'. apply filter_In in E'.
      destruct E' as [E' X']. cbn [snd] in X'.
      apply (mapGet_In _ _ _ H) in E, E'. rewrite E in E'. injection E' as <-.
      rewrite X in X'. discriminate.
    + apply (mapGet_In _ _ _ H'). unfold evict. apply filter_In. split; [ exact E | ].
      cbn [snd]. rewrite X. reflexivity.
  - destruct (mapGet key (evict now st)) as [e' | ] eqn:E'; [ | reflexivity ].
    apply (mapGet_In _ _ _ H') in E'. unfold evict in E'. apply filter_In in E'.
    destruct E' as [E' _]. apply (mapGet_In _ _ _ H) in E'. congruence.
Qed.

Lemma mapDelete_length (key : string) (e : Entry V) (st : Store V) :
  mapGet key st = Some e -> S (length (mapDelete key st)) = length st.
Proof.
  induction st as [ | [k' e'] st IH]; cbn [mapGet mapDelete length]; [ discriminate | ].
  destruct (key =? k')%string; [ reflexivity | ].
  intros H. cbn [length]. rewrite (IH H). reflexivity.
Qed.

Lemma mapGet_delete (key : string) (st : Store V) :
  NoDup (map fst st) -> mapGet key (mapDelete key st) = None.
Proof.
  induction st as [ | [k' e'] st IH]; cbn [mapGet mapDelete map fst]; intros H;
    [ reflexivity | ].
  inversion H as [ | ? ? Hnin Hnd]; subst.
  destruct (String.eqb_spec key k') as [-> | Hk].
  - destruct (mapGet k' st) as [e | ] eqn:E; [ | reflexivity ].
    apply (mapGet_In _ _ _ Hnd) in E. exfalso. apply Hnin.
    apply (in_map fst) in E. exact E.
  - cbn [mapGet]. apply String.eqb_neq in Hk. rewrite Hk. apply IH, Hnd.
Qed.

End CacheFacts.

(** X25. What is stored can be read back until it expires.  A value stored
    at the time [now] for [ttlMs] milliseconds is returned, the store
    being left as it is, by every read up to the time [now + ttlMs]
    (provided the eviction that the write may trigger runs before that
    time); a later read returns [null] and removes the entry, so that
    the next read finds nothing. *)
Theorem cache_read_back {V : Type}
  (st : ServerCache.Store V) (key : string) (v : V) (now later ttlMs : Z) :
  NoDup (map fst st) -> (later <= now + ttlMs)%Z ->
  let st' := ServerCache.set now later key v ttlMs st in
  NoDup (map fst st') /\
  (forall t, (t <= now + ttlMs)%Z -> ServerCache.get t key st' = (Some v, st')) /\
  (forall t, (now + ttlMs < t)%Z ->
             fst (ServerCache.get t key st') = None /\
             S (ServerCache.size (snd (ServerCache.get t key st'))) = ServerCache.size st' /\
             forall t', fst (ServerCache.get t' key (snd (ServerCache.get t key st'))) = None).
Proof.
  intros Hnd Hlater st'.
  set (e := ServerCache.mkEntry v (now + ttlMs)%Z).
  assert (Hnd' : NoDup (map fst st')).
  { subst st'. unfold ServerCache.set. fold e.
    destruct (_ =? 0); [ apply evict_NoDup | ]; apply mapSet_NoDup, Hnd. }
  assert (Hget : ServerCache.mapGet key st' = Some e).
  { subst st'. unfold ServerCache.set. fold e. destruct (_ =? 0).
    - rewrite mapGet_evict by (apply mapSet_NoDup, Hnd). rewrite mapGet_set_same.
      cbn [ServerCache.expires e]. destruct (Z.ltb_spec (now + ttlMs) later); [ lia | ].
      reflexivity.
    - apply mapGet_set_same. }
  split; [ exact Hnd' | ]. split.
  - intros t Ht. unfold ServerCache.get. rewrite Hget. cbn [ServerCache.expires e].
    destruct (Z.ltb_spec (now + ttlMs) t); [ lia | reflexivity ].
  - intros t Ht.
    assert (Eg : ServerCache.get t key st' = (None, ServerCache.mapDelete key st')).
    { unfold ServerCache.get. rewrite Hget. cbn [ServerCache.expires e].
      destruct (Z.ltb_spec (now + ttlMs) t); [ reflexivity | lia ]. }
    rewrite Eg. cbn [fst snd].
    split; [ reflexivity | ]. split; [ apply (mapDelete_length _ _ _ Hget) | ].
    intros t'. unfold ServerCache.get. rewrite mapGet_delete by exact Hnd'. reflexivity.
Qed.

(** A value stored for a minute in an empty cache and read half a
    minute later. *)
Lemma cache_read_back_witness :
  ServerCache.get 30000 "countries" (ServerCache.set 0 0 "countries" 7 60000 [])
  = (Some 7, ServerCache.set 0 0 "countries" 7 60000 []).
Proof.
  refine (proj1 (proj2 (cache_read_back [] "countries" 7 0 0 60000 _ _)) 30000%Z _).
  - constructor.
  - lia.
  - lia.
Defined.

(** X26. Storing a value under one key never changes what a later read of
    another key returns, eviction or not; and the cache grows by one
    entry at most. *)
Theorem cache_set_other_keys {V : Type}
  (st : ServerCache.Store V) (key key' : string) (v : V) (now later ttlMs t : Z) :
  NoDup (map fst st) -> key' <> key -> (later <= t)%Z ->
  let st' := ServerCache.set now later key v ttlMs st in
  fst (ServerCache.get t key' st') = fst (ServerCache.get t key' st) /\
  ServerCache.size st' <= S (ServerCache.size st).
Proof.
  intros Hnd Hne Ht st'. subst st'. unfold ServerCache.set.
  set (e := ServerCache.mkEntry v (now + ttlMs)%Z).
  assert (Hlen : length (ServerCache.mapSet key e st) <= S (length st)).
  { rewrite mapSet_length. destruct (ServerCache.mapGet key st); lia. }
  destruct (_ =? 0).
  - split.
    + unfold ServerCache.get. rewrite mapGet_evict by (apply mapSet_NoDup, Hnd).
      rewrite mapGet_set_other by exact Hne.
      destruct (ServerCache.mapGet key' st) as [e' | ]; [ | reflexivity ].
      destruct (Z.ltb_spec (ServerCache.expires e') later) as [Hx | Hx]; cbn [fst].
      * destruct (Z.ltb_spec (ServerCache.expires e') t); [ reflexivity | lia ].
      * destruct (ServerCache.expires e' <? t)%Z; reflexivity.
    + unfold ServerCache.size, ServerCache.evict.
      etransitivity; [ apply filter_length_le | exact Hlen ].
  - split; [ | exact Hlen ].
    unfold ServerCache.get. rewrite mapGet_set_other by exact Hne.
    destruct (ServerCache.mapGet key' st) as [e' | ]; [ | reflexivity ].
    destruct (ServerCache.expires e' <? t)%Z; reflexivity.
Qed.

(** A second key stored in a cache that holds the countries. *)
Lemma cache_set_other_keys_witness :
  fst (ServerCache.get 10 "countries"
         (ServerCache.set 5 5 "wb:NGA" 1 60000 (ServerCache.set 0 0 "countries" 7 60000 [])))
  = Some 7.
Proof.
  refine (eq_trans
            (proj1 (cache_set_other_keys (ServerCache.set 0 0 "countries" 7 60000 [])
                      "wb:NGA" "countries" 1 5 5 60000 10 _ _ _)) _).
  - repeat constructor. intros [].
  - discriminate.
  - lia.
  - reflexivity.
Defined.
